(** * spine2d: the oracle-golden recorder (scripts/record_oracle_goldens.py)

    A shallow embedding of the scenario extraction and command compilation
    engine: the brace scanners, the arithmetic evaluator, the constant
    environment, the call-pattern table, the loop unroller, the scenario
    assembler and the oracle invocation; then the two provenance files and
    the command line run that records the goldens.

    Conventions.
    - A Python [str] that is scanned is a [text], the list of its characters;
      command-line tokens, names and paths are [string]s.  Characters are
      code points below 256.
    - A Python exception is a value of [exn]; a function that may raise
      returns a [result], with [inl] for the exception and [inr] for the
      value.
    - Python's [float] is IEEE binary64, which is the kernel's [float]. *)

From Stdlib Require Import ZArith QArith Qround Ascii String.
From Stdlib Require Import PrimFloat SpecFloat FloatOps.
From Stdlib Require OrderedTypeEx.
From stdpp Require Import base option list gmap strings sorting.

Set Warnings "-register-all".

Local Open Scope Z_scope.
Local Open Scope string_scope.
Local Open Scope nat_scope.
Local Open Scope list_scope.

(* ===================================================================== *)
(** * Characters, texts and exceptions *)

Abbreviation text := (list ascii).

(** The double quote, the backslash and the two braces. *)
Definition dquote : ascii := "034"%char.
Definition backslash : ascii := "\"%char.
Definition lbrace : ascii := "{"%char.
Definition rbrace : ascii := "}"%char.

Definition chr_eqb (a b : ascii) : bool := Ascii.eqb a b.

(** [T "..."] is the text of a literal. *)
Definition T (s : string) : text := list_ascii_of_string s.
Definition S_ (t : text) : string := string_of_list_ascii t.

(** Example sources are written with an apostrophe standing for the double
    quote; [rust] puts the double quotes back. *)
Definition rust (s : string) : text :=
  map (fun c => if chr_eqb c "'"%char then dquote else c) (T s).

(** The exceptions the recorder raises, one constructor per raise site or
    per library exception that reaches a handler. *)
Inductive exn : Type :=
| UnbalancedBraces                       (* ValueError("unbalanced braces") *)
| UnbalancedBracesSlow                   (* ValueError("unbalanced braces (slow)") *)
| SyntaxError                            (* raised by ast.parse *)
| UnsupportedExpr (expr : string)        (* ValueError("unsupported expr: ...") *)
| ZeroDivisionError                      (* float division by zero *)
| OverflowError                          (* int too large for float; int(inf) *)
| IntOfNaN                               (* ValueError of int(nan) *)
| UnknownVariable (token : string)       (* ValueError("unknown variable: ...") *)
| InvalidBool (token : string)           (* ValueError("invalid bool: ...") *)
| InvalidMixBlend (v : string)           (* ValueError("invalid MixBlend: ...") *)
| InvalidPhysics (v : string)            (* ValueError("invalid Physics: ...") *)
| FailedToParse (start : nat) (matched : string) (cause : exn)
                                         (* ValueError("failed to parse at ...") *)
| InvalidLoopRepeat (repeat : Z)         (* ValueError("invalid loop repeat: ...") *)
| OracleFailed (code : Z)                (* RuntimeError("oracle failed ...") *)
| JSONDecodeError                        (* raised by json.loads *)
| FuelExhausted.                         (* not a Python exception: see [parse_commands] *)

Definition result (A : Type) : Type := (exn + A)%type.

Definition raise {A} (e : exn) : result A := inl e.
Definition ok {A} (a : A) : result A := inr a.

#[global] Instance result_bind : MBind result :=
  fun A B f x => match x with inl e => inl e | inr a => f a end.
#[global] Instance result_ret : MRet result := fun A a => inr a.

(** A computation bounded by fuel: [None] when the fuel ran out. *)
Definition fueled (A : Type) : Type := option (result A).

Definition fbind {A B} (x : fueled A) (f : A -> fueled B) : fueled B :=
  match x with
  | None => None
  | Some (inl e) => Some (inl e)
  | Some (inr a) => f a
  end.

Notation "x ←? y ; z" := (fbind y (fun x => z))
  (at level 20, y at level 100, z at level 200, only parsing).

(* ===================================================================== *)
(** * Balanced-region scanner *)

(** [strip_rust_strings_for_brace_count]: the characters of [s] outside
    string literals, the quotes dropped.  The loop state is
    [(in_str, escape)]. *)
Fixpoint strip_go (s : text) (in_str escape : bool) : text :=
  match s with
  | [] => []
  | ch :: s' =>
      if in_str then
        if escape then strip_go s' true false
        else if chr_eqb ch backslash then strip_go s' true true
        else if chr_eqb ch dquote then strip_go s' false escape
        else strip_go s' true escape
      else
        if chr_eqb ch dquote then strip_go s' true escape
        else ch :: strip_go s' false escape
  end.

Definition strip_rust_strings_for_brace_count (s : text) : text :=
  strip_go s false false.

(** The loop of [find_matching_brace_slow] from index [i] on, [rest] being
    [text[i:]]. *)
Fixpoint slow_scan (rest : text) (i : nat) (depth : Z) (in_str escape : bool)
  : result nat :=
  match rest with
  | [] => raise UnbalancedBracesSlow
  | ch :: rest' =>
      if in_str then
        if escape then slow_scan rest' (S i) depth true false
        else if chr_eqb ch backslash then slow_scan rest' (S i) depth true true
        else if chr_eqb ch dquote then slow_scan rest' (S i) depth false escape
        else slow_scan rest' (S i) depth true escape
      else
        if chr_eqb ch dquote then slow_scan rest' (S i) depth true escape
        else if chr_eqb ch lbrace then
          slow_scan rest' (S i) (depth + 1)%Z false escape
        else if chr_eqb ch rbrace then
          let depth' := (depth - 1)%Z in
          if (depth' =? 0)%Z then ok i
          else slow_scan rest' (S i) depth' false escape
        else slow_scan rest' (S i) depth false escape
  end.

(** [open_index] is never negative at the call sites: [extract_scenarios]
    skips a negative [find] result and [parse_commands] searches from inside
    a match that ends with the brace. *)
Definition find_matching_brace_slow (text_ : text) (open_index : nat)
  : result nat :=
  slow_scan (drop open_index text_) open_index 0%Z false false.

(** The inner [for j, ch in enumerate(chunk)] of [find_matching_brace]:
    [None] when the depth returns to zero (the function then returns through
    the slow path), otherwise the depth after the chunk. *)
Fixpoint count_chunk (chunk : text) (depth : Z) : option Z :=
  match chunk with
  | [] => Some depth
  | ch :: chunk' =>
      if chr_eqb ch lbrace then count_chunk chunk' (depth + 1)%Z
      else if chr_eqb ch rbrace then
        let depth' := (depth - 1)%Z in
        if (depth' =? 0)%Z then None else count_chunk chunk' depth'
      else count_chunk chunk' depth
  end.

Definition chunk_size : nat := 4096.

(** The [while i < len(text)] loop advances [i] by [chunk_size] from
    [open_index]: [n] is the number of iterations left. *)
Fixpoint chunk_loop (n : nat) (text_ : text) (open_index i : nat) (depth : Z)
  : result nat :=
  match n with
  | 0 => raise UnbalancedBraces
  | S n' =>
      let chunk :=
        strip_rust_strings_for_brace_count (take chunk_size (drop i text_)) in
      match count_chunk chunk depth with
      | None => find_matching_brace_slow text_ open_index
      | Some depth' => chunk_loop n' text_ open_index (i + chunk_size) depth'
      end
  end.

(** Number of values of [i = open_index + k * chunk_size] below [len]. *)
Definition chunk_iterations (len open_index : nat) : nat :=
  (len - open_index + (chunk_size - 1)) / chunk_size.

Definition find_matching_brace (text_ : text) (open_index : nat) : result nat :=
  chunk_loop (chunk_iterations (length text_) open_index)
             text_ open_index open_index 0%Z.

(** ** The scanner's contract, stated on a lexical view of the text

    [code_view s] classifies every character of [s], read from outside any
    literal: [Some ch] for a character outside string literals, [None] for a
    character of a literal (its quotes included).  Inside a literal a
    backslash takes the next character with it. *)
Fixpoint code_view (s : text) : list (option ascii) :=
  match s with
  | [] => []
  | ch :: s' =>
      if chr_eqb ch dquote then None :: lit_view s' else Some ch :: code_view s'
  end
with lit_view (s : text) : list (option ascii) :=
  match s with
  | [] => []
  | ch :: s' =>
      if chr_eqb ch backslash then
        match s' with
        | [] => [None]
        | _ :: s'' => None :: None :: lit_view s''
        end
      else if chr_eqb ch dquote then None :: code_view s'
      else None :: lit_view s'
  end.

Definition is_open (o : option ascii) : bool :=
  match o with Some ch => chr_eqb ch lbrace | None => false end.
Definition is_close (o : option ascii) : bool :=
  match o with Some ch => chr_eqb ch rbrace | None => false end.

Definition brace_delta (o : option ascii) : Z :=
  if is_open o then 1%Z else if is_close o then (-1)%Z else 0%Z.

(** Nesting depth after the first [k] characters of a view. *)
Definition nesting (v : list (option ascii)) (k : nat) : Z :=
  foldr (fun o acc => (brace_delta o + acc)%Z) 0%Z (take k v).

(** Position [k] of [s] closes the brace that opens [s]: it is a closing
    brace outside literals, the depth is zero after it and positive at
    every point strictly inside. *)
Definition matching_close (s : text) (k : nat) : Prop :=
  is_close (default None (code_view s !! k)) = true
  /\ nesting (code_view s) (S k) = 0%Z
  /\ forall j, 1 <= j <= k -> (0 < nesting (code_view s) j)%Z.

(** The first return of the depth to zero over a view, counted from depth
    [d] at index [i]. *)
Fixpoint view_search (v : list (option ascii)) (i : nat) (d : Z) : result nat :=
  match v with
  | [] => raise UnbalancedBracesSlow
  | o :: v' =>
      let d' := (d + brace_delta o)%Z in
      if is_close o && (d' =? 0)%Z then ok i else view_search v' (S i) d'
  end.

(** A text whose string literal straddles the first chunk boundary. *)
Definition straddling_text : text :=
  lbrace :: replicate 4094 " "%char ++ [dquote; "a"%char; dquote; rbrace].

(* ===================================================================== *)
(** * Floats: literals, [int], [repr]

    The conversions of CPython that the recorder relies on, written with
    exact integer and rational arithmetic. *)

(** Python's [float(n)] for an [int]: round to nearest, ties to even, and
    OverflowError when the result is out of range. *)
Definition float_of_Z (z : Z) : result float :=
  let f := SF2Prim (binary_normalize prec emax z 0 false) in
  if PrimFloat.is_infinity f then raise OverflowError else ok f.

(** The value of a decimal literal [m * 10^e10], correctly rounded. *)
Definition float_of_decimal (m : Z) (e10 : Z) : float :=
  match m with
  | Zpos p =>
      if (0 <=? e10)%Z then
        SF2Prim (binary_normalize prec emax (m * 10 ^ e10) 0 false)
      else
        SF2Prim (SFdiv prec emax (S754_finite false p 0)
                   (S754_finite false (Z.to_pos (10 ^ (- e10))) 0))
  | _ => PrimFloat.zero
  end.

(** Python's [int(x)] for a [float]: truncation toward zero. *)
Definition int_of_float (x : float) : result Z :=
  match Prim2SF x with
  | S754_zero _ => ok 0%Z
  | S754_infinity _ => raise OverflowError
  | S754_nan => raise IntOfNaN
  | S754_finite s m e =>
      let a :=
        if (0 <=? e)%Z then (Zpos m * 2 ^ e)%Z else (Zpos m / 2 ^ (- e))%Z in
      ok (if s then (- a)%Z else a)
  end.

(** ** [repr] of a float *)

Definition digit_char (d : Z) : ascii := ascii_of_nat (48 + Z.to_nat d).

Fixpoint digits_go (fuel : nat) (n : Z) (acc : text) : text :=
  match fuel with
  | 0 => acc
  | S fuel' =>
      let acc' := digit_char (n mod 10) :: acc in
      if (n <? 10)%Z then acc' else digits_go fuel' (n / 10)%Z acc'
  end.

(** Decimal digits of a non-negative integer. *)
Definition digits_of_Z (n : Z) : text :=
  digits_go (S (Z.to_nat (Z.log2 n))) n [].

Fixpoint strip_trailing_zeros_rev (r : text) : text :=
  match r with
  | c :: r' => if chr_eqb c "0"%char then strip_trailing_zeros_rev r' else r
  | [] => []
  end.
Definition strip_trailing_zeros (d : text) : text :=
  match rev (strip_trailing_zeros_rev (rev d)) with
  | [] => T "0"
  | d' => d'
  end.

Definition pow10Q (k : Z) : Q :=
  if (0 <=? k)%Z then inject_Z (10 ^ k) else / inject_Z (10 ^ (- k)).
Definition pow2Q (k : Z) : Q :=
  if (0 <=? k)%Z then inject_Z (2 ^ k) else / inject_Z (2 ^ (- k)).

(** The open or closed interval of the reals that round to [m * 2^e]. *)
Definition rounds_to (m : positive) (e : Z) (d : Q) : bool :=
  let x := (inject_Z (Zpos m) * pow2Q e)%Q in
  let half := pow2Q (e - 1) in
  let low_gap :=
    if (Zpos m =? 2 ^ 52)%Z && (-1074 <? e)%Z then pow2Q (e - 2) else half in
  let lo := (x - low_gap)%Q in
  let hi := (x + half)%Q in
  if Z.even (Zpos m) then Qle_bool lo d && Qle_bool d hi
  else negb (Qle_bool d lo) && negb (Qle_bool hi d).

(** [decpt] with [10^(decpt-1) <= x < 10^decpt]. *)
Fixpoint decpt_search (fuel : nat) (x : Q) (k : Z) : Z :=
  match fuel with
  | 0 => k
  | S fuel' =>
      if negb (Qle_bool (pow10Q k) x) then k else decpt_search fuel' x (k + 1)%Z
  end.
Definition decpt_of (m : positive) (e : Z) : Z :=
  let x := (inject_Z (Zpos m) * pow2Q e)%Q in
  let est := ((Z.log2 (Zpos m) + e) * 30103 / 100000 - 1)%Z in
  decpt_search 8 x est.

(** Shortest digits: the first length [n] at which one of the two [n]-digit
    neighbours of [x] rounds to [x]; of two that do, the nearer, and the even
    one on a tie. *)
Fixpoint shortest_go (fuel : nat) (m : positive) (e decpt : Z) (n : Z)
  : Z * Z :=
  let x := (inject_Z (Zpos m) * pow2Q e)%Q in
  let q := (decpt - n)%Z in
  let lo := Qfloor (x * pow10Q (- q))%Q in
  let hi := (lo + 1)%Z in
  let vlo := (inject_Z lo * pow10Q q)%Q in
  let vhi := (inject_Z hi * pow10Q q)%Q in
  let oklo := rounds_to m e vlo in
  let okhi := rounds_to m e vhi in
  let dlo := (x - vlo)%Q in
  let dhi := (vhi - x)%Q in
  let pick :=
    if oklo && okhi then
      if Qeq_bool dlo dhi then Some (if Z.even lo then lo else hi)
      else if Qle_bool dlo dhi then Some lo else Some hi
    else if oklo then Some lo
    else if okhi then Some hi
    else None in
  match pick with
  | Some D => (D, q)
  | None =>
      match fuel with
      | 0 => (lo, q)
      | S fuel' => shortest_go fuel' m e decpt (n + 1)%Z
      end
  end.

(** Digits and decimal point position, as [_Py_dg_dtoa] in mode 0 returns
    them: the value is [0.d1d2...dn * 10^decpt]. *)
Definition shortest_digits (m : positive) (e : Z) : text * Z :=
  let '(D, q) := shortest_go 17 m e (decpt_of m e) 1 in
  let ds := digits_of_Z D in
  (strip_trailing_zeros ds, (q + Z.of_nat (length ds))%Z).

Definition exp_digits (k : Z) : text :=
  let ds := digits_of_Z (Z.abs k) in
  (if (k <? 0)%Z then T "-" else T "+")
    ++ (if (Z.abs k <? 10)%Z then T "0" else []) ++ ds.

(** [format_float_short] for the ['r'] format with the add-dot-0 flag. *)
Definition format_repr (ds : text) (decpt : Z) : text :=
  let n := Z.of_nat (length ds) in
  if (decpt <=? -4)%Z || (16 <? decpt)%Z then
    take 1 ds
      ++ (if (1 <? n)%Z then T "." ++ drop 1 ds else [])
      ++ T "e" ++ exp_digits (decpt - 1)
  else if (decpt <=? 0)%Z then
    T "0." ++ replicate (Z.to_nat (- decpt)) "0"%char ++ ds
  else if (n <=? decpt)%Z then
    ds ++ replicate (Z.to_nat (decpt - n)) "0"%char ++ T ".0"
  else
    take (Z.to_nat decpt) ds ++ T "." ++ drop (Z.to_nat decpt) ds.

Definition float_repr (x : float) : string :=
  string_of_list_ascii
    match Prim2SF x with
    | S754_nan => T "nan"
    | S754_infinity s => if s then T "-inf" else T "inf"
    | S754_zero s => if s then T "-0.0" else T "0.0"
    | S754_finite s m e =>
        let '(ds, decpt) := shortest_digits m e in
        (if s then T "-" else []) ++ format_repr ds decpt
    end.

(* ===================================================================== *)
(** * Python expressions: the nodes [safe_eval_f32] looks at *)

Inductive py_const : Type :=
| CInt (z : Z)
| CFloat (f : float)
| CBool (b : bool)        (* [True], [False]: instances of [int] *)
| CComplex                (* an imaginary literal *)
| CNone.

Inductive unaryop : Type := UAdd | USub | Invert | Not.

Inductive operator : Type :=
| Add | Sub | Mult | Div | FloorDiv | Mod | Pow | OtherOperator.

Inductive py_expr : Type :=
| Expression (body : py_expr)
| Constant (value : py_const)
| Name (id : string)
| UnaryOp (op : unaryop) (operand : py_expr)
| BinOp (left : py_expr) (op : operator) (right : py_expr)
| Call (func : py_expr) (args : list py_expr)
| Attribute (value : py_expr) (attr : string)
| OtherNode.              (* every other node class *)

(** Python's float division. *)
Definition float_div (a b : float) : result float :=
  if PrimFloat.eqb b PrimFloat.zero then raise ZeroDivisionError
  else ok (PrimFloat.div a b).

(** The nested [eval_node] of [safe_eval_f32]; [expr] is the text quoted in
    the error message. *)
Fixpoint eval_node (expr : string) (n : py_expr) : result float :=
  match n with
  | Expression body => eval_node expr body
  | Constant (CInt z) => float_of_Z z
  | Constant (CBool b) => ok (if b then PrimFloat.one else PrimFloat.zero)
  | Constant (CFloat f) => ok f
  | UnaryOp UAdd operand => v ← eval_node expr operand; ok v
  | UnaryOp USub operand => v ← eval_node expr operand; ok (PrimFloat.opp v)
  | BinOp left_ Add right_ =>
      a ← eval_node expr left_; b ← eval_node expr right_; ok (PrimFloat.add a b)
  | BinOp left_ Sub right_ =>
      a ← eval_node expr left_; b ← eval_node expr right_; ok (PrimFloat.sub a b)
  | BinOp left_ Mult right_ =>
      a ← eval_node expr left_; b ← eval_node expr right_; ok (PrimFloat.mul a b)
  | BinOp left_ Div right_ =>
      a ← eval_node expr left_; b ← eval_node expr right_; float_div a b
  | _ => raise (UnsupportedExpr expr)
  end.

(** ** Character classes of Python's [str] methods and of [re] *)

Definition code (c : ascii) : nat := nat_of_ascii c.
Definition in_range (lo hi : nat) (c : ascii) : bool :=
  (lo <=? code c) && (code c <=? hi).

(** [str.isspace], which is also the class [\s] of a [str] pattern. *)
Definition py_isspace (c : ascii) : bool :=
  in_range 9 13 c || in_range 28 32 c || (code c =? 133) || (code c =? 160).

Definition is_digit (c : ascii) : bool := in_range 48 57 c.
Definition is_alpha (c : ascii) : bool := in_range 65 90 c || in_range 97 122 c.

(** The class [\w] of a [str] pattern: alphanumeric or underscore. *)
Definition py_isword (c : ascii) : bool :=
  is_digit c || is_alpha c || (code c =? 95)
  || (code c =? 170) || in_range 178 179 c || (code c =? 181)
  || in_range 185 186 c || in_range 188 190 c
  || in_range 192 214 c || in_range 216 246 c || in_range 248 255 c.

Fixpoint lstrip (s : text) : text :=
  match s with
  | c :: s' => if py_isspace c then lstrip s' else s
  | [] => []
  end.

(** [str.strip()] *)
Definition py_strip (s : text) : text := rev (lstrip (rev (lstrip s))).

(** [s.replace("_", "")] *)
Definition remove_underscores (s : text) : text :=
  filter (fun c => chr_eqb c "_"%char = false) s.

(* ===================================================================== *)
(** * A parser for the arithmetic fragment of Python's expressions

    [py_parse] stands for [ast.parse(expr, mode="eval")] on the fragment
    made of number literals, names, parentheses, calls with positional
    arguments, attribute access, the unary operators [+ - ~] and the binary
    operators [+ - * / // % **].  Outside the fragment it answers
    [SyntaxError]; the facts that hold for every text are therefore stated
    for an arbitrary parser, and [py_parse] serves the concrete runs. *)

Inductive token : Type :=
| TNum (c : py_const)
| TName (s : string)
| TOp (s : string).

Fixpoint span (p : ascii -> bool) (s : text) : text * text :=
  match s with
  | c :: s' => if p c then let '(a, b) := span p s' in (c :: a, b) else ([], s)
  | [] => ([], [])
  end.

Definition is_ident_start (c : ascii) : bool := is_alpha c || (code c =? 95).
Definition is_ident_char (c : ascii) : bool := is_ident_start c || is_digit c.
Definition is_hex (c : ascii) : bool :=
  is_digit c || in_range 65 70 c || in_range 97 102 c.
Definition is_oct (c : ascii) : bool := in_range 48 55 c.
Definition is_bin (c : ascii) : bool := in_range 48 49 c.

Definition digit_value (c : ascii) : Z :=
  if is_digit c then Z.of_nat (code c - 48)
  else if in_range 65 70 c then Z.of_nat (code c - 55)
  else Z.of_nat (code c - 87).

Definition Z_of_digits (base : Z) (ds : text) : Z :=
  foldl (fun acc c => (acc * base + digit_value c)%Z) 0%Z ds.

Definition is_one_of (cs : string) (c : ascii) : bool :=
  existsb (chr_eqb c) (T cs).

(** Radix-prefixed integer literals. *)
Definition lex_radix (s : text) : option (option (py_const * text)) :=
  match s with
  | z :: x :: rest =>
      if chr_eqb z "0"%char then
        let go (p : ascii -> bool) (base : Z) :=
          let '(ds, r) := span p rest in
          match ds with
          | [] => Some None
          | _ => Some (Some (CInt (Z_of_digits base ds), r))
          end in
        if is_one_of "xX" x then go is_hex 16%Z
        else if is_one_of "oO" x then go is_oct 8%Z
        else if is_one_of "bB" x then go is_bin 2%Z
        else None
      else None
  | _ => None
  end.

(** A number literal at the head of [s] (underscores are gone by then) and
    the rest of the text; [None] for a malformed literal. *)
Definition lex_number (s : text) : option (py_const * text) :=
  match lex_radix s with
  | Some r => r
  | None =>
      let '(ip, r1) := span is_digit s in
      let '(has_dot, fp, r2) :=
        match r1 with
        | c :: r =>
            if chr_eqb c "."%char then
              let '(fp, r') := span is_digit r in (true, fp, r')
            else (false, [], r1)
        | [] => (false, [], r1)
        end in
      let '(has_exp, ex, r3) :=
        match r2 with
        | c :: r =>
            if is_one_of "eE" c then
              let '(neg, r') :=
                match r with
                | sg :: r'' =>
                    if chr_eqb sg "-"%char then (true, r'')
                    else if chr_eqb sg "+"%char then (false, r'')
                    else (false, r)
                | [] => (false, r)
                end in
              let '(ds, r'') := span is_digit r' in
              match ds with
              | [] => (false, 0%Z, r2)
              | _ =>
                  let v := Z_of_digits 10 ds in
                  (true, if neg then (- v)%Z else v, r'')
              end
            else (false, 0%Z, r2)
        | [] => (false, 0%Z, r2)
        end in
      match ip ++ fp with
      | [] => None
      | ds =>
          let imag :=
            match r3 with
            | j :: r4 => if is_one_of "jJ" j then Some r4 else None
            | [] => None
            end in
          match imag with
          | Some r4 => Some (CComplex, r4)
          | None =>
              if has_dot || has_exp then
                Some (CFloat (float_of_decimal (Z_of_digits 10 ds)
                                (ex - Z.of_nat (length fp))), r3)
              else
                match ip with
                | z :: _ :: _ =>
                    if chr_eqb z "0"%char && negb (forallb (chr_eqb "0"%char) ip)
                    then None
                    else Some (CInt (Z_of_digits 10 ip), r3)
                | _ => Some (CInt (Z_of_digits 10 ip), r3)
                end
          end
      end
  end.

Definition keywords : list string :=
  ["and"; "as"; "assert"; "async"; "await"; "break"; "class"; "continue";
   "def"; "del"; "elif"; "else"; "except"; "finally"; "for"; "from";
   "global"; "if"; "import"; "in"; "is"; "lambda"; "nonlocal"; "not"; "or";
   "pass"; "raise"; "return"; "try"; "while"; "with"; "yield"].

Definition name_token (w : string) : option token :=
  if String.eqb w "True" then Some (TNum (CBool true))
  else if String.eqb w "False" then Some (TNum (CBool false))
  else if String.eqb w "None" then Some (TNum CNone)
  else if existsb (String.eqb w) keywords then None
  else Some (TName w).

(** The tokens of [s]; [depth] counts the open parentheses, inside which a
    line break is blank space. *)
Fixpoint lex (fuel : nat) (s : text) (depth : nat) : option (list token) :=
  match fuel with
  | 0 => None
  | S fuel' =>
      match s with
      | [] => Some []
      | c :: s' =>
          if is_one_of " " c || (code c =? 9) || (code c =? 12) then
            lex fuel' s' depth
          else if ((code c =? 10) || (code c =? 13)) && (0 <? depth) then
            lex fuel' s' depth
          else if chr_eqb c "#"%char then
            lex fuel' (snd (span (fun x => negb (code x =? 10)) s')) depth
          else if is_digit c
                  || (chr_eqb c "."%char
                      && match s' with d :: _ => is_digit d | [] => false end)
          then
            match lex_number s with
            | Some (k, r) =>
                match r with
                | x :: _ =>
                    if is_ident_char x then None
                    else ts ← lex fuel' r depth; Some (TNum k :: ts)
                | [] => Some [TNum k]
                end
            | None => None
            end
          else if is_ident_start c then
            let '(w, r) := span is_ident_char s in
            tk ← name_token (S_ w); ts ← lex fuel' r depth; Some (tk :: ts)
          else if chr_eqb c "("%char then
            ts ← lex fuel' s' (S depth); Some (TOp "(" :: ts)
          else if chr_eqb c ")"%char then
            ts ← lex fuel' s' (pred depth); Some (TOp ")" :: ts)
          else if is_one_of "*/" c
                  && match s' with d :: _ => chr_eqb d c | [] => false end
          then
            ts ← lex fuel' (drop 1 s') depth;
            Some (TOp (S_ [c; c]) :: ts)
          else if is_one_of "+-*/%~,." c then
            ts ← lex fuel' s' depth; Some (TOp (S_ [c]) :: ts)
          else None
      end
  end.

Definition binop_of (s : string) : operator :=
  if String.eqb s "+" then Add else if String.eqb s "-" then Sub
  else if String.eqb s "*" then Mult else if String.eqb s "/" then Div
  else if String.eqb s "//" then FloorDiv else if String.eqb s "%" then Mod
  else if String.eqb s "**" then Pow else OtherOperator.

Definition unaryop_of (s : string) : unaryop :=
  if String.eqb s "+" then UAdd else if String.eqb s "-" then USub else Invert.

Definition is_op (ops : list string) (t : token) : option string :=
  match t with
  | TOp s => if existsb (String.eqb s) ops then Some s else None
  | _ => None
  end.

(** Recursive descent, one function per level of the grammar:
    [sum], [term], [factor], [power], [primary], [atom] and call arguments. *)
Fixpoint parse_sum (fuel : nat) (ts : list token) : option (py_expr * list token) :=
  match fuel with
  | 0 => None
  | S fuel' => '(l, r) ← parse_term fuel' ts; sum_rest fuel' l r
  end
with sum_rest (fuel : nat) (l : py_expr) (ts : list token)
  : option (py_expr * list token) :=
  match fuel with
  | 0 => None
  | S fuel' =>
      match ts with
      | t :: ts' =>
          match is_op ["+"; "-"] t with
          | Some o =>
              '(r, ts'') ← parse_term fuel' ts';
              sum_rest fuel' (BinOp l (binop_of o) r) ts''
          | None => Some (l, ts)
          end
      | [] => Some (l, ts)
      end
  end
with parse_term (fuel : nat) (ts : list token) : option (py_expr * list token) :=
  match fuel with
  | 0 => None
  | S fuel' => '(l, r) ← parse_factor fuel' ts; term_rest fuel' l r
  end
with term_rest (fuel : nat) (l : py_expr) (ts : list token)
  : option (py_expr * list token) :=
  match fuel with
  | 0 => None
  | S fuel' =>
      match ts with
      | t :: ts' =>
          match is_op ["*"; "/"; "//"; "%"] t with
          | Some o =>
              '(r, ts'') ← parse_factor fuel' ts';
              term_rest fuel' (BinOp l (binop_of o) r) ts''
          | None => Some (l, ts)
          end
      | [] => Some (l, ts)
      end
  end
with parse_factor (fuel : nat) (ts : list token) : option (py_expr * list token) :=
  match fuel with
  | 0 => None
  | S fuel' =>
      match ts with
      | t :: ts' =>
          match is_op ["+"; "-"; "~"] t with
          | Some o =>
              '(e, r) ← parse_factor fuel' ts'; Some (UnaryOp (unaryop_of o) e, r)
          | None => parse_power fuel' ts
          end
      | [] => None
      end
  end
with parse_power (fuel : nat) (ts : list token) : option (py_expr * list token) :=
  match fuel with
  | 0 => None
  | S fuel' =>
      '(b, r) ← parse_primary fuel' ts;
      match r with
      | t :: r' =>
          match is_op ["**"] t with
          | Some _ => '(e, r'') ← parse_factor fuel' r'; Some (BinOp b Pow e, r'')
          | None => Some (b, r)
          end
      | [] => Some (b, r)
      end
  end
with parse_primary (fuel : nat) (ts : list token) : option (py_expr * list token) :=
  match fuel with
  | 0 => None
  | S fuel' => '(a, r) ← parse_atom fuel' ts; trailers fuel' a r
  end
with trailers (fuel : nat) (a : py_expr) (ts : list token)
  : option (py_expr * list token) :=
  match fuel with
  | 0 => None
  | S fuel' =>
      match ts with
      | TOp o :: ts' =>
          if String.eqb o "(" then
            '(args, r) ← parse_args fuel' ts'; trailers fuel' (Call a args) r
          else if String.eqb o "." then
            match ts' with
            | TName x :: r => trailers fuel' (Attribute a x) r
            | _ => None
            end
          else Some (a, ts)
      | _ => Some (a, ts)
      end
  end
with parse_atom (fuel : nat) (ts : list token) : option (py_expr * list token) :=
  match fuel with
  | 0 => None
  | S fuel' =>
      match ts with
      | TNum k :: r => Some (Constant k, r)
      | TName x :: r => Some (Name x, r)
      | TOp o :: r =>
          if String.eqb o "(" then
            '(e, r') ← parse_sum fuel' r;
            match r' with
            | TOp c :: r'' => if String.eqb c ")" then Some (e, r'') else None
            | _ => None
            end
          else None
      | [] => None
      end
  end
with parse_args (fuel : nat) (ts : list token)
  : option (list py_expr * list token) :=
  match fuel with
  | 0 => None
  | S fuel' =>
      match ts with
      | TOp c :: r =>
          if String.eqb c ")" then Some ([], r)
          else
            '(e, r') ← parse_sum fuel' ts;
            match r' with
            | TOp d :: r'' =>
                if String.eqb d ")" then Some ([e], r'')
                else if String.eqb d "," then
                  '(es, r3) ← parse_args fuel' r''; Some (e :: es, r3)
                else None
            | _ => None
            end
      | _ =>
          '(e, r') ← parse_sum fuel' ts;
          match r' with
          | TOp d :: r'' =>
              if String.eqb d ")" then Some ([e], r'')
              else if String.eqb d "," then
                '(es, r3) ← parse_args fuel' r''; Some (e :: es, r3)
              else None
          | _ => None
          end
      end
  end.

Definition py_parse (expr : text) : result py_expr :=
  match lex (S (length expr)) expr 0 with
  | Some ts =>
      match parse_sum (10 * S (length ts)) ts with
      | Some (e, []) => ok (Expression e)
      | _ => raise SyntaxError
      end
  | None => raise SyntaxError
  end.

(* ===================================================================== *)
(** * Regular expressions: the part of Python's [re] the recorder uses

    A backtracking matcher with the priorities of [re]: alternatives are
    tried left to right, a greedy repetition tries the longest run first and
    a lazy one the shortest.  Repetition is over a character class, which is
    all the patterns of the recorder need. *)

Inductive cclass : Type :=
| CChar (c : ascii)                 (* one literal character *)
| CRange (lo hi : ascii)            (* [lo-hi] *)
| CSpace                            (* \s *)
| CUnion (a b : cclass)             (* the members of a bracket expression *)
| CNot (a : cclass).                (* [^...] and \S *)

Fixpoint class_mem (cl : cclass) (x : ascii) : bool :=
  match cl with
  | CChar c => chr_eqb x c
  | CRange lo hi => in_range (code lo) (code hi) x
  | CSpace => py_isspace x
  | CUnion a b => class_mem a x || class_mem b x
  | CNot a => negb (class_mem a x)
  end.

Inductive regex : Type :=
| Eps
| Chr (cl : cclass)
| Lit (s : string)
| Seq (r1 r2 : regex)
| Alt (r1 r2 : regex)
| Rep (cl : cclass) (at_least_one greedy : bool)   (* cl*  cl+  cl*?  cl+? *)
| Opt (r : regex)                                  (* (?:r)? *)
| Group (n : nat) (r : regex)                      (* the n-th capture *)
| WordBoundary                                     (* \b *)
| EndOfText.                                       (* the end, for fullmatch *)

Definition cat (rs : list regex) : regex := foldr Seq Eps rs.

(** The matcher's position: the character before it, the text after it,
    its index, and the captures so far. *)
Record mstate : Type := MState {
  m_prev : option ascii;
  m_rest : text;
  m_pos : nat;
  m_groups : list (nat * text)
}.

Definition is_word_opt (o : option ascii) : bool :=
  match o with Some c => py_isword c | None => false end.

Definition at_boundary (st : mstate) : bool :=
  xorb (is_word_opt (m_prev st)) (is_word_opt (head (m_rest st))).

Fixpoint lit_go (w : text) (prev : option ascii) (rest : text) (pos : nat)
  : option (option ascii * text * nat) :=
  match w with
  | [] => Some (prev, rest, pos)
  | c :: w' =>
      match rest with
      | x :: rest' =>
          if chr_eqb x c then lit_go w' (Some x) rest' (S pos) else None
      | [] => None
      end
  end.

Fixpoint rep_go (cl : cclass) (greedy : bool) (gs : list (nat * text))
    (k : mstate -> option mstate)
    (must : bool) (prev : option ascii) (rest : text) (pos : nat)
  : option mstate :=
  let here := if must then None else k (MState prev rest pos gs) in
  match rest with
  | x :: rest' =>
      if class_mem cl x then
        if greedy then
          match rep_go cl greedy gs k false (Some x) rest' (S pos) with
          | Some res => Some res
          | None => here
          end
        else
          match here with
          | Some res => Some res
          | None => rep_go cl greedy gs k false (Some x) rest' (S pos)
          end
      else here
  | [] => here
  end.

(** [rmatch r st k]: match [r] at [st] and go on with [k]; the first
    success in backtracking order. *)
Fixpoint rmatch (r : regex) (st : mstate) (k : mstate -> option mstate)
  : option mstate :=
  match r with
  | Eps => k st
  | Chr cl =>
      match m_rest st with
      | x :: rest' =>
          if class_mem cl x
          then k (MState (Some x) rest' (S (m_pos st)) (m_groups st))
          else None
      | [] => None
      end
  | Lit s =>
      match lit_go (T s) (m_prev st) (m_rest st) (m_pos st) with
      | Some (prev, rest, pos) => k (MState prev rest pos (m_groups st))
      | None => None
      end
  | Seq r1 r2 => rmatch r1 st (fun st' => rmatch r2 st' k)
  | Alt r1 r2 =>
      match rmatch r1 st k with
      | Some res => Some res
      | None => rmatch r2 st k
      end
  | Rep cl at_least_one greedy =>
      rep_go cl greedy (m_groups st) k at_least_one
             (m_prev st) (m_rest st) (m_pos st)
  | Opt r' =>
      match rmatch r' st k with
      | Some res => Some res
      | None => k st
      end
  | Group n r' =>
      rmatch r' st (fun st' =>
        k (MState (m_prev st') (m_rest st') (m_pos st')
             ((n, take (m_pos st' - m_pos st) (m_rest st)) :: m_groups st')))
  | WordBoundary => if at_boundary st then k st else None
  | EndOfText => match m_rest st with [] => k st | _ => None end
  end.

(** A match object: [start()], [end()], [group(0)] and the captures. *)
Record re_match : Type := ReMatch {
  m_start : nat;
  m_end : nat;
  m_group0 : text;
  m_caps : list (nat * text)
}.

Fixpoint assoc_group (n : nat) (gs : list (nat * text)) : text :=
  match gs with
  | (i, t) :: gs' => if i =? n then t else assoc_group n gs'
  | [] => []
  end.

(** [m.group(n)]; every group of the recorder's patterns takes part in
    every match. *)
Definition group (m : re_match) (n : nat) : text := assoc_group n (m_caps m).

Definition match_at (r : regex) (prev : option ascii) (rest : text) (pos : nat)
  : option re_match :=
  match rmatch r (MState prev rest pos []) Some with
  | Some st' =>
      Some (ReMatch pos (m_pos st') (take (m_pos st' - pos) rest) (m_groups st'))
  | None => None
  end.

(** [pattern.search]: the leftmost match. *)
Fixpoint search_from (r : regex) (prev : option ascii) (rest : text) (pos : nat)
  : option re_match :=
  match match_at r prev rest pos with
  | Some m => Some m
  | None =>
      match rest with
      | x :: rest' => search_from r (Some x) rest' (S pos)
      | [] => None
      end
  end.

Definition re_search (r : regex) (t : text) : option re_match :=
  search_from r None t 0.

(** [pattern.finditer]: the matches from left to right, none overlapping;
    [skip] is the number of characters still inside the previous match. *)
Fixpoint finditer_from (r : regex) (prev : option ascii) (rest : text)
    (pos skip : nat) : list re_match :=
  match skip with
  | S skip' =>
      match rest with
      | x :: rest' => finditer_from r (Some x) rest' (S pos) skip'
      | [] => []
      end
  | 0 =>
      match match_at r prev rest pos with
      | Some m =>
          m :: match rest with
               | x :: rest' =>
                   finditer_from r (Some x) rest' (S pos) (m_end m - pos - 1)
               | [] => []
               end
      | None =>
          match rest with
          | x :: rest' => finditer_from r (Some x) rest' (S pos) 0
          | [] => []
          end
      end
  end.

Definition re_finditer (r : regex) (t : text) : list re_match :=
  finditer_from r None t 0 0.

(** [re.fullmatch] as a truth value. *)
Definition re_fullmatch (r : regex) (t : text) : bool :=
  bool_decide (is_Some (match_at (Seq r EndOfText) None t 0)).

(** [text.find(ch, start)]; [None] stands for [-1]. *)
Fixpoint find_from (ch : ascii) (rest : text) (pos : nat) : option nat :=
  match rest with
  | x :: rest' => if chr_eqb x ch then Some pos else find_from ch rest' (S pos)
  | [] => None
  end.

Definition str_find (t : text) (ch : ascii) (start : nat) : option nat :=
  find_from ch (drop start t) start.

(** [t[i:j]] for indices within the text. *)
Definition slice (t : text) (i j : nat) : text := take (j - i) (drop i t).

(** ** The words a pattern can match

    [lang r w]: the word [w] is in the language of [r], the assertions
    [\b] and end-of-text read as the empty word.  Whatever the matcher
    consumes is such a word ([rmatch_sound]). *)
Fixpoint lang (r : regex) (w : text) : Prop :=
  match r with
  | Eps => w = []
  | Chr cl => exists x, w = [x] /\ class_mem cl x = true
  | Lit s => w = T s
  | Seq r1 r2 => exists w1 w2, w = w1 ++ w2 /\ lang r1 w1 /\ lang r2 w2
  | Alt r1 r2 => lang r1 w \/ lang r2 w
  | Rep cl at_least_one _ =>
      Forall (fun x => class_mem cl x = true) w
      /\ (at_least_one = true -> w <> [])
  | Opt r' => w = [] \/ lang r' w
  | Group _ r' => lang r' w
  | WordBoundary => w = []
  | EndOfText => w = []
  end.

(** ** The building blocks of the recorder's patterns *)

Definition ch (s : string) : cclass :=
  match s with String c _ => CChar c | EmptyString => CChar "000"%char end.

Definition upper : cclass := CRange "A"%char "Z"%char.
Definition lower : cclass := CRange "a"%char "z"%char.
Definition digit : cclass := CRange "0"%char "9"%char.
Definition letter : cclass := CUnion upper lower.                   (* [A-Za-z] *)
Definition ident_start : cclass := CUnion letter (ch "_").          (* [A-Za-z_] *)
Definition ident_char : cclass :=
  CUnion letter (CUnion digit (ch "_")).                            (* [A-Za-z0-9_] *)

Definition ws : regex := Rep CSpace false true.                     (* \s* *)
Definition ws1 : regex := Rep CSpace true true.                     (* \s+ *)
Definition quote : regex := Chr (CChar dquote).                     (* a double quote *)
Definition quoted : regex := Rep (CNot (CChar dquote)) true true.   (* a run of non-quotes *)
Definition digits1 : regex := Rep digit true true.                  (* [0-9]+ *)
Definition letters1 : regex := Rep letter true true.                (* [A-Za-z]+ *)
Definition arg : regex := Rep (CNot (ch ")")) true false.           (* [^\)]+? *)
Definition arg_nc : regex :=
  Rep (CNot (CUnion (ch ")") (ch ","))) true false.                 (* [^\),]+? *)
Definition bool_lit : regex := Alt (Lit "true") (Lit "false").      (* true|false *)
Definition identifier : regex :=
  Seq (Chr ident_start) (Rep ident_char false true).   (* [A-Za-z_][A-Za-z0-9_]* *)

(* ===================================================================== *)
(** * The recorder *)

(** [value_to_string]: Python's [repr] of the float. *)
Definition value_to_string (v : float) : string := float_repr v.

Definition parse_bool (token : text) : result string :=
  let token := py_strip token in
  if String.eqb (S_ token) "true" then ok "1"
  else if String.eqb (S_ token) "false" then ok "0"
  else raise (InvalidBool (S_ token)).

Definition mix_blend_mapping : list (string * string) :=
  [("Setup", "setup"); ("First", "first"); ("Replace", "replace"); ("Add", "add")].

Definition physics_mapping : list (string * string) :=
  [("None", "none"); ("Reset", "reset"); ("Update", "update"); ("Pose", "pose")].

Fixpoint mapping_get (k : string) (d : list (string * string)) : option string :=
  match d with
  | (k', v) :: d' => if String.eqb k k' then Some v else mapping_get k d'
  | [] => None
  end.

Definition parse_mix_blend (variant : text) : result string :=
  let v := S_ (py_strip variant) in
  match mapping_get v mix_blend_mapping with
  | None => raise (InvalidMixBlend v)
  | Some r => ok r
  end.

Definition parse_physics_mode (variant : text) : result string :=
  let v := S_ (py_strip variant) in
  match mapping_get v physics_mapping with
  | None => raise (InvalidPhysics v)
  | Some r => ok r
  end.

(** ** The patterns, in the order of the source *)

Definition mut_state : list regex := [Lit "&mut"; ws1; Lit "state"].
Definition mut_skeleton : list regex := [Lit "&mut"; ws1; Lit "skeleton"].
Definition comma : list regex := [ws; Lit ","; ws].
Definition call (name : string) : list regex := [Lit name; ws; Lit "("; ws].
Definition state_dot : list regex := [Lit "state"; ws; Lit "."; ws].
Definition dot : list regex := [Lit "."; ws].
Definition close : list regex := [ws; Lit ")"].
Definition quoted_group (n : nat) : list regex := [quote; Group n quoted; quote].

(* line 203 *)
Definition re_set_mix : regex :=
  cat ([Alt (cat (state_dot ++ call "data_mut" ++ [Lit ")"])) identifier; ws]
       ++ dot ++ call "set_mix"
       ++ quoted_group 1 ++ comma ++ quoted_group 2 ++ comma
       ++ [Group 3 arg] ++ close).
(* line 207 *)
Definition re_set_animation : regex :=
  cat (state_dot ++ call "set_animation"
       ++ [Group 1 digits1] ++ comma ++ quoted_group 2 ++ comma
       ++ [Group 3 bool_lit] ++ close).
(* line 211 *)
Definition re_add_animation : regex :=
  cat (state_dot ++ call "add_animation"
       ++ [Group 1 digits1] ++ comma ++ quoted_group 2 ++ comma
       ++ [Group 3 bool_lit] ++ comma ++ [Group 4 arg] ++ close).
(* line 221 *)
Definition re_set_empty_animation : regex :=
  cat (state_dot ++ call "set_empty_animation"
       ++ [Group 1 digits1] ++ comma ++ [Group 2 arg] ++ close).
(* line 225 *)
Definition re_add_empty_animation : regex :=
  cat (state_dot ++ call "add_empty_animation"
       ++ [Group 1 digits1] ++ comma ++ [Group 2 arg_nc] ++ comma
       ++ [Group 3 arg] ++ close).
(* line 234 *)
Definition re_set_skin_some : regex :=
  cat ([Lit "skeleton"; ws] ++ dot ++ call "set_skin" ++ call "Some"
       ++ quoted_group 1 ++ close ++ close).
(* line 238 *)
Definition re_set_skin_none : regex :=
  cat ([Lit "skeleton"; ws] ++ dot ++ call "set_skin" ++ [Lit "None"] ++ close).

(** The entry mutators: a method call whose first argument is [&mut state]. *)
Definition entry_call (name : string) (rest : list regex) : regex :=
  cat (dot ++ call name ++ mut_state ++ rest ++ close).

(* line 244 *)
Definition re_set_mix_blend : regex :=
  entry_call "set_mix_blend" (comma ++ [Lit "crate::MixBlend::"; Group 1 letters1]).
(* lines 248, 252, 256, 263, 270 *)
Definition re_entry_value (name : string) : regex :=
  entry_call name (comma ++ [Group 1 arg]).
(* lines 277, 281, 285 *)
Definition re_entry_flag (name : string) : regex :=
  entry_call name (comma ++ [Group 1 bool_lit]).
(* line 289 *)
Definition re_reset_rotation_directions : regex :=
  entry_call "reset_rotation_directions" [].

(* lines 295, 299 *)
Definition re_step (name : string) : regex :=
  cat ([WordBoundary] ++ call name ++ mut_state ++ comma ++ mut_skeleton
       ++ comma ++ [Group 1 arg] ++ close).
(* line 308 *)
Definition re_step_with_physics : regex :=
  cat ([WordBoundary] ++ call "step_with_physics" ++ mut_state ++ comma
       ++ mut_skeleton ++ comma ++ [Group 1 arg_nc] ++ comma
       ++ [Lit "crate::Physics::"; Group 2 letters1] ++ close).
(* line 319 *)
Definition re_state_update : regex :=
  cat ([WordBoundary] ++ state_dot ++ call "update" ++ [Group 1 arg] ++ close
       ++ [ws; Lit ";"]).

(* line 146 *)
Definition re_let : regex :=
  cat [WordBoundary; Lit "let"; ws1; Group 1 identifier; ws; Lit "="; ws;
       Group 2 (Rep (CNot (ch ";")) true true); Lit ";"].

(* line 343 *)
Definition loop_re : regex :=
  cat [Lit "for"; ws1; Lit "_"; ws1; Lit "in"; ws1; Lit "0..";
       Group 1 (Rep ident_char true true); ws; Lit "{"].

(* line 383 *)
Definition fn_re : regex :=
  cat [Lit "#"; ws; Lit "["; ws; Lit "test"; ws; Lit "]"; ws;
       Rep (CUnion CSpace (CNot CSpace)) false false;
       WordBoundary; Lit "fn"; ws1;
       Group 1 (Seq (Lit "oracle_") (Rep ident_char true true)); ws; Lit "("].

(** A path helper called on one string literal, with an optional trailing
    comma (lines 395, 408, 411). *)
Definition re_path_call (name : string) : regex :=
  cat (call name ++ quoted_group 1 ++ [ws; Opt (Seq (Lit ",") ws); Lit ")"]).

(* line 420 *)
Definition re_dump_pose : regex :=
  cat (call "dump_pose" ++ [Lit "&skeleton"; ws; Lit ","; ws;
       Rep (CNot (ch ",")) true true; Lit ","; ws]
       ++ call "Some" ++ quoted_group 1 ++ close ++ close).

Abbreviation const_env := (gmap string float).

Record Scenario : Type := {
  name : string;
  skeleton_rel : string;
  golden_file : string;
  golden_is_skel : bool;
  commands : list string;
  debug_slot : option string
}.

Definition scenario_key : Type := (string * bool * string)%type.

Definition key_of (s : Scenario) : scenario_key :=
  (golden_file s, golden_is_skel s, skeleton_rel s).

(** A Python [dict] keeps its keys in insertion order, and an assignment to
    a key that is present replaces the value where it stands. *)
Fixpoint dict_set {K V : Type} `{EqDecision K} (k : K) (v : V) (d : list (K * V))
  : list (K * V) :=
  match d with
  | [] => [(k, v)]
  | (k', v') :: d' =>
      if decide (k = k') then (k, v) :: d' else (k', v') :: dict_set k v d'
  end.

(** Lines 440 to 444 of [extract_scenarios]. *)
Definition dedup (scenarios : list Scenario) : list Scenario :=
  let unique :=
    foldl (fun d s => dict_set (key_of s) s d) ([] : list (scenario_key * Scenario))
          scenarios in
  map snd unique.

(** A stable insertion sort on the source offset, for
    [matches.sort(key=lambda x: x[0])]. *)
Fixpoint insert_by_offset (x : nat * list string) (l : list (nat * list string))
  : list (nat * list string) :=
  match l with
  | [] => [x]
  | y :: l' =>
      if fst x <=? fst y then x :: l else y :: insert_by_offset x l'
  end.

Definition sort_by_offset (l : list (nat * list string))
  : list (nat * list string) :=
  foldr insert_by_offset [] l.

(** The result of [subprocess.run] with the output captured as text. *)
Record completed_process : Type := {
  returncode : Z;
  stdout : text;
  stderr : text
}.

Definition newline : ascii := "010"%char.

Section Recorder.

(** [ast.parse(expr, mode="eval")], with the exception it raises. *)
Variable ast_parse : text -> result py_expr.

Definition safe_eval_f32 (expr : text) : result float :=
  let expr := py_strip (remove_underscores expr) in
  node ← ast_parse expr;
  eval_node (S_ expr) node.

Definition extract_const_env (body : text) : const_env :=
  foldl (fun (env : const_env) m =>
           let name := S_ (group m 1) in
           let expr := py_strip (group m 2) in
           match safe_eval_f32 expr with
           | inr v => <[name := v]> env
           | inl _ => env
           end)
        (∅ : const_env) (re_finditer re_let body).

Definition parse_value (token : text) (env : const_env) : result float :=
  let token := py_strip token in
  if re_fullmatch identifier token then
    match env !! S_ token with
    | None => raise (UnknownVariable (S_ token))
    | Some v => ok v
    end
  else safe_eval_f32 token.

Definition pattern : Type := (regex * (re_match -> result (list string)))%type.

(** The token builder shared by the calls that take one value. *)
Definition value_tokens (env : const_env) (pre : list string) (n : nat)
  : re_match -> result (list string) :=
  fun m => v ← parse_value (group m n) env; ok (pre ++ [value_to_string v]).

Definition flag_tokens (pre : list string) (n : nat)
  : re_match -> result (list string) :=
  fun m => b ← parse_bool (group m n); ok (pre ++ [b]).

Definition patterns (env : const_env) : list pattern :=
  [ (re_set_mix,
     fun m => v ← parse_value (group m 3) env;
              ok ["--mix"; S_ (group m 1); S_ (group m 2); value_to_string v]);
    (re_set_animation,
     fun m => b ← parse_bool (group m 3);
              ok ["--set"; S_ (group m 1); S_ (group m 2); b]);
    (re_add_animation,
     fun m => b ← parse_bool (group m 3);
              v ← parse_value (group m 4) env;
              ok ["--add"; S_ (group m 1); S_ (group m 2); b; value_to_string v]);
    (re_set_empty_animation,
     fun m => v ← parse_value (group m 2) env;
              ok ["--set-empty"; S_ (group m 1); value_to_string v]);
    (re_add_empty_animation,
     fun m => v ← parse_value (group m 2) env;
              w ← parse_value (group m 3) env;
              ok ["--add-empty"; S_ (group m 1);
                  value_to_string v; value_to_string w]);
    (re_set_skin_some, fun m => ok ["--set-skin"; S_ (group m 1)]);
    (re_set_skin_none, fun m => ok ["--set-skin"; "none"]);
    (re_set_mix_blend,
     fun m => b ← parse_mix_blend (group m 1); ok ["--entry-mix-blend"; b]);
    (re_entry_value "set_alpha", value_tokens env ["--entry-alpha"] 1);
    (re_entry_value "set_event_threshold",
     value_tokens env ["--entry-event-threshold"] 1);
    (re_entry_value "set_alpha_attachment_threshold",
     value_tokens env ["--entry-alpha-attachment-threshold"] 1);
    (re_entry_value "set_mix_attachment_threshold",
     value_tokens env ["--entry-mix-attachment-threshold"] 1);
    (re_entry_value "set_mix_draw_order_threshold",
     value_tokens env ["--entry-mix-draw-order-threshold"] 1);
    (re_entry_flag "set_hold_previous", flag_tokens ["--entry-hold-previous"] 1);
    (re_entry_flag "set_reverse", flag_tokens ["--entry-reverse"] 1);
    (re_entry_flag "set_shortest_rotation",
     flag_tokens ["--entry-shortest-rotation"] 1);
    (re_reset_rotation_directions,
     fun m => ok ["--entry-reset-rotation-directions"]);
    (re_step "step", value_tokens env ["--physics"; "none"; "--step"] 1);
    (re_step "step_physics",
     value_tokens env ["--physics"; "update"; "--step"] 1);
    (re_step_with_physics,
     fun m => p ← parse_physics_mode (group m 2);
              v ← parse_value (group m 1) env;
              ok ["--physics"; p; "--step"; value_to_string v]);
    (re_state_update, value_tokens env ["--physics"; "none"; "--step"] 1) ].

(** One turn of the inner loop: the match with its tokens, or the wrapped
    exception. *)
Definition compile_match (fn : re_match -> result (list string)) (m : re_match)
  : result (nat * list string) :=
  match fn m with
  | inr tokens => ok (m_start m, tokens)
  | inl e => raise (FailedToParse (m_start m) (S_ (m_group0 m)) e)
  end.

Fixpoint compile_all (fn : re_match -> result (list string))
    (ms : list re_match) : result (list (nat * list string)) :=
  match ms with
  | [] => ok []
  | m :: ms' =>
      x ← compile_match fn m; xs ← compile_all fn ms'; ok (x :: xs)
  end.

(** The two nested loops over the table and over [finditer]. *)
Fixpoint pool_matches (pats : list pattern) (body : text)
  : result (list (nat * list string)) :=
  match pats with
  | [] => ok []
  | (pat, fn) :: pats' =>
      xs ← compile_all fn (re_finditer pat body);
      ys ← pool_matches pats' body;
      ok (xs ++ ys)
  end.

(** [parse_commands_no_loops] over a given table. *)
Definition compile_with (pats : list pattern) (body : text)
  : result (list string) :=
  matches ← pool_matches pats body;
  ok (concat (map snd (sort_by_offset matches))).

Definition parse_commands_no_loops (body : text) (env : const_env)
  : result (list string) :=
  compile_with (patterns env) body.

(** [parse_commands] with the environment already chosen.  The recursion
    is on texts strictly shorter than [body]; [fuel] bounds its depth, and
    [None] says that the bound was reached. *)
Fixpoint parse_commands_fuel (fuel : nat) (body : text) (env : const_env)
  : fueled (list string) :=
  match fuel with
  | 0 => None
  | S fuel' =>
      match re_search loop_re body with
      | None => Some (parse_commands_no_loops body env)
      | Some m =>
          let start := m_start m in
          match str_find body lbrace (m_end m - 1) with
          | None => Some (raise UnbalancedBracesSlow)
              (* not reached: the match ends with the brace, see
                 [loop_header_brace] *)
          | Some open_brace =>
              close_brace ←? Some (find_matching_brace_slow body open_brace);
              let before := take start body in
              let inside := slice body (open_brace + 1) close_brace in
              let after := drop (close_brace + 1) body in
              let repeat_token := group m 1 in
              v ←? Some (parse_value repeat_token env);
              repeat ←? Some (int_of_float v);
              if (repeat <? 0)%Z then Some (raise (InvalidLoopRepeat repeat))
              else
                cmds_before ←? parse_commands_fuel fuel' before env;
                inner_cmds ←? parse_commands_fuel fuel' inside env;
                cmds_after ←? parse_commands_fuel fuel' after env;
                Some (ok (cmds_before
                            ++ concat (replicate (Z.to_nat repeat) inner_cmds)
                            ++ cmds_after))
          end
      end
  end.

(** The fuel given here is always enough ([parse_commands_fuel_enough]), so
    the last branch is never taken. *)
Definition parse_commands (body : text) (env : option const_env)
  : result (list string) :=
  let env :=
    match env with
    | None => extract_const_env body
    | Some env => env
    end in
  match parse_commands_fuel (S (length body)) body env with
  | Some r => r
  | None => raise FuelExhausted
  end.

(** The body of the loop of [extract_scenarios] for one match of [fn_re]:
    [None] where the source says [continue]. *)
Definition scan_test (text_ : text) (m : re_match) : result (option Scenario) :=
  let fn_start := m_start m in
  let name_ := group m 1 in
  match str_find text_ lbrace (m_end m) with
  | None => ok None
  | Some brace_open =>
      brace_close ← find_matching_brace_slow text_ brace_open;
      let body := slice text_ (brace_open + 1) brace_close in
      let skel_match :=
        match re_search (re_path_call "example_json_path") body with
        | Some sm => Some sm
        | None =>
            re_search (re_path_call "example_json_path")
                      (slice text_ fn_start brace_close)
        end in
      match skel_match with
      | None => ok None
      | Some sm =>
          let skeleton_rel_ := group sm 1 in
          let '(golden_match, golden_is_skel_) :=
            match re_search (re_path_call "golden_path") body with
            | Some gm => (Some gm, false)
            | None =>
                match re_search (re_path_call "golden_skel_path") body with
                | Some gm => (Some gm, true)
                | None => (None, false)
                end
            end in
          match golden_match with
          | None => ok None
          | Some gm =>
              let golden_file_ := group gm 1 in
              let debug_slot_ :=
                match re_search re_dump_pose body with
                | Some dbg => Some (S_ (group dbg 1))
                | None => None
                end in
              cmds ← parse_commands body None;
              let cmds :=
                match debug_slot_ with
                | Some (String _ _ as slot) =>
                    cmds ++ ["--dump-slot-vertices"; slot]
                | _ => cmds
                end in
              ok (Some {| name := S_ name_;
                          skeleton_rel := S_ skeleton_rel_;
                          golden_file := S_ golden_file_;
                          golden_is_skel := golden_is_skel_;
                          commands := cmds;
                          debug_slot := debug_slot_ |})
          end
      end
  end.

(** The loop over the test functions: the scenarios appended so far. *)
Fixpoint collect_scenarios (text_ : text) (ms : list re_match)
  : result (list Scenario) :=
  match ms with
  | [] => ok []
  | m :: ms' =>
      o ← scan_test text_ m;
      rest ← collect_scenarios text_ ms';
      ok (match o with Some s => s :: rest | None => rest end)
  end.

(** [extract_scenarios] on the text read from the corpus. *)
Definition extract_scenarios (text_ : text) : result (list Scenario) :=
  scenarios ← collect_scenarios text_ (re_finditer fn_re text_);
  ok (dedup scenarios).

(** [json.loads], whose value the recorder drops. *)
Variable json_loads : text -> result unit.

(** [run_oracle] on the completed process that [subprocess.run] returned. *)
Definition run_oracle (proc : completed_process) : result text :=
  if negb (returncode proc =? 0)%Z then raise (OracleFailed (returncode proc))
  else
    let out := py_strip (stdout proc) in
    _ ← json_loads out;
    ok (out ++ [newline]).

End Recorder.

(** ** Sample inputs *)

(** The body of the end-to-end example: a constant, a set-animation call on
    track 0 and a generic update call. *)
Definition sample_body : text :=
  rust "let dt = 1.0 / 60.0; state.set_animation(0, 'run', true); state.update(dt);".

(** The evaluator as the specification words it: the supported forms are
    number literals, names resolved in the environment at any depth, unary
    plus and minus, and the four binary operators. *)
Fixpoint spec_eval_node (env : const_env) (expr : string) (n : py_expr)
  : result float :=
  match n with
  | Expression body => spec_eval_node env expr body
  | Constant (CInt z) => float_of_Z z
  | Constant (CBool b) => ok (if b then PrimFloat.one else PrimFloat.zero)
  | Constant (CFloat f) => ok f
  | Name id =>
      match env !! id with
      | Some v => ok v
      | None => raise (UnknownVariable id)
      end
  | UnaryOp UAdd operand => v ← spec_eval_node env expr operand; ok v
  | UnaryOp USub operand =>
      v ← spec_eval_node env expr operand; ok (PrimFloat.opp v)
  | BinOp left_ Add right_ =>
      a ← spec_eval_node env expr left_; b ← spec_eval_node env expr right_;
      ok (PrimFloat.add a b)
  | BinOp left_ Sub right_ =>
      a ← spec_eval_node env expr left_; b ← spec_eval_node env expr right_;
      ok (PrimFloat.sub a b)
  | BinOp left_ Mult right_ =>
      a ← spec_eval_node env expr left_; b ← spec_eval_node env expr right_;
      ok (PrimFloat.mul a b)
  | BinOp left_ Div right_ =>
      a ← spec_eval_node env expr left_; b ← spec_eval_node env expr right_;
      float_div a b
  | _ => raise (UnsupportedExpr expr)
  end.

(** The node is one of the forms [eval_node] has a case for. *)
Definition supported_root (n : py_expr) : bool :=
  match n with
  | Expression _ => true
  | Constant (CInt _) | Constant (CFloat _) | Constant (CBool _) => true
  | UnaryOp UAdd _ | UnaryOp USub _ => true
  | BinOp _ Add _ | BinOp _ Sub _ | BinOp _ Mult _ | BinOp _ Div _ => true
  | _ => false
  end.

(** Every node of the expression is one of those forms: no name, no call. *)
Fixpoint arithmetic (n : py_expr) : bool :=
  supported_root n
  && match n with
     | Expression body => arithmetic body
     | UnaryOp _ operand => arithmetic operand
     | BinOp left_ _ right_ => arithmetic left_ && arithmetic right_
     | _ => true
     end.

(** An environment that knows [dt]. *)
Definition dt_env : const_env := <["dt" := 2%float]> ∅.

(** The completed process of an oracle that prints an empty line, the
    document and a line break. *)
Definition padded_process : completed_process :=
  {| returncode := 0; stdout := [newline] ++ T "{}" ++ [newline]; stderr := [] |}.

(** A corpus of one test that names a golden file and no skeleton. *)
Definition skipped_corpus : text :=
  rust "#[test] fn oracle_c() { let g = golden_path('c.json'); state.update(nope); }".

Definition skipped_match : re_match :=
  default (ReMatch 0 0 [] []) (head (re_finditer fn_re skipped_corpus)).

(** A body with one repetition construct between two calls. *)
Definition loop_body : text :=
  rust "state.update(0.5); for _ in 0..2 { state.update(0.25); } state.update(1.0);".

Definition loop_match : re_match :=
  default (ReMatch 0 0 [] []) (re_search loop_re loop_body).

(* ===================================================================== *)
(** * Notions used in the statements *)

(** [hits v d j]: scanning [v] from depth [d], the depth is back to zero
    right after a closing brace at position [j]. *)
Definition hits (v : list (option ascii)) (d : Z) (j : nat) : Prop :=
  is_close (default None (v !! j)) = true /\ (d + nesting v (S j) = 0)%Z.

Section BindingNotions.

Variable ast_parse : text -> result py_expr.

(** The match [m] of [re_let] is a binding of [name] whose right-hand side
    evaluates to [v]. *)
Definition binds (m : re_match) (name : string) (v : float) : Prop :=
  S_ (group m 1) = name
  /\ safe_eval_f32 ast_parse (py_strip (group m 2)) = inr v.

(** [name] is bound to [v] by a match of [ms] and by no later one. *)
Definition last_binding (ms : list re_match) (name : string) (v : float) : Prop :=
  exists ms1 m ms2,
    ms = ms1 ++ m :: ms2 /\ binds m name v
    /\ forall m', m' ∈ ms2 -> forall v', ~ binds m' name v'.

Definition unbound (ms : list re_match) (name : string) : Prop :=
  forall m', m' ∈ ms -> forall v', ~ binds m' name v'.

End BindingNotions.

(** [s] is the last scenario of [scs] with its key. *)
Definition last_with_key (scs : list Scenario) (s : Scenario) : Prop :=
  exists pre post,
    scs = pre ++ s :: post /\ forall s', s' ∈ post -> key_of s' <> key_of s.

(** The scenarios that the loop of [extract_scenarios] appends, in scan
    order: one for each test function that is not skipped. *)
Definition scanned_scenarios (ast_parse : text -> result py_expr)
    (text_ : text) : list Scenario :=
  omap (fun m => match scan_test ast_parse text_ m with
                 | inr o => o
                 | inl _ => None
                 end) (re_finditer fn_re text_).

(** The order of the pooled matches: by source offset. *)
Definition offset_le (x y : nat * list string) : Prop := fst x <= fst y.
Definition offset_lt (x y : nat * list string) : Prop := fst x < fst y.

(** [classify s] reads the head of [s] the way every pattern of the table
    starts: an optional receiver word, a dot and a method word, or a bare
    function word.  It names the one row of the table that can match at the
    head of [s] ([patterns_rows]). *)
Definition is_idc (x : ascii) : bool := class_mem ident_char x.









(** [stops p s]: [s] is empty or starts with a character outside [p]. *)
Definition stops (p : ascii -> bool) (s : text) : Prop :=
  match s with
  | [] => True
  | c :: _ => p c = false
  end.

Definition all_in (p : ascii -> bool) (w : text) : Prop :=
  Forall (fun x => p x = true) w.



(** The keys of a list in the order of their first occurrence. *)
Definition first_occurrences {K : Type} `{EqDecision K} (l : list K) : list K :=
  foldl (fun acc k => if decide (k ∈ acc) then acc else acc ++ [k]) [] l.

(** A body whose loop count is a name that is bound nowhere. *)
Definition unbound_loop_body : text :=
  rust "state.update(nope); for _ in 0..n { state.update(0.5); }".

Definition unbound_loop_match : re_match :=
  default (ReMatch 0 0 [] []) (re_search loop_re unbound_loop_body).

(** [captures r n t]: group [n] of [r] encloses a sub-pattern of which [t]
    is a word. *)
Fixpoint captures (r : regex) (n : nat) (t : text) : Prop :=
  match r with
  | Seq r1 r2 | Alt r1 r2 => captures r1 n t \/ captures r2 n t
  | Opt r' => captures r' n t
  | Group i r' => (i = n /\ lang r' t) \/ captures r' n t
  | _ => False
  end.

(** Group [n] takes part in every match of [r]. *)
Fixpoint always_captures (r : regex) (n : nat) : bool :=
  match r with
  | Seq r1 r2 => always_captures r1 n || always_captures r2 n
  | Alt r1 r2 => always_captures r1 n && always_captures r2 n
  | Group i r' => (i =? n) || always_captures r' n
  | _ => false
  end.

(** [m] is a match object that the matcher built for [r]. *)
Definition match_of (r : regex) (m : re_match) : Prop :=
  exists prev rest pos, match_at r prev rest pos = Some m.

(** A path between double quotes: not empty, and free of double quotes. *)
Definition quoted_word (s : string) : Prop :=
  exists t, s = S_ t /\ t <> [] /\ dquote ∉ t.

(** A corpus of one test that dumps the vertices of a slot. *)
Definition slot_corpus : text :=
  rust "#[test] fn oracle_slot() { let p = example_json_path('spineboy/export/spineboy-pro.json'); state.update(0.5); let got = dump_pose(&skeleton, 0.5, Some('gun')); assert_eq!(got, golden_skel_path('spineboy_gun.json')); }".

Definition slot_scenario : Scenario :=
  {| name := "oracle_slot";
     skeleton_rel := "spineboy/export/spineboy-pro.json";
     golden_file := "spineboy_gun.json";
     golden_is_skel := true;
     commands := ["--physics"; "none"; "--step"; "0.5";
                  "--dump-slot-vertices"; "gun"];
     debug_slot := Some "gun" |}.

(* ===================================================================== *)
(** * The provenance files

    [load_upstream_commit] and [update_golden_source] work on the lines of
    a text file.  The functions below take the text that [read_text]
    returned ([None] when [is_file()] is false) and return the text handed
    to [write_text]; the clock is the argument [now]. *)

(** The line boundaries of [str.splitlines] below code point 256. *)
Definition is_linebreak (c : ascii) : bool :=
  in_range 10 13 c || in_range 28 30 c || (code c =? 133).

(** [str.splitlines()]: [cur] holds the characters of the current line,
    last first; a carriage return and a line feed in a row are one
    boundary, and no empty line is reported after the last boundary. *)
Fixpoint splitlines_go (s cur : text) : list text :=
  match s with
  | [] => match cur with [] => [] | _ => [rev cur] end
  | c :: s' =>
      if is_linebreak c then
        rev cur ::
          match s' with
          | c' :: s'' =>
              if (code c =? 13) && (code c' =? 10) then splitlines_go s'' []
              else splitlines_go s' []
          | [] => []
          end
      else splitlines_go s' (c :: cur)
  end.

Definition splitlines (s : text) : list text := splitlines_go s [].

(** [sep.join(parts)] *)
Fixpoint join (sep : text) (parts : list text) : text :=
  match parts with
  | [] => []
  | [p] => p
  | p :: parts' => p ++ sep ++ join sep parts'
  end.

(** [s.startswith(prefix)] *)
Fixpoint startswith (s prefix : text) {struct prefix} : bool :=
  match prefix with
  | [] => true
  | p :: prefix' =>
      match s with
      | c :: s' => chr_eqb c p && startswith s' prefix'
      | [] => false
      end
  end.

(** [s.split(sep, 1)]: the text before the first [sep] and the text after
    it, or [s] alone. *)
Fixpoint split_once (s : text) (sep : ascii) : list text :=
  match s with
  | [] => [[]]
  | c :: s' =>
      if chr_eqb c sep then [[]; s']
      else match split_once s' sep with
           | before :: parts => (c :: before) :: parts
           | [] => [[c]]
           end
  end.

(** The loop of [load_upstream_commit] over the lines.  The index 1 of the
    split is in range, since the line starts with the prefix that ends with
    the colon ([split_once_commit]). *)
Fixpoint first_commit (lines : list text) : option text :=
  match lines with
  | [] => None
  | line :: lines' =>
      if startswith line (T "Commit:") then
        Some (py_strip (nth 1 (split_once line ":"%char) []))
      else first_commit lines'
  end.

Definition load_upstream_commit (file : option text) : option text :=
  match file with
  | None => None
  | Some content => first_commit (splitlines content)
  end.

(** The nested [upsert] of [update_golden_source], on the list [lines]. *)
Fixpoint upsert (prefix value : text) (lines : list text) : list text :=
  match lines with
  | [] => [prefix ++ value]
  | line :: lines' =>
      if startswith line prefix then (prefix ++ value) :: lines'
      else line :: upsert prefix value lines'
  end.

Definition default_source_lines : list text :=
  [T "Source: https://github.com/EsotericSoftware/spine-runtimes";
   T "Branch: 4.3-beta"].

Definition source_lines (file : option text) : list text :=
  match file with
  | Some content => splitlines content
  | None => default_source_lines
  end.

(** [if commit:] holds for a string that is not empty. *)
Definition truthy (commit : option text) : bool :=
  match commit with
  | Some (_ :: _) => true
  | _ => false
  end.

Definition updated_lines (now status : text) (commit : option text)
    (lines : list text) : list text :=
  let lines :=
    match commit with
    | Some (c :: cs) => upsert (T "TargetCommit: ") (c :: cs) lines
    | _ => lines
    end in
  let lines := upsert (T "RecordedAtUTC: ") now lines in
  upsert (T "Status: ") status lines.

(** [update_golden_source]: the text written to the golden [SOURCE.txt],
    from the text found there. *)
Definition update_golden_source (now status : text) (commit : option text)
    (file : option text) : text :=
  join [newline] (updated_lines now status commit (source_lines file))
  ++ [newline].

(** The value of a field: what follows [prefix] on the first line that
    starts with it. *)
Definition field (prefix : text) (lines : list text) : option text :=
  drop (length prefix) <$> head (filter (fun l => startswith l prefix = true) lines).

Definition single_line (s : text) : Prop :=
  Forall (fun c => is_linebreak c = false) s.

Definition provenance_prefixes : list text :=
  [T "TargetCommit: "; T "RecordedAtUTC: "; T "Status: "].

(** A line that none of the three upserts can touch. *)
Definition foreign_line (l : text) : bool :=
  forallb (fun p => negb (startswith l p)) provenance_prefixes.

(** No line starts with both [p] and [q]. *)
Definition apart (p q : text) : Prop :=
  forall l, startswith l p = true -> startswith l q = false.


(** An upstream [SOURCE.txt] and a golden one written by an earlier run. *)
Definition upstream_source : text :=
  T "Source: https://github.com/EsotericSoftware/spine-runtimes
Branch: 4.3-beta
Commit:  0123abcd 
".

Definition old_golden_source : text :=
  T "Source: https://github.com/EsotericSoftware/spine-runtimes
Branch: 4.3-beta
Status: STALE (recording in progress)
Note: kept by hand
".

(** The lines read back after recording again over [old_golden_source]. *)
Definition rerecorded_lines : list text :=
  splitlines (update_golden_source (T "2026-01-02T03:04:05Z") (T "OK")
                (Some (T "0123abcd")) (Some old_golden_source)).

(* ===================================================================== *)
(** * The command line run

    [main] from the sort of the scenarios on (lines 516 to 592).  What the
    run does to the world is kept as the list of its actions, in order; the
    answers of the world to the run (the file system, the oracle process)
    are functions of the actions done so far. *)

(** The key of [scenarios.sort]: a tuple, compared component by
    component. *)
Definition sort_key (s : Scenario) : bool * string * string :=
  (golden_is_skel s, golden_file s, skeleton_rel s).

Definition key_compare (a b : bool * string * string) : comparison :=
  let '(a1, a2, a3) := a in
  let '(b1, b2, b3) := b in
  match Bool.compare a1 b1 with
  | Eq => match String.compare a2 b2 with
          | Eq => String.compare a3 b3
          | c => c
          end
  | c => c
  end.

(** A stable insertion sort for [list.sort], which compares with [<]
    only. *)
Fixpoint insert_by_key (x : Scenario) (l : list Scenario) : list Scenario :=
  match l with
  | [] => [x]
  | y :: l' =>
      match key_compare (sort_key y) (sort_key x) with
      | Lt => y :: insert_by_key x l'
      | _ => x :: l
      end
  end.

Definition sort_scenarios (l : list Scenario) : list Scenario :=
  foldr insert_by_key [] l.

Inductive formats_choice : Type := FormatJson | FormatSkel | FormatAll.

(** The parsed command line.  [only] is the search of the compiled
    [--only] pattern as a truth value, [None] when the option is empty. *)
Record arguments : Type := {
  only : option (string -> bool);
  formats : formats_choice;
  dry_run : bool;
  limit : Z;
  keep_going : bool
}.

(** The tests of the selection loop that end with [continue]. *)
Definition wanted (args : arguments) (s : Scenario) : bool :=
  negb match formats args with
       | FormatJson => golden_is_skel s
       | FormatSkel => negb (golden_is_skel s)
       | FormatAll => false
       end
  && match only args with
     | Some search => search (golden_file s)
     | None => true
     end.

(** The selection loop, [selected] being the list built so far. *)
Fixpoint select_loop (args : arguments) (scenarios selected : list Scenario)
  : list Scenario :=
  match scenarios with
  | [] => selected
  | s :: rest =>
      if match formats args with
         | FormatJson => golden_is_skel s
         | _ => false
         end
      then select_loop args rest selected
      else if match formats args with
              | FormatSkel => negb (golden_is_skel s)
              | _ => false
              end
      then select_loop args rest selected
      else if match only args with
              | Some search => negb (search (golden_file s))
              | None => false
              end
      then select_loop args rest selected
      else
        let selected := selected ++ [s] in
        if negb (limit args =? 0)%Z
           && (limit args <=? Z.of_nat (length selected))%Z
        then selected
        else select_loop args rest selected
  end.

(** Lines 516 to 529: the sort and the selection. *)
Definition select_scenarios (args : arguments) (scenarios : list Scenario)
  : list Scenario :=
  select_loop args (sort_scenarios scenarios) [].

(** What the handler of the recording loop catches. *)
Inductive attempt_error : Type :=
| RunRaised                    (* an exception of [subprocess.run] *)
| OracleRaised (e : exn)       (* raised by [run_oracle] after the process *)
| WriteRaised.                 (* an exception of [write_text] *)

(** The lines printed. *)
Inductive message : Type :=
| NoScenariosSelected
| SkipMissingSkeleton (skeleton_rel : string)
| SkipNoAtlas (skeleton_rel : string)
| DryLine (golden_is_skel : bool) (golden_file skeleton_rel : string)
| FailLine (golden_file skeleton_rel : string) (err : attempt_error)
| DoneLine (ok failed total : nat).

(** The actions of the run on the world; one that raised is listed
    too. *)
Inductive action : Type :=
| Output (m : message)
| Mkdir (golden_is_skel : bool) (golden_file : string)
| RunOracle (atlas skeleton_rel : string) (commands : list string)
| WriteGolden (golden_is_skel : bool) (golden_file : string) (payload : text)
| UpdateSource (status : string) (commit : option text).

(** The answers of the world, given the actions done so far. *)
Record world : Type := {
  (* [skel_path.is_file()] *)
  skeleton_is_file : list action -> string -> bool;
  (* [iter_atlas_candidates(export_dir)] for the directory of the skeleton *)
  atlas_candidates : list action -> string -> list string;
  (* whether [out_path.relative_to(ROOT_DIR)] returns *)
  relative_to_root : bool -> string -> bool;
  (* whether [out_path.parent.mkdir] returns *)
  mkdir_returns : list action -> bool -> string -> bool;
  (* [subprocess.run]: the completed process, or [None] when it raises *)
  subprocess_run :
    list action -> string -> string -> list string -> option completed_process;
  (* whether [out_path.write_text] returns *)
  write_text_returns : list action -> bool -> string -> text -> bool;
  (* whether [update_golden_source] returns *)
  update_golden_source_returns : list action -> bool
}.

(** How the run ends: [main] returns a code, or an exception leaves it. *)
Inductive outcome : Type := Exit (code : Z) | Uncaught.

Record run_end : Type := {
  trace : list action;
  ok_count : nat;
  failed_count : nat;
  ending : outcome
}.

Section Run.

Variable json_loads : text -> result unit.
Variable w : world.
Variable args : arguments.
Variable commit : option text.

(** The loop over the atlas candidates of one scenario: the actions, the
    value of [last_err] and whether the loop ended with [break]. *)
Fixpoint try_atlases (s : Scenario) (atlases : list string)
    (h : list action) (last_err : option attempt_error)
  : list action * option attempt_error * bool :=
  match atlases with
  | [] => (h, last_err, false)
  | atlas :: rest =>
      let h1 := h ++ [RunOracle atlas (skeleton_rel s) (commands s)] in
      match subprocess_run w h atlas (skeleton_rel s) (commands s) with
      | None => try_atlases s rest h1 (Some RunRaised)
      | Some proc =>
          match run_oracle json_loads proc with
          | inl e => try_atlases s rest h1 (Some (OracleRaised e))
          | inr payload =>
              let h2 :=
                h1 ++ [WriteGolden (golden_is_skel s) (golden_file s) payload] in
              if write_text_returns w h1 (golden_is_skel s) (golden_file s)
                                    payload
              then (h2, None, true)
              else try_atlases s rest h2 (Some WriteRaised)
          end
      end
  end.

Definition exit_code (failed : nat) : Z := if failed =? 0 then 0%Z else 2%Z.

Definition final_status (failed : nat) : string :=
  if failed =? 0 then "OK" else "STALE (recording failed)".

(** Lines 587 to 592. *)
Definition finish (total : nat) (h : list action) (ok failed : nat) : run_end :=
  if dry_run args then
    {| trace := h ++ [Output (DoneLine ok failed total)];
       ok_count := ok; failed_count := failed;
       ending := Exit (exit_code failed) |}
  else if update_golden_source_returns w h then
    {| trace := h ++ [UpdateSource (final_status failed) commit;
                      Output (DoneLine ok failed total)];
       ok_count := ok; failed_count := failed;
       ending := Exit (exit_code failed) |}
  else
    {| trace := h ++ [UpdateSource (final_status failed) commit];
       ok_count := ok; failed_count := failed;
       ending := Uncaught |}.

(** The recording loop (lines 541 to 585). *)
Fixpoint record_loop (total : nat) (selected : list Scenario)
    (h : list action) (ok failed : nat) : run_end :=
  match selected with
  | [] => finish total h ok failed
  | s :: rest =>
      if negb (skeleton_is_file w h (skeleton_rel s)) then
        record_loop total rest
          (h ++ [Output (SkipMissingSkeleton (skeleton_rel s))]) ok failed
      else
        match atlas_candidates w h (skeleton_rel s) with
        | [] =>
            record_loop total rest
              (h ++ [Output (SkipNoAtlas (skeleton_rel s))]) ok failed
        | (_ :: _) as atlases =>
            if dry_run args then
              if relative_to_root w (golden_is_skel s) (golden_file s) then
                record_loop total rest
                  (h ++ [Output (DryLine (golden_is_skel s) (golden_file s)
                                         (skeleton_rel s))])
                  (S ok) failed
              else
                {| trace := h; ok_count := ok; failed_count := failed;
                   ending := Uncaught |}
            else
              let h1 := h ++ [Mkdir (golden_is_skel s) (golden_file s)] in
              if mkdir_returns w h (golden_is_skel s) (golden_file s) then
                let '(h2, last_err, wrote) := try_atlases s atlases h1 None in
                let ok := if wrote then S ok else ok in
                match last_err with
                | None => record_loop total rest h2 ok failed
                | Some err =>
                    let failed := S failed in
                    let h3 :=
                      h2 ++ [Output (FailLine (golden_file s) (skeleton_rel s)
                                              err)] in
                    if keep_going args then record_loop total rest h3 ok failed
                    else
                      {| trace :=
                           h3 ++ [UpdateSource "STALE (recording failed)" commit];
                         ok_count := ok; failed_count := failed;
                         ending :=
                           if update_golden_source_returns w h3 then Exit 2
                           else Uncaught |}
                end
              else
                {| trace := h1; ok_count := ok; failed_count := failed;
                   ending := Uncaught |}
        end
  end.

(** Lines 531 to 592, on the scenarios selected. *)
Definition record_selected (selected : list Scenario) : run_end :=
  match selected with
  | [] =>
      {| trace := [Output NoScenariosSelected];
         ok_count := 0; failed_count := 0; ending := Exit 0 |}
  | _ :: _ =>
      if dry_run args then record_loop (length selected) selected [] 0 0
      else if update_golden_source_returns w [] then
        record_loop (length selected) selected
          [UpdateSource "STALE (recording in progress)" commit] 0 0
      else
        {| trace := [UpdateSource "STALE (recording in progress)" commit];
           ok_count := 0; failed_count := 0; ending := Uncaught |}
  end.

End Run.

(** [main] from line 516 on, given the scenarios that [extract_scenarios]
    returned and the text of the upstream [SOURCE.txt]. *)
Definition main (json_loads : text -> result unit) (w : world)
    (args : arguments) (upstream : option text) (scenarios : list Scenario)
  : run_end :=
  record_selected json_loads w args (load_upstream_commit upstream)
    (select_scenarios args scenarios).

(** ** Notions about runs *)

Definition is_output (a : action) : bool :=
  match a with Output _ => true | _ => false end.

Definition is_update (a : action) : bool :=
  match a with UpdateSource _ _ => true | _ => false end.

(** The payload of a write is the validated output of an oracle process
    that ended with code 0. *)
Definition validated (json_loads : text -> result unit) (payload : text) : Prop :=
  exists proc,
    returncode proc = 0%Z
    /\ json_loads (py_strip (stdout proc)) = inr tt
    /\ payload = py_strip (stdout proc) ++ [newline].

Definition key_lt (a b : Scenario) : Prop :=
  key_compare (sort_key a) (sort_key b) = Lt.

Definition key_le (a b : Scenario) : Prop :=
  key_compare (sort_key b) (sort_key a) <> Lt.

(** The atlases of the oracle runs among [acts], in order. *)
Definition runs_of (acts : list action) : list string :=
  omap (fun a => match a with
                 | RunOracle atlas _ _ => Some atlas
                 | _ => None
                 end) acts.

Definition is_attempt (a : action) : bool :=
  match a with
  | RunOracle _ _ _ | WriteGolden _ _ _ => true
  | _ => false
  end.

(** A write among the actions carries a validated payload and goes to the
    golden file of one of the scenarios [selected]. *)
Definition golden_write (json_loads : text -> result unit)
    (selected : list Scenario) (a : action) : Prop :=
  match a with
  | WriteGolden b g payload =>
      validated json_loads payload
      /\ exists s, s ∈ selected /\ golden_is_skel s = b /\ golden_file s = g
  | _ => True
  end.

(** What holds of the end [r] of the recording loop started on [selected]
    after the actions [h] with the counters [ok] and [failed]. *)
Definition run_invariant (json_loads : text -> result unit) (args : arguments)
    (commit : option text) (selected : list Scenario) (h : list action)
    (ok failed : nat) (r : run_end) : Prop :=
  exists acts,
    trace r = h ++ acts
    /\ Forall (golden_write json_loads selected) acts
    /\ ok <= ok_count r /\ failed <= failed_count r
    /\ ok_count r + failed_count r <= ok + failed + length selected
    /\ (forall c, ending r = Exit c -> c = exit_code (failed_count r))
    /\ (dry_run args = true ->
        Forall (fun a => is_output a = true) acts /\ failed_count r = failed)
    /\ (keep_going args = false -> failed_count r <= S failed)
    /\ (dry_run args = false ->
        forall c, ending r = Exit c ->
        exists mid tail,
          acts = mid ++ UpdateSource (final_status (failed_count r)) commit :: tail
          /\ Forall (fun a => is_update a = false) mid
          /\ Forall (fun a => is_output a = true) tail).

(** ** A sample world

    Every skeleton is there with the two atlases [a.atlas] and [b.atlas];
    the oracle fails on the first atlas and prints an object on the
    second; every file operation returns. *)
Definition sample_process (atlas : string) : completed_process :=
  if String.eqb atlas "a.atlas"
  then {| returncode := 1; stdout := []; stderr := T "no such region" |}
  else {| returncode := 0; stdout := T " {}
"; stderr := [] |}.

Definition sample_world : world :=
  {| skeleton_is_file := fun _ _ => true;
     atlas_candidates := fun _ _ => ["a.atlas"; "b.atlas"];
     relative_to_root := fun _ _ => true;
     mkdir_returns := fun _ _ _ => true;
     subprocess_run := fun _ atlas _ _ => Some (sample_process atlas);
     write_text_returns := fun _ _ _ _ => true;
     update_golden_source_returns := fun _ => true |}.

(** A world where the oracle fails on every atlas. *)
Definition failing_world : world :=
  {| skeleton_is_file := fun _ _ => true;
     atlas_candidates := fun _ _ => ["a.atlas"];
     relative_to_root := fun _ _ => true;
     mkdir_returns := fun _ _ _ => true;
     subprocess_run := fun _ atlas _ _ => Some (sample_process "a.atlas");
     write_text_returns := fun _ _ _ _ => true;
     update_golden_source_returns := fun _ => true |}.

Definition sample_json_loads (s : text) : result unit :=
  match s with
  | [] => inl JSONDecodeError
  | _ => inr tt
  end.

Definition sample_args (dry keep : bool) (lim : Z) : arguments :=
  {| only := None; formats := FormatAll; dry_run := dry; limit := lim;
     keep_going := keep |}.

Definition sample_scenarios : list Scenario :=
  [ {| name := "oracle_b"; skeleton_rel := "b/b.skel"; golden_file := "b.json";
       golden_is_skel := true; commands := ["--step"; "0.5"];
       debug_slot := None |};
    {| name := "oracle_a"; skeleton_rel := "a/a.json"; golden_file := "a.json";
       golden_is_skel := false; commands := ["--set"; "0"; "run"; "1"];
       debug_slot := None |} ].

(** A dry run and a run in the world where the oracle fails. *)
Definition dry_sample_run : run_end :=
  main sample_json_loads failing_world (sample_args true false 0)
       (Some upstream_source) sample_scenarios.

Definition failed_sample_run : run_end :=
  main sample_json_loads failing_world (sample_args false false 0)
       (Some upstream_source) sample_scenarios.

(** ** The options of the oracle's command line

    The number of arguments that follows each option wherever the recorder
    emits it. *)
Definition option_arities : list (string * nat) :=
  [("--mix", 3); ("--set", 3); ("--add", 4); ("--set-empty", 2);
   ("--add-empty", 3); ("--set-skin", 1); ("--entry-mix-blend", 1);
   ("--entry-alpha", 1); ("--entry-event-threshold", 1);
   ("--entry-alpha-attachment-threshold", 1);
   ("--entry-mix-attachment-threshold", 1);
   ("--entry-mix-draw-order-threshold", 1); ("--entry-hold-previous", 1);
   ("--entry-reverse", 1); ("--entry-shortest-rotation", 1);
   ("--entry-reset-rotation-directions", 0); ("--physics", 1); ("--step", 1);
   ("--dump-slot-vertices", 1)].

Fixpoint option_arity (flag : string) (table : list (string * nat)) : option nat :=
  match table with
  | (k, n) :: table' => if String.eqb flag k then Some n else option_arity flag table'
  | [] => None
  end.

(** An option with its arguments. *)
Definition option_group (g : list string) : Prop :=
  exists flag args,
    g = flag :: args /\ option_arity flag option_arities = Some (length args).

(** A command line made of options, each with its arguments. *)
Definition option_groups (tokens : list string) : Prop :=
  exists groups, tokens = concat groups /\ Forall option_group groups.

(** The same, decided from left to right; [fuel] bounds the number of
    options. *)
Fixpoint check_groups (fuel : nat) (tokens : list string) : bool :=
  match fuel with
  | 0 => false
  | S fuel' =>
      match tokens with
      | [] => true
      | flag :: rest =>
          match option_arity flag option_arities with
          | Some n => (n <=? length rest) && check_groups fuel' (drop n rest)
          | None => false
          end
      end
  end.

(* ===================================================================== *)
(** * Theorems *)


(** ** Scanner *)

Lemma chr_eqb_eq (a b : ascii) : chr_eqb a b = true <-> a = b.
Proof. apply Ascii.eqb_eq. Qed.

Lemma code_lit_view_length (s : text) :
  length (code_view s) = length s /\ length (lit_view s) = length s.
Proof.
  remember (length s) as n eqn:Hn.
  revert s Hn. induction (lt_wf n) as [n _ IH]. intros s Hn.
  destruct s as [|ch s']; [subst; split; reflexivity|].
  simpl in Hn.
  assert (Hs' : length (code_view s') = length s' /\ length (lit_view s') = length s').
  { apply (IH (length s')); [lia | reflexivity]. }
  destruct Hs' as [Hc Hl].
  split; simpl.
  - destruct (chr_eqb ch dquote); simpl; congruence.
  - destruct (chr_eqb ch backslash).
    + destruct s' as [|c2 s'']; [subst; reflexivity|].
      simpl in *. 
      destruct (IH (length s'')) with (s := s'') as [_ Hl'']; [lia | reflexivity |].
      rewrite Hl''. lia.
    + destruct (chr_eqb ch dquote); simpl; congruence.
Qed.

Lemma brace_delta_code (ch : ascii) :
  chr_eqb ch dquote = false ->
  brace_delta (Some ch) =
    if chr_eqb ch lbrace then 1%Z else if chr_eqb ch rbrace then (-1)%Z else 0%Z.
Proof. reflexivity. Qed.

(** The scanner is the depth search over the lexical view, in both of its
    string states. *)
Lemma slow_scan_view (n : nat) :
  forall rest i d, length rest <= n ->
    slow_scan rest i d false false = view_search (code_view rest) i d
    /\ slow_scan rest i d true false = view_search (lit_view rest) i d.
Proof.
  induction n as [|n IH]; intros rest i d Hlen.
  - destruct rest; [split; reflexivity | simpl in Hlen; lia].
  - destruct rest as [|ch rest']; [split; reflexivity|].
    simpl in Hlen.
    assert (Hr : length rest' <= n) by lia.
    split.
    + simpl. destruct (chr_eqb ch dquote) eqn:Hq.
      * simpl. rewrite Z.add_0_r. apply IH; assumption.
      * simpl. unfold brace_delta, is_open, is_close.
        destruct (chr_eqb ch lbrace) eqn:Ho.
        { assert (chr_eqb ch rbrace = false) as ->.
          { apply chr_eqb_eq in Ho. subst ch. reflexivity. }
          simpl. apply IH; assumption. }
        destruct (chr_eqb ch rbrace) eqn:Hc.
        { simpl. replace (d + -1)%Z with (d - 1)%Z by lia.
          destruct (d - 1 =? 0)%Z; [reflexivity | apply IH; assumption]. }
        simpl. rewrite Z.add_0_r. apply IH; assumption.
    + simpl. destruct (chr_eqb ch backslash) eqn:Hb.
      * destruct rest' as [|c2 rest'']; [reflexivity|].
        simpl. rewrite !Z.add_0_r. apply IH. simpl in Hr. lia.
      * destruct (chr_eqb ch dquote) eqn:Hq; simpl; rewrite Z.add_0_r;
          apply IH; assumption.
Qed.

Lemma nesting_cons (o : option ascii) (v : list (option ascii)) (j : nat) :
  nesting (o :: v) (S j) = (brace_delta o + nesting v j)%Z.
Proof. reflexivity. Qed.

Lemma nesting_S (v : list (option ascii)) :
  forall j, nesting v (S j)
            = (nesting v j + brace_delta (default None (v !! j)))%Z.
Proof.
  induction v as [|o v IH]; intros j.
  - destruct j; reflexivity.
  - destruct j as [|j].
    + rewrite nesting_cons. unfold nesting. simpl. lia.
    + rewrite nesting_cons, IH, nesting_cons. simpl. lia.
Qed.

Lemma hits_cons (o : option ascii) (v : list (option ascii)) (d : Z) (j : nat) :
  hits (o :: v) d (S j) <-> hits v (d + brace_delta o) j.
Proof.
  unfold hits. rewrite nesting_cons. simpl.
  split; intros [H1 H2]; split; try assumption; lia.
Qed.

Lemma view_search_spec (v : list (option ascii)) :
  forall i d,
    match view_search v i d with
    | inr r => exists k, r = i + k /\ k < length v /\ hits v d k
                         /\ forall j, j < k -> ~ hits v d j
    | inl e => e = UnbalancedBracesSlow /\ forall j, ~ hits v d j
    end.
Proof.
  induction v as [|o v IH]; intros i d.
  - simpl. split; [reflexivity|]. intros j [Hc _]. destruct j; discriminate.
  - simpl. destruct (is_close o && (d + brace_delta o =? 0)%Z) eqn:Hhit.
    + apply andb_true_iff in Hhit as [Hc Hz]. apply Z.eqb_eq in Hz.
      exists 0. repeat split; simpl; try lia; try assumption.
      unfold nesting; simpl; lia.
    + specialize (IH (S i) (d + brace_delta o)%Z).
      assert (H0 : ~ hits (o :: v) d 0).
      { intros [Hc Hz]. simpl in Hc. unfold nesting in Hz. simpl in Hz.
        rewrite Hc in Hhit. simpl in Hhit. apply Z.eqb_neq in Hhit. lia. }
      destruct (view_search v (S i) (d + brace_delta o)) as [e|r].
      * destruct IH as [-> IH]. split; [reflexivity|].
        intros [|j]; [assumption|]. rewrite hits_cons. apply IH.
      * destruct IH as (k & -> & Hk & Hh & Hmin).
        exists (S k). repeat split; simpl; try lia.
        -- apply Hh.
        -- rewrite nesting_cons. destruct Hh as [_ Hh]. lia.
        -- intros [|j] Hj; [assumption|]. rewrite hits_cons. apply Hmin. lia.
Qed.

Lemma brace_delta_close (o : option ascii) :
  is_close o = true -> brace_delta o = (-1)%Z.
Proof.
  unfold brace_delta, is_close, is_open. destruct o as [ch|]; [|discriminate].
  intros Hc. apply chr_eqb_eq in Hc. subst ch. reflexivity.
Qed.

Lemma brace_delta_not_close (o : option ascii) :
  is_close o = false -> (0 <= brace_delta o)%Z.
Proof. unfold brace_delta. intros ->. destruct (is_open o); lia. Qed.

(** After an opening brace the depth stays positive until the first hit. *)
Lemma nesting_positive (v : list (option ascii)) (k : nat) :
  is_open (default None (v !! 0)) = true ->
  (forall j, j < k -> ~ hits v 0 j) ->
  forall j, 1 <= j <= k -> (0 < nesting v j)%Z.
Proof.
  intros Hopen Hmin j. induction j as [|j IH]; intros Hj; [lia|].
  rewrite nesting_S. destruct j as [|j].
  - unfold brace_delta. rewrite Hopen. unfold nesting. rewrite take_0. simpl. lia.
  - assert (Hpos : (0 < nesting v (S j))%Z) by (apply IH; lia).
    destruct (is_close (default None (v !! S j))) eqn:Hc.
    + rewrite (brace_delta_close _ Hc).
      assert (Hnh : ~ hits v 0 (S j)) by (apply Hmin; lia).
      unfold hits in Hnh. rewrite (nesting_S v (S j)) in Hnh.
      rewrite (brace_delta_close _ Hc) in Hnh.
      destruct (Z.eq_dec (nesting v (S j) + -1)%Z 0%Z) as [Hz|Hz]; [|lia].
      exfalso. apply Hnh. split; [assumption | lia].
    + pose proof (brace_delta_not_close _ Hc). lia.
Qed.

(** Whenever the chunked scanner returns an index, the index is the exact
    scanner's. *)
Lemma chunk_loop_index_is_slow (n : nat) (t : text) (open_index : nat) :
  forall i d r, chunk_loop n t open_index i d = inr r ->
                find_matching_brace_slow t open_index = inr r.
Proof.
  induction n as [|n IH]; intros i d r; simpl; [discriminate|].
  destruct (count_chunk _ d) as [d'|]; [apply IH | trivial].
Qed.

Lemma find_matching_brace_index_is_slow (t : text) (open_index r : nat) :
  find_matching_brace t open_index = inr r ->
  find_matching_brace_slow t open_index = inr r.
Proof. apply chunk_loop_index_is_slow. Qed.

Lemma matching_close_hits (s : text) (k : nat) :
  matching_close s k -> hits (code_view s) 0 k.
Proof. intros (Hc & Hz & _). split; [assumption | lia]. Qed.

Lemma matching_close_first (s : text) (k j : nat) :
  matching_close s k -> j < k -> ~ hits (code_view s) 0 j.
Proof.
  intros (_ & _ & Hpos) Hj [_ Hz].
  specialize (Hpos (S j) ltac:(lia)). lia.
Qed.

Lemma code_view_head (s : text) :
  s !! 0 = Some lbrace -> is_open (default None (code_view s !! 0)) = true.
Proof.
  destruct s as [|ch s]; [discriminate|]. simpl. intros [= ->]. reflexivity.
Qed.

(** The scanner's answer read against the lexical view. *)
Lemma find_matching_brace_slow_view (t : text) (open_index : nat) :
  t !! open_index = Some lbrace ->
  match find_matching_brace_slow t open_index with
  | inr i => open_index < i < length t
             /\ matching_close (drop open_index t) (i - open_index)
  | inl e => e = UnbalancedBracesSlow
             /\ forall k, 1 <= k ->
                  (0 < nesting (code_view (drop open_index t)) k)%Z
  end.
Proof.
  intros Hopen. unfold find_matching_brace_slow.
  set (s := drop open_index t).
  assert (Hs0 : s !! 0 = Some lbrace).
  { unfold s. rewrite lookup_drop, Nat.add_0_r. assumption. }
  destruct (slow_scan_view (length s) s open_index 0%Z (le_n _)) as [-> _].
  pose proof (view_search_spec (code_view s) open_index 0%Z) as Hspec.
  pose proof (code_view_head s Hs0) as Hhead.
  destruct (view_search (code_view s) open_index 0) as [e|r].
  - destruct Hspec as [-> Hno]. split; [reflexivity|].
    intros k Hk. apply (nesting_positive (code_view s) k Hhead); [|lia].
    intros j _. apply Hno.
  - destruct Hspec as (k & -> & Hk & Hh & Hmin).
    destruct (code_lit_view_length s) as [Hlen _]. rewrite Hlen in Hk.
    assert (Hk0 : k <> 0).
    { intros ->. destruct Hh as [Hc _].
      destruct s as [|ch s']; [discriminate|]. simpl in Hs0.
      injection Hs0 as ->. discriminate. }
    unfold s in Hk. rewrite length_drop in Hk.
    replace (open_index + k - open_index) with k by lia.
    split; [lia|]. destruct Hh as [Hc Hz].
    split; [assumption|]. split; [lia|].
    apply (nesting_positive (code_view s) k Hhead Hmin).
Qed.

(** C4. Started on an opening brace, the exact scanner returns [i] exactly
    when [i] is the matching closing brace of the lexical view (braces inside
    string literals do not count, a backslash inside a literal takes the next
    character with it), and it raises the unbalanced-braces error exactly
    when the depth never returns to zero before the text ends. *)
Theorem find_matching_brace_slow_correct (t : text) (open_index : nat) :
  t !! open_index = Some lbrace ->
  (forall i, find_matching_brace_slow t open_index = inr i
             <-> open_index < i < length t
                 /\ matching_close (drop open_index t) (i - open_index))
  /\ (forall e, find_matching_brace_slow t open_index = inl e
                <-> e = UnbalancedBracesSlow
                    /\ forall k, 1 <= k ->
                         (0 < nesting (code_view (drop open_index t)) k)%Z).
Proof.
  intros Hopen.
  pose proof (find_matching_brace_slow_view t open_index Hopen) as Hv.
  destruct (find_matching_brace_slow t open_index) as [e|r].
  - destruct Hv as [-> Hpos]. split.
    + intros i. split; [discriminate|].
      intros [_ (_ & Hz & _)]. specialize (Hpos (S (i - open_index)) ltac:(lia)). lia.
    + intros e. split.
      * intros [= <-]. split; [reflexivity | assumption].
      * intros [-> _]. reflexivity.
  - destruct Hv as [Hr Hm]. split.
    + intros i. split.
      * intros [= <-]. split; assumption.
      * intros [Hi Hm']. f_equal.
        destruct (Nat.lt_trichotomy (r - open_index) (i - open_index)) as [Hlt|[Heq|Hgt]].
        -- exfalso. apply (matching_close_first _ _ _ Hm' Hlt).
           apply matching_close_hits. assumption.
        -- lia.
        -- exfalso. apply (matching_close_first _ _ _ Hm Hgt).
           apply matching_close_hits. assumption.
    + intros e. split; [discriminate|].
      intros [_ Hpos]. destruct Hm as (_ & Hz & _).
      specialize (Hpos (S (r - open_index)) ltac:(lia)). lia.
Qed.

(** The text of the specification's example: the literal holds an unmatched
    opening brace, and the brace at index 6 is the answer. *)
Lemma find_matching_brace_slow_correct_witness :
  rust "{ '{' }" !! 0 = Some lbrace
  /\ (find_matching_brace_slow (rust "{ '{' }") 0 = inr 6
      <-> 0 < 6 < length (rust "{ '{' }")
          /\ matching_close (drop 0 (rust "{ '{' }")) (6 - 0)).
Proof.
  split; [reflexivity|].
  apply (proj1 (find_matching_brace_slow_correct (rust "{ '{' }") 0 eq_refl) 6).
Defined.

(** C5. On [straddling_text] the literal opened at index 4095 runs over the
    first chunk boundary: the chunked scanner starts the second chunk outside
    any literal, misses the closing brace and raises, while the exact scanner
    returns index 4098. *)
Theorem find_matching_brace_straddling :
  find_matching_brace straddling_text 0 = inl UnbalancedBraces
  /\ find_matching_brace_slow straddling_text 0 = inr 4098.
Proof. vm_compute. split; reflexivity. Qed.

(** ** The chunked scanner within one chunk *)

(** On one chunk the depth count over the stripped text and the exact
    scanner go through the same states. *)
Lemma count_chunk_strip (s : text) :
  forall i d in_str escape,
    match count_chunk (strip_go s in_str escape) d with
    | None => exists r, slow_scan s i d in_str escape = inr r
    | Some _ => slow_scan s i d in_str escape = inl UnbalancedBracesSlow
    end.
Proof.
  induction s as [|c s IH]; intros i d in_str escape; simpl; [reflexivity|].
  destruct in_str.
  - destruct escape; [apply IH|].
    destruct (chr_eqb c backslash); [apply IH|].
    destruct (chr_eqb c dquote); apply IH.
  - destruct (chr_eqb c dquote); [apply IH|]. simpl.
    destruct (chr_eqb c lbrace); [apply IH|].
    destruct (chr_eqb c rbrace); [|apply IH].
    destruct (d - 1 =? 0)%Z; [eauto | apply IH].
Qed.

(** When the text from [open_index] on fits in one chunk, the chunked
    scanner returns the exact scanner's index, and raises when the exact
    scanner raises. *)
Lemma find_matching_brace_single_chunk (t : text) (open_index : nat) :
  length t - open_index <= chunk_size ->
  match find_matching_brace t open_index with
  | inr r => find_matching_brace_slow t open_index = inr r
  | inl _ => find_matching_brace_slow t open_index = inl UnbalancedBracesSlow
  end.
Proof.
  intros Hlen. unfold find_matching_brace, chunk_iterations.
  destruct (Nat.eq_dec (length t - open_index) 0) as [Hz|Hnz].
  - rewrite Hz. change ((0 + (chunk_size - 1)) / chunk_size) with 0. simpl.
    unfold find_matching_brace_slow.
    rewrite drop_ge by lia. reflexivity.
  - assert (Hone : (length t - open_index + (chunk_size - 1)) / chunk_size = 1).
    { symmetry. apply (Nat.div_unique _ _ 1 (length t - open_index - 1)); lia. }
    rewrite Hone. simpl chunk_loop.
    rewrite take_ge by (rewrite length_drop; exact Hlen).
    pose proof (count_chunk_strip (drop open_index t) open_index 0%Z false false)
      as Hc.
    unfold strip_rust_strings_for_brace_count, find_matching_brace_slow in *.
    destruct (count_chunk (strip_go (drop open_index t) false false) 0).
    + exact Hc.
    + destruct Hc as [r Hr]. rewrite Hr. reflexivity.
Qed.

(** ** End-to-end compilation *)

(** C1, as stated, fails: the step token of [sample_body] is the [repr] of
    the binary64 quotient, which has eighteen digits, not nine. *)
Lemma sample_body_not_rounded :
  parse_commands py_parse sample_body None
    = inr ["--set"; "0"; "run"; "1"; "--physics"; "none"; "--step";
           "0.016666666666666666"]
  /\ value_to_string (PrimFloat.div 1 60) <> "0.016666667".
Proof. split; [vm_compute; reflexivity | vm_compute; discriminate]. Qed.

(** C1, amended. For [sample_body] the pipeline, with the environment
    extracted by [parse_commands] itself or handed to it, produces the
    tokens [--set 0 run 1 --physics none --step 0.016666666666666666]: the
    value [1.0 / 60.0] is serialized by [repr], at full precision. *)
Theorem sample_body_tokens :
  parse_commands py_parse sample_body None
    = inr ["--set"; "0"; "run"; "1"; "--physics"; "none"; "--step";
           "0.016666666666666666"]
  /\ parse_commands py_parse sample_body
       (Some (extract_const_env py_parse sample_body))
     = inr ["--set"; "0"; "run"; "1"; "--physics"; "none"; "--step";
            "0.016666666666666666"]
  /\ extract_const_env py_parse sample_body !! "dt" = Some (PrimFloat.div 1 60)
  /\ value_to_string (PrimFloat.div 1 60) = "0.016666666666666666".
Proof. vm_compute. repeat split; reflexivity. Qed.

(** ** Constant environment *)

Section EnvironmentFacts.

Variable ast_parse : text -> result py_expr.

Lemma last_binding_cons (m : re_match) (ms : list re_match) name v :
  last_binding ast_parse (m :: ms) name v
  <-> last_binding ast_parse ms name v \/ (binds ast_parse m name v /\ unbound ast_parse ms name).
Proof.
  split.
  - intros (ms1 & m0 & ms2 & Heq & Hb & Hlast).
    destruct ms1 as [|m1 ms1]; simpl in Heq; injection Heq as -> ->.
    + right. split; [exact Hb | exact Hlast].
    + left. exists ms1, m0, ms2. split; [reflexivity|]. split; [exact Hb | exact Hlast].
  - intros [(ms1 & m0 & ms2 & -> & Hb & Hlast)|[Hb Hun]].
    + exists (m :: ms1), m0, ms2. split; [reflexivity|]. split; [exact Hb | exact Hlast].
    + exists [], m, ms. split; [reflexivity|]. split; [exact Hb | exact Hun].
Qed.

Lemma unbound_cons (m : re_match) (ms : list re_match) name :
  unbound ast_parse (m :: ms) name <-> (forall v', ~ binds ast_parse m name v') /\ unbound ast_parse ms name.
Proof.
  unfold unbound. split.
  - intros H. split.
    + apply H. left.
    + intros m' Hm'. apply H. right. assumption.
  - intros [H1 H2] m' Hm'. apply elem_of_cons in Hm' as [->|Hm']; auto.
Qed.

Lemma env_fold_lookup (ms : list re_match) :
  forall (env0 : const_env) (name : string) (v : float),
    foldl (fun (env : const_env) m =>
             match safe_eval_f32 ast_parse (py_strip (group m 2)) with
             | inr v => <[S_ (group m 1) := v]> env
             | inl _ => env
             end) env0 ms !! name = Some v
    <-> last_binding ast_parse ms name v \/ (env0 !! name = Some v /\ unbound ast_parse ms name).
Proof.
  induction ms as [|m ms IH]; intros env0 name v; simpl.
  - split.
    + intros H. right. split; [assumption|]. intros m' Hm'. inversion Hm'.
    + intros [(ms1 & m & ms2 & Heq & _)|[H _]]; [|assumption].
      destruct ms1; discriminate.
  - rewrite IH, last_binding_cons, unbound_cons. clear IH.
    unfold binds.
    destruct (safe_eval_f32 ast_parse (py_strip (group m 2))) as [e|v0] eqn:Hev.
    + split.
      * intros [H|[H1 H2]]; [left; left; assumption|].
        right. repeat split; try assumption. intros v' [_ ?]. discriminate.
      * intros [[H|[[_ ?] _]]|(H1 & _ & H2)]; try discriminate; auto.
    + destruct (decide (S_ (group m 1) = name)) as [Hn|Hn].
      * rewrite Hn, lookup_insert_eq. split.
        -- intros [H|[[= ->] H2]]; [left; left; assumption|].
           left. right. auto.
        -- intros [[H|[[_ [= ->]] H2]]|(_ & H & _)]; auto.
           exfalso. apply (H v0). auto.
      * rewrite lookup_insert_ne by assumption. split.
        -- intros [H|[H1 H2]]; [left; left; assumption|].
           right. repeat split; try assumption. intros v' [? _]. contradiction.
        -- intros [[H|[[? _] _]]|(H1 & _ & H2)]; try contradiction; auto.
Qed.

(** C9. [extract_const_env] has no exceptional outcome (the handler of the
    source turns a failed evaluation into a skipped binding), and a name is
    mapped to [v] exactly when the last match of the binding pattern for
    that name whose right-hand side evaluates is one that evaluates to [v];
    later matches whose right-hand side does not evaluate leave the entry
    alone. *)
Theorem extract_const_env_last_binding (body : text) (name : string) (v : float) :
  extract_const_env ast_parse body !! name = Some v
  <-> exists ms1 m ms2,
        re_finditer re_let body = ms1 ++ m :: ms2
        /\ binds ast_parse m name v
        /\ forall m', m' ∈ ms2 -> forall v', ~ binds ast_parse m' name v'.
Proof.
  unfold extract_const_env. rewrite env_fold_lookup. split.
  - intros [H|[H _]]; [exact H|]. rewrite lookup_empty in H. discriminate.
  - intros H. left. exact H.
Qed.

End EnvironmentFacts.

(** A binding that does not evaluate, met after one that does, leaves the
    recorded value in place. *)
Lemma extract_const_env_keeps_earlier :
  extract_const_env py_parse (rust "let a = 0.5; let a = foo(2);") !! "a"
  = Some 0.5%float.
Proof. vm_compute. reflexivity. Qed.

(** ** Deduplication of scenarios *)

Section DictSet.

Context {K V : Type} `{EqDecision K}.

Lemma dict_set_elem (k : K) (v : V) (d : list (K * V)) :
  NoDup d.*1 ->
  forall k' v', (k', v') ∈ dict_set k v d
                <-> (k' = k /\ v' = v) \/ (k' <> k /\ (k', v') ∈ d).
Proof.
  induction d as [|[k0 v0] d IH]; simpl; intros Hnd k' v'.
  - rewrite list_elem_of_singleton. split.
    + intros [= -> ->]. left. split; reflexivity.
    + intros [[-> ->]|[_ H]]; [reflexivity | inversion H].
  - apply NoDup_cons in Hnd as [Hk0 Hnd].
    destruct (decide (k = k0)) as [->|Hne].
    + rewrite !elem_of_cons. split.
      * intros [[= -> ->]|H]; [left; split; reflexivity|].
        right. split; [|right; assumption].
        intros ->. apply Hk0. apply list_elem_of_fmap. exists (k0, v'). split; [reflexivity | assumption].
      * intros [[-> ->]|[Hne [[= -> ->]|H]]]; [left; reflexivity | contradiction | right; assumption].
    + rewrite !elem_of_cons, (IH Hnd). split.
      * intros [[= -> ->]|[[-> ->]|[Hk H]]].
        -- right. split; [congruence | left; reflexivity].
        -- left. split; reflexivity.
        -- right. split; [assumption | right; assumption].
      * intros [[-> ->]|[Hk [[= -> ->]|H]]].
        -- right. left. split; reflexivity.
        -- left. reflexivity.
        -- right. right. split; assumption.
Qed.

Lemma dict_set_keys (k : K) (v : V) (d : list (K * V)) :
  forall k', k' ∈ (dict_set k v d).*1 <-> k' = k \/ k' ∈ d.*1.
Proof.
  induction d as [|[k0 v0] d IH]; simpl; intros k'.
  - rewrite list_elem_of_singleton. split; [intros ->; left; reflexivity|].
    intros [->|H]; [reflexivity | inversion H].
  - destruct (decide (k = k0)) as [->|Hne]; simpl; rewrite !elem_of_cons.
    + tauto.
    + rewrite IH. tauto.
Qed.

Lemma dict_set_NoDup (k : K) (v : V) (d : list (K * V)) :
  NoDup d.*1 -> NoDup (dict_set k v d).*1.
Proof.
  induction d as [|[k0 v0] d IH]; simpl; intros Hnd.
  - apply NoDup_singleton.
  - apply NoDup_cons in Hnd as [Hk0 Hnd].
    destruct (decide (k = k0)) as [->|Hne]; simpl.
    + apply NoDup_cons. split; assumption.
    + apply NoDup_cons. split; [|apply IH; assumption].
      rewrite dict_set_keys. intros [->|H]; [apply Hne; reflexivity | contradiction].
Qed.

End DictSet.

Lemma last_with_key_snoc (scs : list Scenario) (s v : Scenario) :
  last_with_key (scs ++ [s]) v
  <-> v = s \/ (last_with_key scs v /\ key_of s <> key_of v).
Proof.
  split.
  - intros (pre & post & Heq & Hpost).
    revert Heq Hpost. induction post as [|s0 post' _] using rev_ind; intros Heq Hpost.
    + left. apply app_inj_tail in Heq as [_ ->]. reflexivity.
    + right. rewrite app_comm_cons, app_assoc in Heq.
      apply app_inj_tail in Heq as [-> ->]. split.
      * exists pre, post'. split; [reflexivity|].
        intros s' Hs'. apply Hpost. apply elem_of_app. left. assumption.
      * apply Hpost. apply elem_of_app. right. left.
  - intros [->|[(pre & post & -> & Hpost) Hne]].
    + exists scs, []. split; [reflexivity|]. intros s' Hs'. inversion Hs'.
    + exists pre, (post ++ [s]). split; [rewrite <- app_assoc; reflexivity|].
      intros s' Hs'. apply elem_of_app in Hs' as [Hs'|Hs'].
      * apply Hpost. assumption.
      * apply list_elem_of_singleton in Hs'. subst s'. assumption.
Qed.

Lemma unique_invariant (scs : list Scenario) :
  let d := foldl (fun d s => dict_set (key_of s) s d)
                 ([] : list (scenario_key * Scenario)) scs in
  NoDup d.*1
  /\ forall k v, (k, v) ∈ d <-> k = key_of v /\ last_with_key scs v.
Proof.
  induction scs as [|s scs IH] using rev_ind; simpl.
  - split; [apply NoDup_nil_2|]. intros k v. split.
    + intros H. inversion H.
    + intros [_ (pre & post & Heq & _)]. destruct pre; discriminate.
  - rewrite foldl_app. simpl. simpl in IH. destruct IH as [Hnd IH].
    set (d := foldl _ _ scs) in *.
    split; [apply dict_set_NoDup; assumption|].
    intros k v. rewrite (dict_set_elem _ _ _ Hnd), last_with_key_snoc, IH.
    split.
    + intros [[-> ->]|[Hk [-> Hl]]].
      * split; [reflexivity | left; reflexivity].
      * split; [reflexivity|]. right. split; [assumption | congruence].
    + intros [-> [->|[Hl Hk]]].
      * left. split; reflexivity.
      * right. repeat split; [congruence | assumption].
Qed.

(** The deduplication stage alone: no key occurs twice in its result, and
    the scenarios kept are those that are the last of the list with their
    key. *)
Lemma dedup_last_per_key (scs : list Scenario) :
  NoDup (map key_of (dedup scs))
  /\ forall s, s ∈ dedup scs
               <-> exists pre post,
                     scs = pre ++ s :: post
                     /\ forall s', s' ∈ post -> key_of s' <> key_of s.
Proof.
  unfold dedup. destruct (unique_invariant scs) as [Hnd Hinv]. simpl in *.
  set (d := foldl _ _ scs) in *. split.
  - assert (Hmap : map key_of (map snd d) = d.*1).
    { rewrite <- list_fmap_compose. apply list_fmap_ext.
      intros i [k v] Hkv. simpl. symmetry. apply Hinv.
      apply list_elem_of_lookup. exists i. assumption. }
    rewrite Hmap. assumption.
  - intros s. fold (last_with_key scs s). rewrite list_elem_of_fmap. split.
    + intros ([k v] & -> & Hkv). apply Hinv in Hkv. apply Hkv.
    + intros Hl. exists (key_of s, s). split; [reflexivity|].
      apply Hinv. split; [reflexivity | assumption].
Qed.

(** The loop of [extract_scenarios] over the test functions: when no scan
    raises, the list built is the list of the scenarios scanned; otherwise
    the exception is that of the first scan that raised. *)
Lemma collect_scenarios_outcome (ast_parse : text -> result py_expr)
    (text_ : text) (ms : list re_match) :
  match collect_scenarios ast_parse text_ ms with
  | inr scs =>
      Forall (fun m => exists o, scan_test ast_parse text_ m = inr o) ms
      /\ scs = omap (fun m => match scan_test ast_parse text_ m with
                              | inr o => o
                              | inl _ => None
                              end) ms
  | inl e =>
      exists ms1 m ms2,
        ms = ms1 ++ m :: ms2
        /\ Forall (fun m => exists o, scan_test ast_parse text_ m = inr o) ms1
        /\ scan_test ast_parse text_ m = inl e
  end.
Proof.
  induction ms as [|m ms IH]; simpl; [split; [constructor | reflexivity]|].
  destruct (scan_test ast_parse text_ m) as [e|o] eqn:Hs; simpl.
  - exists [], m, ms. repeat split; auto.
  - destruct (collect_scenarios ast_parse text_ ms) as [e|rest]; simpl.
    + destruct IH as (ms1 & m' & ms2 & -> & Hok & Hf).
      exists (m :: ms1), m', ms2. repeat split; auto.
      constructor; [eauto | assumption].
    + destruct IH as [Hok ->]. split; [constructor; [eauto | assumption]|].
      destruct o; reflexivity.
Qed.

(** C7. When [extract_scenarios] returns, no key (golden path, golden kind,
    skeleton path) occurs twice in the list returned, and the scenarios
    returned are exactly the scanned scenarios that are the last of the scan
    with their key: two tests that differ in the skeleton path alone both
    survive, and of several tests with one key the one scanned last is kept,
    with its token list.  It does return whenever no scan raises. *)
Theorem extract_scenarios_keeps_last_per_key
    (ast_parse : text -> result py_expr) (text_ : text) :
  (forall scs,
      extract_scenarios ast_parse text_ = inr scs ->
      NoDup (map key_of scs)
      /\ forall s, s ∈ scs
                   <-> exists pre post,
                         scanned_scenarios ast_parse text_ = pre ++ s :: post
                         /\ forall s', s' ∈ post -> key_of s' <> key_of s)
  /\ (Forall (fun m => exists o, scan_test ast_parse text_ m = inr o)
             (re_finditer fn_re text_) ->
      exists scs, extract_scenarios ast_parse text_ = inr scs).
Proof.
  unfold extract_scenarios, scanned_scenarios.
  pose proof (collect_scenarios_outcome ast_parse text_ (re_finditer fn_re text_))
    as H.
  destruct (collect_scenarios ast_parse text_ (re_finditer fn_re text_))
    as [e|scs0]; simpl; split.
  - intros scs. discriminate.
  - intros Hall. exfalso. destruct H as (ms1 & m & ms2 & Heq & _ & Hm).
    rewrite Heq in Hall. apply Forall_app in Hall as [_ Hall].
    apply Forall_cons in Hall as [[o Ho] _]. congruence.
  - intros scs [= <-]. destruct H as [_ ->]. apply dedup_last_per_key.
  - intros _. eexists. reflexivity.
Qed.

(** Three tests: the first two differ in the skeleton path only, the third
    repeats the key of the first with other calls.  The third takes the
    place of the first and the second stays. *)
Lemma extract_scenarios_dedup_sample :
  extract_scenarios py_parse
    (rust "#[test] fn oracle_one() { example_json_path('a.json'); golden_path('g.json'); state.update(0.5); }
#[test] fn oracle_two() { example_json_path('b.json'); golden_path('g.json'); state.update(0.25); }
#[test] fn oracle_three() { example_json_path('a.json'); golden_path('g.json'); state.update(2.0); }")
  = inr [ {| name := "oracle_three"; skeleton_rel := "a.json";
             golden_file := "g.json"; golden_is_skel := false;
             commands := ["--physics"; "none"; "--step"; "2.0"];
             debug_slot := None |};
          {| name := "oracle_two"; skeleton_rel := "b.json";
             golden_file := "g.json"; golden_is_skel := false;
             commands := ["--physics"; "none"; "--step"; "0.25"];
             debug_slot := None |} ].
Proof. vm_compute. reflexivity. Qed.

(** ** Oracle invocation *)

(** C8, as stated, fails: the payload is not the captured output verbatim,
    with or without one more line break; the output is stripped first. *)
Lemma run_oracle_strips_output :
  run_oracle (fun _ => inr tt) padded_process = inr (T "{}" ++ [newline])
  /\ T "{}" ++ [newline] <> stdout padded_process ++ [newline]
  /\ T "{}" ++ [newline] <> stdout padded_process.
Proof. split; [reflexivity|]. split; discriminate. Qed.

(** C8, amended. [run_oracle] succeeds exactly when the exit code is zero
    and the captured output, stripped of leading and trailing white space,
    parses as a JSON document; the payload is then that stripped output
    followed by one line break.  A nonzero exit code raises the
    oracle-failed error and an output that does not parse raises the
    parser's error. *)
Theorem run_oracle_outcome (json_loads : text -> result unit)
    (proc : completed_process) :
  (forall payload,
      run_oracle json_loads proc = inr payload
      <-> returncode proc = 0%Z
          /\ json_loads (py_strip (stdout proc)) = inr tt
          /\ payload = py_strip (stdout proc) ++ [newline])
  /\ (forall e,
         run_oracle json_loads proc = inl e
         <-> (returncode proc <> 0%Z /\ e = OracleFailed (returncode proc))
             \/ (returncode proc = 0%Z
                 /\ json_loads (py_strip (stdout proc)) = inl e)).
Proof.
  unfold run_oracle.
  destruct (Z.eqb_spec (returncode proc) 0) as [Hz|Hnz]; simpl.
  - destruct (json_loads (py_strip (stdout proc))) as [e0|[]]; simpl; split.
    + intros payload. split; [discriminate|]. intros (_ & H & _). discriminate.
    + intros e. split.
      * intros [= ->]. right. split; [assumption | reflexivity].
      * intros [[H _]|[_ [= ->]]]; [contradiction | reflexivity].
    + intros payload. split.
      * intros [= <-]. repeat split; assumption.
      * intros (_ & _ & ->). reflexivity.
    + intros e. split; [discriminate|].
      intros [[H _]|[_ H]]; [contradiction | discriminate].
  - split.
    + intros payload. split; [discriminate|]. intros [H _]. contradiction.
    + intros e. split.
      * intros [= <-]. left. split; [assumption | reflexivity].
      * intros [[_ ->]|[H _]]; [reflexivity | contradiction].
Qed.

(** ** Skipped tests *)

(** C10. When the function body has been delimited and either no skeleton
    path is found in the body and in the fallback slice, or no golden path
    of either kind is found in the body, the loop body ends with [continue]:
    no scenario, no exception, and the scan goes on as if the test were not
    there. *)
Theorem scan_test_skips (ast_parse : text -> result py_expr)
    (text_ : text) (m : re_match) (brace_open brace_close : nat) :
  str_find text_ lbrace (m_end m) = Some brace_open ->
  find_matching_brace_slow text_ brace_open = inr brace_close ->
  (re_search (re_path_call "example_json_path")
             (slice text_ (brace_open + 1) brace_close) = None
   /\ re_search (re_path_call "example_json_path")
                (slice text_ (m_start m) brace_close) = None)
  \/ (re_search (re_path_call "golden_path")
                (slice text_ (brace_open + 1) brace_close) = None
      /\ re_search (re_path_call "golden_skel_path")
                   (slice text_ (brace_open + 1) brace_close) = None) ->
  scan_test ast_parse text_ m = inr None
  /\ forall ms, collect_scenarios ast_parse text_ (m :: ms)
                = collect_scenarios ast_parse text_ ms.
Proof.
  intros Hopen Hclose Hmiss.
  assert (Hscan : scan_test ast_parse text_ m = inr None).
  { unfold scan_test. rewrite Hopen, Hclose. simpl.
    destruct Hmiss as [[-> ->]|[-> ->]]; [reflexivity|].
    destruct (re_search (re_path_call "example_json_path") _); [reflexivity|].
    destruct (re_search (re_path_call "example_json_path") _); reflexivity. }
  split; [assumption|].
  intros ms. simpl. rewrite Hscan. simpl.
  destruct (collect_scenarios ast_parse text_ ms); reflexivity.
Qed.

(** The test of [skipped_corpus] names no skeleton: it is skipped, although
    its body holds a call that would not compile. *)
Lemma scan_test_skips_witness :
  scan_test py_parse skipped_corpus skipped_match = inr None
  /\ forall ms, collect_scenarios py_parse skipped_corpus (skipped_match :: ms)
                = collect_scenarios py_parse skipped_corpus ms.
Proof.
  apply (scan_test_skips py_parse skipped_corpus skipped_match 22 75).
  - vm_compute. reflexivity.
  - vm_compute. reflexivity.
  - left. split; vm_compute; reflexivity.
Defined.

Lemma extract_scenarios_skipped_corpus :
  extract_scenarios py_parse skipped_corpus = inr [].
Proof. vm_compute. reflexivity. Qed.

(** ** Expressions and values *)

Lemma eval_node_arithmetic (expr : string) (n : py_expr) :
  forall v, eval_node expr n = inr v -> arithmetic n = true.
Proof.
  induction n as [body IH|c|id|op operand IH|l IHl op r IHr|f args|value attr|];
    intros v; simpl; try discriminate.
  - apply IH.
  - destruct c; simpl; try discriminate; reflexivity.
  - destruct op; simpl; try discriminate;
      (destruct (eval_node expr operand) as [e|w]; simpl; [discriminate|];
       intros _; apply (IH w); reflexivity).
  - destruct op; simpl; try discriminate;
      (destruct (eval_node expr l) as [e|a]; simpl; [discriminate|];
       destruct (eval_node expr r) as [e|b]; simpl; [discriminate|];
       intros _; rewrite (IHl a eq_refl), (IHr b eq_refl); reflexivity).
Qed.

Lemma eval_node_unsupported_root (expr : string) (n : py_expr) :
  supported_root n = false -> eval_node expr n = inl (UnsupportedExpr expr).
Proof.
  destruct n as [body|c|id|op operand|l op r|f args|value attr|]; simpl;
    try discriminate; try reflexivity.
  - destruct c; simpl; try discriminate; reflexivity.
  - destruct op; simpl; try discriminate; reflexivity.
  - destruct op; simpl; try discriminate; reflexivity.
Qed.

(** C6, as stated, fails: a name inside a larger expression is not resolved.
    With [dt] bound to 2, [dt * 2] raises the unsupported-expression error
    where the specification's evaluator gives 4, and an unbound name in that
    position raises the same error, not the unknown-variable one. *)
Lemma nested_name_is_unsupported :
  parse_value py_parse (T "dt * 2") dt_env = inl (UnsupportedExpr "dt * 2")
  /\ (n ← py_parse (T "dt * 2"); spec_eval_node dt_env "dt * 2" n) = inr 4%float
  /\ parse_value py_parse (T "nope * 2") dt_env = inl (UnsupportedExpr "nope * 2")
  /\ (n ← py_parse (T "nope * 2"); spec_eval_node dt_env "nope * 2" n)
     = inl (UnknownVariable "nope").
Proof. vm_compute. repeat split; reflexivity. Qed.

(** C6, amended. A token that is, once stripped, one identifier is looked
    up in the environment, and an absent name raises the unknown-variable
    error.  Every other token is evaluated without the environment: a value
    comes out only of an expression made of numeric constants, unary plus
    and minus and the binary operators [+ - * /]; a node of any other form at
    the root, a name or a call such as [foo(1)] included, raises the
    unsupported-expression error. *)
Theorem parse_value_forms (ast_parse : text -> result py_expr)
    (token : text) (env : const_env) :
  (re_fullmatch identifier (py_strip token) = true ->
   parse_value ast_parse token env
   = match env !! S_ (py_strip token) with
     | Some v => inr v
     | None => inl (UnknownVariable (S_ (py_strip token)))
     end)
  /\ (re_fullmatch identifier (py_strip token) = false ->
      parse_value ast_parse token env
      = safe_eval_f32 ast_parse (py_strip token))
  /\ (forall expr n v, eval_node expr n = inr v -> arithmetic n = true)
  /\ (forall expr n, supported_root n = false ->
                     eval_node expr n = inl (UnsupportedExpr expr))
  /\ parse_value py_parse (T "foo(1)") env = inl (UnsupportedExpr "foo(1)")
  /\ parse_value py_parse (T "unknown_name") ∅
     = inl (UnknownVariable "unknown_name").
Proof.
  split; [|split; [|split; [|split; [|split]]]].
  - intros H. unfold parse_value. rewrite H.
    destruct (env !! S_ (py_strip token)); reflexivity.
  - intros H. unfold parse_value. rewrite H. reflexivity.
  - apply eval_node_arithmetic.
  - apply eval_node_unsupported_root.
  - reflexivity.
  - reflexivity.
Qed.

(** ** The matcher consumes words of the pattern's language *)

Lemma lit_go_sound (w : text) :
  forall prev rest pos prev' rest' pos',
    lit_go w prev rest pos = Some (prev', rest', pos') ->
    rest = w ++ rest' /\ pos' = pos + length w.
Proof.
  induction w as [|c w IH]; intros prev rest pos prev' rest' pos'; simpl.
  - intros [= _ -> ->]. split; [reflexivity | lia].
  - destruct rest as [|x rest]; [discriminate|].
    destruct (chr_eqb x c) eqn:Hx; [|discriminate].
    apply chr_eqb_eq in Hx. subst x. intros H.
    apply IH in H as [-> ->]. split; [reflexivity | lia].
Qed.

Lemma rep_go_sound (cl : cclass) (greedy : bool) (gs : list (nat * text))
    (k : mstate -> option mstate) (res : mstate) (rest : text) :
  forall must prev pos,
    rep_go cl greedy gs k must prev rest pos = Some res ->
    exists w prev' rest',
      rest = w ++ rest'
      /\ Forall (fun x => class_mem cl x = true) w
      /\ (must = true -> w <> [])
      /\ k (MState prev' rest' (pos + length w) gs) = Some res.
Proof.
  induction rest as [|x rest IH]; intros must prev pos; simpl.
  - destruct must; [discriminate|]. intros H.
    exists [], prev, []. rewrite Nat.add_0_r. repeat split; auto.
  - assert (Hhere : (if must then None else k (MState prev (x :: rest) pos gs))
                    = Some res ->
                    exists w prev' rest',
                      x :: rest = w ++ rest'
                      /\ Forall (fun x => class_mem cl x = true) w
                      /\ (must = true -> w <> [])
                      /\ k (MState prev' rest' (pos + length w) gs) = Some res).
    { destruct must; [discriminate|]. intros H.
      exists [], prev, (x :: rest). rewrite Nat.add_0_r. repeat split; auto. }
    assert (Hmore : rep_go cl greedy gs k false (Some x) rest (S pos) = Some res ->
                    class_mem cl x = true ->
                    exists w prev' rest',
                      x :: rest = w ++ rest'
                      /\ Forall (fun x => class_mem cl x = true) w
                      /\ (must = true -> w <> [])
                      /\ k (MState prev' rest' (pos + length w) gs) = Some res).
    { intros H Hx. apply IH in H as (w & prev' & rest' & -> & Hall & _ & Hk).
      exists (x :: w), prev', rest'.
      split; [reflexivity|]. split; [constructor; assumption|].
      split; [discriminate|].
      simpl. rewrite <- Hk. do 2 f_equal. lia. }
    destruct (class_mem cl x) eqn:Hx; [|exact Hhere].
    destruct greedy.
    + destruct (rep_go cl true gs k false (Some x) rest (S pos)) as [res'|] eqn:Hgo.
      * intros [= <-]. apply Hmore; reflexivity.
      * exact Hhere.
    + destruct (if must then None else k (MState prev (x :: rest) pos gs))
        as [res'|] eqn:Hh.
      * intros [= <-]. apply Hhere. reflexivity.
      * intros H. apply Hmore; [assumption | reflexivity].
Qed.

Lemma rmatch_sound (r : regex) :
  forall st k res,
    rmatch r st k = Some res ->
    exists w st',
      m_rest st = w ++ m_rest st'
      /\ m_pos st' = m_pos st + length w
      /\ lang r w
      /\ k st' = Some res.
Proof.
  induction r as [|cl|s|r1 IH1 r2 IH2|r1 IH1 r2 IH2|cl one greedy|r IH|n r IH| |];
    intros st k res; simpl.
  - intros H. exists [], st. rewrite Nat.add_0_r. auto.
  - destruct (m_rest st) as [|x rest'] eqn:Hrest; [discriminate|].
    destruct (class_mem cl x) eqn:Hx; [|discriminate]. intros H.
    exists [x], (MState (Some x) rest' (S (m_pos st)) (m_groups st)).
    simpl. repeat split; [lia | exists x; auto | assumption].
  - destruct (lit_go (T s) (m_prev st) (m_rest st) (m_pos st))
      as [[[prev' rest'] pos']|] eqn:Hlit; [|discriminate].
    apply lit_go_sound in Hlit as [Hrest ->]. intros H.
    exists (T s), (MState prev' rest' (m_pos st + length (T s)) (m_groups st)).
    simpl. auto.
  - intros H. apply IH1 in H as (w1 & st1 & Hr1 & Hp1 & Hl1 & H).
    apply IH2 in H as (w2 & st2 & Hr2 & Hp2 & Hl2 & H).
    exists (w1 ++ w2), st2. rewrite Hr1, Hr2, Hp2, Hp1, length_app, <- app_assoc.
    repeat split; [lia | exists w1, w2; auto | assumption].
  - destruct (rmatch r1 st k) as [res'|] eqn:H1.
    + intros [= <-]. apply IH1 in H1 as (w & st' & ? & ? & ? & ?).
      exists w, st'. auto.
    + intros H2. apply IH2 in H2 as (w & st' & ? & ? & ? & ?).
      exists w, st'. auto.
  - intros H. apply rep_go_sound in H as (w & prev' & rest' & Hr & Hall & Hne & Hk).
    exists w, (MState prev' rest' (m_pos st + length w) (m_groups st)).
    simpl. auto.
  - destruct (rmatch r st k) as [res'|] eqn:H1.
    + intros [= <-]. apply IH in H1 as (w & st' & ? & ? & ? & ?).
      exists w, st'. auto.
    + intros H. exists [], st. rewrite Nat.add_0_r. auto.
  - intros H. apply IH in H as (w & st' & Hr & Hp & Hl & Hk).
    eexists w, (MState _ (m_rest st') (m_pos st') _). simpl.
    repeat split; [exact Hr | exact Hp | exact Hl | exact Hk].
  - destruct (at_boundary st); [|discriminate]. intros H.
    exists [], st. rewrite Nat.add_0_r. auto.
  - destruct (m_rest st) eqn:Hrest; [|discriminate]. intros H.
    exists [], st. rewrite Nat.add_0_r, Hrest. auto.
Qed.

(** A match object describes a word of the pattern found at its start. *)
Lemma match_at_sound (r : regex) (prev : option ascii) (rest : text)
    (pos : nat) (m : re_match) :
  match_at r prev rest pos = Some m ->
  exists rest',
    rest = m_group0 m ++ rest'
    /\ lang r (m_group0 m)
    /\ m_start m = pos
    /\ m_end m = pos + length (m_group0 m).
Proof.
  unfold match_at.
  destruct (rmatch r (MState prev rest pos []) Some) as [st'|] eqn:H; [|discriminate].
  intros [= <-]. simpl.
  apply rmatch_sound in H as (w & st'' & Hr & Hp & Hl & [= ->]). simpl in *.
  exists (m_rest st'). rewrite Hp, Hr.
  replace (pos + length w - pos) with (length w) by lia.
  rewrite take_app_length. auto.
Qed.

Lemma search_from_sound (r : regex) (rest : text) :
  forall prev pos m,
    search_from r prev rest pos = Some m ->
    exists pre post,
      rest = pre ++ m_group0 m ++ post
      /\ lang r (m_group0 m)
      /\ m_start m = pos + length pre
      /\ m_end m = m_start m + length (m_group0 m).
Proof.
  induction rest as [|x rest IH]; intros prev pos m; simpl.
  - destruct (match_at r prev [] pos) as [m'|] eqn:Hm; [|discriminate].
    intros [= <-]. apply match_at_sound in Hm as (rest' & Hr & Hl & Hs & He).
    exists [], rest'. simpl. rewrite Nat.add_0_r. repeat split; auto; lia.
  - destruct (match_at r prev (x :: rest) pos) as [m'|] eqn:Hm.
    + intros [= <-]. apply match_at_sound in Hm as (rest' & Hr & Hl & Hs & He).
      exists [], rest'. simpl. rewrite Nat.add_0_r. repeat split; auto; lia.
    + intros H. apply IH in H as (pre & post & -> & Hl & Hs & He).
      exists (x :: pre), post. simpl. repeat split; auto; lia.
Qed.

(** The text around a match of [re_search]. *)
Lemma re_search_sound (r : regex) (t : text) (m : re_match) :
  re_search r t = Some m ->
  t = take (m_start m) t ++ m_group0 m ++ drop (m_end m) t
  /\ lang r (m_group0 m)
  /\ m_end m = m_start m + length (m_group0 m)
  /\ m_end m <= length t.
Proof.
  intros H. apply search_from_sound in H as (pre & post & Ht & Hl & Hs & He).
  simpl in Hs. rewrite He, Hs.
  assert (Hlen : length t = length pre + length (m_group0 m) + length post).
  { rewrite Ht, !length_app. lia. }
  repeat split; auto; [|lia].
  subst t. rewrite take_app_length.
  rewrite (app_assoc pre), drop_app_length';
    [rewrite <- app_assoc; reflexivity|].
  rewrite length_app. lia.
Qed.

(** ** Loop unrolling *)

Ltac break_lang :=
  repeat match goal with
         | H : exists _, _ |- _ => destruct H
         | H : _ /\ _ |- _ => destruct H
         end.

(** A match of the loop header is not empty and ends with the brace. *)
Lemma lang_loop_re (w : text) : lang loop_re w -> exists u, w = u ++ [lbrace].
Proof.
  unfold loop_re, cat. simpl. intros H. break_lang. subst.
  rewrite app_nil_r, !app_assoc. eexists. reflexivity.
Qed.

Lemma str_find_at (pre post : text) (c : ascii) :
  str_find (pre ++ c :: post) c (length pre) = Some (length pre).
Proof.
  unfold str_find. rewrite drop_app_length. simpl.
  assert (chr_eqb c c = true) as -> by (apply chr_eqb_eq; reflexivity).
  reflexivity.
Qed.

Lemma loop_header_brace (body : text) (m : re_match) :
  re_search loop_re body = Some m ->
  m_start m < m_end m
  /\ m_end m <= length body
  /\ str_find body lbrace (m_end m - 1) = Some (m_end m - 1)
  /\ body !! (m_end m - 1) = Some lbrace.
Proof.
  intros H. apply re_search_sound in H as (Hbody & Hl & He & Hlen).
  apply lang_loop_re in Hl as [u Hu].
  assert (Hg : length (m_group0 m) = S (length u)).
  { rewrite Hu, length_app. simpl. lia. }
  split; [lia|]. split; [assumption|].
  assert (Hs : m_start m <= length body) by lia.
  remember (take (m_start m) body ++ u) as pre eqn:Hp.
  remember (drop (m_end m) body) as post eqn:Hq.
  assert (Hpre : m_end m - 1 = length pre).
  { rewrite Hp, length_app, length_take. lia. }
  assert (Hb : body = pre ++ lbrace :: post).
  { rewrite Hbody at 1. rewrite Hp, Hq, Hu, <- !app_assoc. reflexivity. }
  rewrite Hpre, Hb. split.
  - apply str_find_at.
  - apply list_lookup_middle. reflexivity.
Qed.

Lemma slow_scan_bounds (rest : text) :
  forall i d in_str escape r,
    slow_scan rest i d in_str escape = inr r ->
    i <= r < i + length rest /\ rest !! (r - i) = Some rbrace.
Proof.
  induction rest as [|c rest IH]; intros i d in_str escape r; simpl;
    [discriminate|].
  assert (Hrec : forall d' s' e',
             slow_scan rest (S i) d' s' e' = inr r ->
             i <= r < i + S (length rest) /\ (c :: rest) !! (r - i) = Some rbrace).
  { intros d' s' e' H. apply IH in H as [Hb Hl]. split; [lia|].
    replace (r - i) with (S (r - S i)) by lia. exact Hl. }
  destruct in_str.
  - destruct escape; [apply Hrec|].
    destruct (chr_eqb c backslash); [apply Hrec|].
    destruct (chr_eqb c dquote); apply Hrec.
  - destruct (chr_eqb c dquote); [apply Hrec|].
    destruct (chr_eqb c lbrace); [apply Hrec|].
    destruct (chr_eqb c rbrace) eqn:Hc; [|apply Hrec].
    destruct (d - 1 =? 0)%Z; [|apply Hrec].
    intros [= <-]. apply chr_eqb_eq in Hc. subst c.
    rewrite Nat.sub_diag. split; [lia | reflexivity].
Qed.

Lemma find_matching_brace_slow_bounds (t : text) (open_index r : nat) :
  find_matching_brace_slow t open_index = inr r ->
  open_index <= r < length t /\ t !! r = Some rbrace.
Proof.
  unfold find_matching_brace_slow. intros H.
  apply slow_scan_bounds in H as [Hb Hl].
  rewrite length_drop in Hb. rewrite lookup_drop in Hl.
  replace (open_index + (r - open_index)) with r in Hl by lia.
  split; [lia | assumption].
Qed.

Section UnrollingFacts.

Variable ast_parse : text -> result py_expr.
Variable env : const_env.

(** Any fuel above the length of the body gives the same, defined,
    result. *)
Lemma parse_commands_fuel_stable (n : nat) :
  forall body fuel1 fuel2,
    length body = n -> length body < fuel1 -> length body < fuel2 ->
    parse_commands_fuel ast_parse fuel1 body env
    = parse_commands_fuel ast_parse fuel2 body env
    /\ is_Some (parse_commands_fuel ast_parse fuel1 body env).
Proof.
  induction (lt_wf n) as [n _ IH]. intros body fuel1 fuel2 Hn H1 H2.
  destruct fuel1 as [|f1]; [lia|]. destruct fuel2 as [|f2]; [lia|].
  simpl. destruct (re_search loop_re body) as [m|] eqn:Hm; [|split; eauto].
  destruct (loop_header_brace body m Hm) as (Hse & Hlen & -> & Hopen).
  destruct (find_matching_brace_slow body (m_end m - 1)) as [e|cb] eqn:Hcb;
    simpl; [split; eauto|].
  apply find_matching_brace_slow_bounds in Hcb as [Hcb _].
  destruct (parse_value ast_parse (group m 1) env) as [e|v]; simpl; [split; eauto|].
  destruct (int_of_float v) as [e|repeat]; simpl; [split; eauto|].
  destruct (repeat <? 0)%Z; [split; eauto|].
  assert (Hsub : forall t, length t < length body ->
            parse_commands_fuel ast_parse f1 t env
            = parse_commands_fuel ast_parse f2 t env
            /\ is_Some (parse_commands_fuel ast_parse f1 t env)).
  { intros t Ht. apply (IH (length t)); [lia | reflexivity | lia | lia]. }
  destruct (Hsub (take (m_start m) body)) as [<- [rb Hb]].
  { rewrite length_take. lia. }
  destruct (Hsub (slice body (m_end m - 1 + 1) cb)) as [<- [ri Hi]].
  { unfold slice. rewrite length_take, length_drop. lia. }
  destruct (Hsub (drop (cb + 1) body)) as [<- [ra Ha]].
  { rewrite length_drop. lia. }
  split; [reflexivity|].
  rewrite Hb, Hi, Ha.
  destruct rb as [e|b]; simpl; [eauto|].
  destruct ri as [e|i]; simpl; [eauto|].
  destruct ra as [e|a]; simpl; eauto.
Qed.

(** [parse_commands] never runs out of fuel. *)
Lemma parse_commands_fuel_enough (body : text) :
  parse_commands_fuel ast_parse (S (length body)) body env
  = Some (parse_commands ast_parse body (Some env)).
Proof.
  unfold parse_commands.
  destruct (parse_commands_fuel_stable (length body) body (S (length body))
              (S (length body)) eq_refl (Nat.lt_succ_diag_r _) (Nat.lt_succ_diag_r _))
    as [_ [r ->]].
  reflexivity.
Qed.

Lemma parse_commands_fuel_any (body : text) (fuel : nat) :
  length body < fuel ->
  parse_commands_fuel ast_parse fuel body env
  = Some (parse_commands ast_parse body (Some env)).
Proof.
  intros H. rewrite <- parse_commands_fuel_enough.
  apply (parse_commands_fuel_stable (length body)); [reflexivity | lia | lia].
Qed.

(** Without a loop header [parse_commands] is [parse_commands_no_loops]. *)
Lemma parse_commands_no_header (body : text) :
  re_search loop_re body = None ->
  parse_commands ast_parse body (Some env)
  = parse_commands_no_loops ast_parse body env.
Proof. intros H. unfold parse_commands. simpl. rewrite H. reflexivity. Qed.

(** C2. Let the first loop header of [body] be the match [m], let the
    brace it ends with be closed at [close_brace], and let the count
    evaluate to the integer [repeat].  Then [body] is the text before the
    header, the header, the inner region, the closing brace and the text
    after it; for a count that is not negative the result of
    [parse_commands] is the result for the text before, then the result for
    the inner region [repeat] times, then the result for the text after (an
    exception of one of the three being passed on), which for [repeat = 0]
    leaves no token of the inner region; and a negative count raises the
    invalid-repeat error. *)
Theorem parse_commands_unrolls (body : text) (m : re_match)
    (close_brace : nat) (v : float) (repeat : Z) :
  re_search loop_re body = Some m ->
  find_matching_brace_slow body (m_end m - 1) = inr close_brace ->
  parse_value ast_parse (group m 1) env = inr v ->
  int_of_float v = inr repeat ->
  body = take (m_start m) body ++ m_group0 m
         ++ slice body (m_end m) close_brace ++ [rbrace]
         ++ drop (close_brace + 1) body
  /\ ((0 <= repeat)%Z ->
      parse_commands ast_parse body (Some env)
      = (cmds_before ← parse_commands ast_parse (take (m_start m) body) (Some env);
         inner_cmds ← parse_commands ast_parse
                        (slice body (m_end m) close_brace) (Some env);
         cmds_after ← parse_commands ast_parse
                        (drop (close_brace + 1) body) (Some env);
         ok (cmds_before ++ concat (replicate (Z.to_nat repeat) inner_cmds)
               ++ cmds_after)))
  /\ (repeat = 0%Z ->
      parse_commands ast_parse body (Some env)
      = (cmds_before ← parse_commands ast_parse (take (m_start m) body) (Some env);
         _ ← parse_commands ast_parse (slice body (m_end m) close_brace) (Some env);
         cmds_after ← parse_commands ast_parse
                        (drop (close_brace + 1) body) (Some env);
         ok (cmds_before ++ cmds_after)))
  /\ ((repeat < 0)%Z ->
      parse_commands ast_parse body (Some env) = inl (InvalidLoopRepeat repeat)).
Proof.
  intros Hm Hcb Hv Hr.
  destruct (loop_header_brace body m Hm) as (Hse & Hlen & Hfind & Hopen).
  destruct (find_matching_brace_slow_bounds _ _ _ Hcb) as [Hb Hclose].
  assert (Hne : close_brace <> m_end m - 1).
  { intros ->. rewrite Hopen in Hclose. discriminate. }
  assert (Hend : m_end m - 1 + 1 = m_end m) by lia.
  split.
  { apply re_search_sound in Hm as (Hbody & _ & He & _).
    assert (Htk : take (m_end m) body = take (m_start m) body ++ m_group0 m).
    { rewrite Hbody at 1. rewrite app_assoc, take_app_length'; [reflexivity|].
      rewrite length_app, length_take. lia. }
    assert (Htc : take close_brace body
                  = take (m_start m) body ++ m_group0 m
                    ++ slice body (m_end m) close_brace).
    { unfold slice. rewrite app_assoc, <- Htk, take_take_drop. f_equal. lia. }
    transitivity (take close_brace body ++ rbrace :: drop (S close_brace) body).
    - symmetry. apply take_drop_middle. assumption.
    - rewrite Htc, <- !app_assoc. simpl.
      replace (S close_brace) with (close_brace + 1) by lia. reflexivity. }
  assert (Hunfold :
    parse_commands ast_parse body (Some env)
    = if (repeat <? 0)%Z then inl (InvalidLoopRepeat repeat)
      else
        (cmds_before ← parse_commands ast_parse (take (m_start m) body) (Some env);
         inner_cmds ← parse_commands ast_parse
                        (slice body (m_end m) close_brace) (Some env);
         cmds_after ← parse_commands ast_parse
                        (drop (close_brace + 1) body) (Some env);
         ok (cmds_before ++ concat (replicate (Z.to_nat repeat) inner_cmds)
               ++ cmds_after))).
  { unfold parse_commands at 1. simpl.
    rewrite Hm, Hfind, Hcb. simpl. rewrite Hv. simpl. rewrite Hr. simpl.
    destruct (repeat <? 0)%Z; [reflexivity|].
    rewrite Hend.
    rewrite !parse_commands_fuel_any.
    - simpl.
      destruct (parse_commands ast_parse (take (m_start m) body) (Some env));
        simpl; [reflexivity|].
      destruct (parse_commands ast_parse (slice body (m_end m) close_brace) (Some env));
        simpl; [reflexivity|].
      destruct (parse_commands ast_parse (drop (close_brace + 1) body) (Some env));
        reflexivity.
    - rewrite length_drop. lia.
    - unfold slice. rewrite length_take, length_drop. lia.
    - rewrite length_take. lia. }
  split; [|split].
  - intros Hpos. rewrite Hunfold.
    destruct (Z.ltb_spec repeat 0); [lia | reflexivity].
  - intros ->. rewrite Hunfold. simpl.
    destruct (parse_commands ast_parse (take (m_start m) body) (Some env));
      simpl; [reflexivity|].
    destruct (parse_commands ast_parse (slice body (m_end m) close_brace) (Some env));
      simpl; [reflexivity|].
    destruct (parse_commands ast_parse (drop (close_brace + 1) body) (Some env));
      reflexivity.
  - intros Hneg. rewrite Hunfold.
    destruct (Z.ltb_spec repeat 0); [reflexivity | lia].
Qed.

End UnrollingFacts.

(** [loop_body]: the header is found at index 19, its brace is closed at
    index 55 and the count is 2. *)
Lemma parse_commands_unrolls_witness :
  re_search loop_re loop_body = Some loop_match
  /\ find_matching_brace_slow loop_body (m_end loop_match - 1) = inr 55
  /\ parse_commands py_parse loop_body (Some ∅)
     = (cmds_before ← parse_commands py_parse (take 19 loop_body) (Some ∅);
        inner_cmds ← parse_commands py_parse (slice loop_body 34 55) (Some ∅);
        cmds_after ← parse_commands py_parse (drop 56 loop_body) (Some ∅);
        ok (cmds_before ++ concat (replicate 2 inner_cmds) ++ cmds_after)).
Proof.
  assert (Hm : re_search loop_re loop_body = Some loop_match)
    by (vm_compute; reflexivity).
  assert (Hcb : find_matching_brace_slow loop_body (m_end loop_match - 1) = inr 55)
    by (vm_compute; reflexivity).
  split; [exact Hm|]. split; [exact Hcb|].
  refine (proj1 (proj2 (parse_commands_unrolls py_parse ∅ loop_body loop_match
                          55 2%float 2%Z Hm Hcb _ _)) _).
  - vm_compute. reflexivity.
  - vm_compute. reflexivity.
  - lia.
Defined.

Lemma parse_commands_loop_body :
  parse_commands py_parse loop_body None
  = inr ["--physics"; "none"; "--step"; "0.5";
         "--physics"; "none"; "--step"; "0.25";
         "--physics"; "none"; "--step"; "0.25";
         "--physics"; "none"; "--step"; "1.0"].
Proof. vm_compute. reflexivity. Qed.

(** ** Matches in textual order *)



(** *** The stable sort *)

Lemma insert_by_offset_perm x l : insert_by_offset x l ≡ₚ x :: l.
Proof.
  induction l as [|y l IH]; simpl; [reflexivity|].
  destruct (fst x <=? fst y); [reflexivity|].
  rewrite IH. apply perm_swap.
Qed.

Lemma sort_by_offset_perm l : sort_by_offset l ≡ₚ l.
Proof.
  induction l as [|x l IH]; simpl; [reflexivity|].
  rewrite insert_by_offset_perm, IH. reflexivity.
Qed.



#[local] Instance offset_le_trans : Transitive offset_le.
Proof. intros x y z. unfold offset_le. lia. Qed.

#[local] Instance offset_lt_antisymm : AntiSymm (=) offset_lt.
Proof. intros x y. unfold offset_lt. lia. Qed.



(** ** No two patterns match at one offset *)


Lemma lstrip_all_in (w t : text) :
  all_in py_isspace w -> stops py_isspace t -> lstrip (w ++ t) = t.
Proof.
  intros Hw Ht. induction Hw as [|x w Hx Hw IH]; simpl.
  - destruct t as [|c t]; simpl; [reflexivity|]. simpl in Ht. rewrite Ht. reflexivity.
  - rewrite Hx. exact IH.
Qed.

Lemma idc_not_space (x : ascii) : is_idc x = true -> py_isspace x = false.
Proof.
  destruct x as [[] [] [] [] [] [] [] []]; vm_compute; congruence.
Qed.



Lemma S_T (s : string) : S_ (T s) = s.
Proof. apply string_of_list_ascii_of_string. Qed.

(** *** The words of the building blocks *)












(** *** The rows by shape *)







(** *** The rows of the table *)

Lemma ident_start_idc (x : ascii) :
  class_mem ident_start x = true -> is_idc x = true.
Proof.
  unfold is_idc. simpl. intros H.
  apply orb_true_iff in H as [H|H].
  - rewrite H. reflexivity.
  - rewrite H. rewrite !orb_true_r. reflexivity.
Qed.










(** ** The compiled tokens follow the text *)




Section OrderFacts.

Variable ast_parse : text -> result py_expr.






End OrderFacts.


(* ===================================================================== *)
(** * Further properties of the recorder *)

(** ** The scanners *)

(** X1. Whatever the start index, an index returned by the exact scanner
    lies in the text at or after the start and holds a closing brace; a
    start at or past the end of the text raises. *)
Theorem find_matching_brace_slow_in_text (t : text) (open_index : nat) :
  (forall r, find_matching_brace_slow t open_index = inr r ->
             open_index <= r < length t /\ t !! r = Some rbrace)
  /\ (length t <= open_index ->
      find_matching_brace_slow t open_index = inl UnbalancedBracesSlow).
Proof.
  split.
  - intros r. apply find_matching_brace_slow_bounds.
  - intros H. unfold find_matching_brace_slow. rewrite drop_ge by exact H.
    reflexivity.
Qed.

(** X2. When the text from [open_index] on fits in one chunk, the chunked
    scanner and the exact scanner agree: one returns an index exactly when
    the other returns it, and one raises exactly when the other does. *)
Theorem chunked_scanner_agrees_within_chunk (t : text) (open_index : nat) :
  length t - open_index <= chunk_size ->
  (forall r, find_matching_brace t open_index = inr r
             <-> find_matching_brace_slow t open_index = inr r)
  /\ ((exists e, find_matching_brace t open_index = inl e)
      <-> (exists e, find_matching_brace_slow t open_index = inl e)).
Proof.
  intros H. pose proof (find_matching_brace_single_chunk t open_index H) as Hs.
  destruct (find_matching_brace t open_index) as [e|r0]; rewrite Hs; split.
  - intros r. split; discriminate.
  - split; intros _; eauto.
  - intros r. split; intros [= ->]; reflexivity.
  - split; intros [e He]; discriminate.
Qed.

Lemma chunked_scanner_agrees_within_chunk_witness :
  length (rust "{ '{' }") - 0 <= chunk_size
  /\ (find_matching_brace (rust "{ '{' }") 0 = inr 6
      <-> find_matching_brace_slow (rust "{ '{' }") 0 = inr 6).
Proof.
  assert (H : length (rust "{ '{' }") - 0 <= chunk_size) by (vm_compute; lia).
  split; [exact H|].
  exact (proj1 (chunked_scanner_agrees_within_chunk (rust "{ '{' }") 0 H) 6).
Defined.

(** X3. On every text an index returned by the chunked scanner is the exact
    scanner's index, and the chunked scanner raises whenever the exact one
    does. *)
Theorem chunked_scanner_index_is_exact (t : text) (open_index : nat) :
  (forall r, find_matching_brace t open_index = inr r ->
             find_matching_brace_slow t open_index = inr r)
  /\ (forall e, find_matching_brace_slow t open_index = inl e ->
                exists e', find_matching_brace t open_index = inl e').
Proof.
  split.
  - intros r. apply find_matching_brace_index_is_slow.
  - intros e He.
    destruct (find_matching_brace t open_index) as [e'|r] eqn:Hf; [eauto|].
    apply find_matching_brace_index_is_slow in Hf. congruence.
Qed.

(** The characters that [strip_go] keeps, in both string states, are the
    characters of the lexical view outside literals. *)
Lemma strip_go_view (n : nat) :
  forall s, length s <= n ->
    strip_go s false false = omap id (code_view s)
    /\ strip_go s true false = omap id (lit_view s).
Proof.
  induction n as [|n IH]; intros s Hlen.
  - destruct s; [split; reflexivity | simpl in Hlen; lia].
  - destruct s as [|c s]; [split; reflexivity|]. simpl in Hlen.
    assert (Hs : length s <= n) by lia.
    destruct (IH s Hs) as [Hc Hl]. split; simpl.
    + destruct (chr_eqb c dquote); simpl; [exact Hl | f_equal; exact Hc].
    + destruct (chr_eqb c backslash).
      * destruct s as [|c2 s2]; [reflexivity|]. simpl.
        apply IH. simpl in Hs. lia.
      * destruct (chr_eqb c dquote); simpl; assumption.
Qed.

Lemma strip_go_no_quote (s : text) :
  forall in_str escape, Forall (fun c => c <> dquote) (strip_go s in_str escape).
Proof.
  induction s as [|c s IH]; intros in_str escape; simpl; [constructor|].
  destruct in_str.
  - destruct escape; [apply IH|].
    destruct (chr_eqb c backslash); [apply IH|].
    destruct (chr_eqb c dquote); apply IH.
  - destruct (chr_eqb c dquote) eqn:Hq; [apply IH|].
    constructor; [|apply IH].
    intros ->. unfold chr_eqb in Hq. rewrite Ascii.eqb_refl in Hq. discriminate.
Qed.

Lemma strip_go_sublist (s : text) :
  forall in_str escape, sublist (strip_go s in_str escape) s.
Proof.
  induction s as [|c s IH]; intros in_str escape; simpl; [constructor|].
  destruct in_str.
  - destruct escape; [apply sublist_cons, IH|].
    destruct (chr_eqb c backslash); [apply sublist_cons, IH|].
    destruct (chr_eqb c dquote); apply sublist_cons, IH.
  - destruct (chr_eqb c dquote); [apply sublist_cons, IH|].
    apply sublist_skip, IH.
Qed.

Lemma strip_go_quote_free (s : text) :
  Forall (fun c => c <> dquote) s -> strip_go s false false = s.
Proof.
  induction 1 as [|c s Hc _ IH]; simpl; [reflexivity|].
  destruct (chr_eqb c dquote) eqn:Hq.
  - apply chr_eqb_eq in Hq. contradiction.
  - rewrite IH. reflexivity.
Qed.

(** X4. [strip_rust_strings_for_brace_count] keeps exactly the characters
    that the exact scanner reads outside string literals, in their order:
    the result is a subsequence of the text, holds no double quote, and is
    left unchanged by a second pass. *)
Theorem strip_rust_strings_keeps_code (s : text) :
  strip_rust_strings_for_brace_count s = omap id (code_view s)
  /\ sublist (strip_rust_strings_for_brace_count s) s
  /\ Forall (fun c => c <> dquote) (strip_rust_strings_for_brace_count s)
  /\ strip_rust_strings_for_brace_count (strip_rust_strings_for_brace_count s)
     = strip_rust_strings_for_brace_count s.
Proof.
  unfold strip_rust_strings_for_brace_count.
  split; [apply (strip_go_view (length s) s (le_n _))|].
  split; [apply strip_go_sublist|].
  split; [apply strip_go_no_quote|].
  apply strip_go_quote_free, strip_go_no_quote.
Qed.

(** ** Compilation errors *)

Lemma compile_all_outcome (fn : re_match -> result (list string))
    (ms : list re_match) :
  match compile_all fn ms with
  | inr xs => Forall (fun m => exists ts, fn m = inr ts) ms
  | inl e =>
      exists ms1 m ms2 cause,
        ms = ms1 ++ m :: ms2
        /\ Forall (fun m => exists ts, fn m = inr ts) ms1
        /\ fn m = inl cause
        /\ e = FailedToParse (m_start m) (S_ (m_group0 m)) cause
  end.
Proof.
  induction ms as [|m ms IH]; simpl; [constructor|].
  unfold compile_match. destruct (fn m) as [cause|ts] eqn:Hfn; simpl.
  - exists [], m, ms, cause. repeat split; auto.
  - destruct (compile_all fn ms) as [e|xs]; simpl.
    + destruct IH as (ms1 & m' & ms2 & cause & -> & Hok & Hf & ->).
      exists (m :: ms1), m', ms2, cause. repeat split; auto.
      constructor; [eauto | assumption].
    + constructor; [eauto | assumption].
Qed.

Lemma pool_matches_outcome (pats : list pattern) (body : text) :
  match pool_matches pats body with
  | inr xs =>
      Forall (fun pf => Forall (fun m => exists ts, snd pf m = inr ts)
                               (re_finditer (fst pf) body)) pats
  | inl e =>
      exists pf m cause,
        pf ∈ pats /\ m ∈ re_finditer (fst pf) body
        /\ snd pf m = inl cause
        /\ e = FailedToParse (m_start m) (S_ (m_group0 m)) cause
  end.
Proof.
  induction pats as [|[pat fn] pats IH]; simpl; [constructor|].
  pose proof (compile_all_outcome fn (re_finditer pat body)) as Hc.
  destruct (compile_all fn (re_finditer pat body)) as [e|xs]; simpl.
  - destruct Hc as (ms1 & m & ms2 & cause & Heq & _ & Hf & ->).
    exists (pat, fn), m, cause. simpl. repeat split; auto; [left|].
    rewrite Heq. apply elem_of_app. right. left.
  - destruct (pool_matches pats body) as [e|ys]; simpl.
    + destruct IH as (pf & m & cause & Hin & Hm & Hf & ->).
      exists pf, m, cause. repeat split; auto. right. assumption.
    + constructor; assumption.
Qed.

(** X5. [parse_commands_no_loops] returns tokens only when the token
    builder succeeds on every match of every pattern of the table; when one
    fails, the result is the failed-to-parse error that carries the offset
    and the text of such a match together with the builder's own error.  No
    match is dropped silently. *)
Theorem parse_commands_no_loops_fails_loudly
    (ast_parse : text -> result py_expr) (body : text) (env : const_env) :
  (forall toks,
      parse_commands_no_loops ast_parse body env = inr toks ->
      Forall (fun pf => Forall (fun m => exists ts, snd pf m = inr ts)
                               (re_finditer (fst pf) body))
             (patterns ast_parse env))
  /\ (forall e,
         parse_commands_no_loops ast_parse body env = inl e ->
         exists pf m cause,
           pf ∈ patterns ast_parse env /\ m ∈ re_finditer (fst pf) body
           /\ snd pf m = inl cause
           /\ e = FailedToParse (m_start m) (S_ (m_group0 m)) cause).
Proof.
  unfold parse_commands_no_loops, compile_with.
  pose proof (pool_matches_outcome (patterns ast_parse env) body) as H.
  destruct (pool_matches (patterns ast_parse env) body) as [e|xs]; simpl; split.
  - intros toks. discriminate.
  - intros e' [= <-]. exact H.
  - intros toks _. exact H.
  - intros e. discriminate.
Qed.

(** X6. In a body with a loop header, an unbalanced block, a count that
    does not evaluate or a count that is not a finite number ends
    [parse_commands] with that very exception, whatever the three regions
    hold: the count is settled before any region is compiled. *)
Theorem parse_commands_header_errors (ast_parse : text -> result py_expr)
    (env : const_env) (body : text) (m : re_match) :
  re_search loop_re body = Some m ->
  (forall e, find_matching_brace_slow body (m_end m - 1) = inl e ->
             parse_commands ast_parse body (Some env) = inl e)
  /\ (forall close_brace e,
         find_matching_brace_slow body (m_end m - 1) = inr close_brace ->
         parse_value ast_parse (group m 1) env = inl e ->
         parse_commands ast_parse body (Some env) = inl e)
  /\ (forall close_brace v e,
         find_matching_brace_slow body (m_end m - 1) = inr close_brace ->
         parse_value ast_parse (group m 1) env = inr v ->
         int_of_float v = inl e ->
         parse_commands ast_parse body (Some env) = inl e).
Proof.
  intros Hm. destruct (loop_header_brace body m Hm) as (_ & _ & Hfind & _).
  unfold parse_commands. simpl. rewrite Hm, Hfind.
  split; [|split].
  - intros e ->. reflexivity.
  - intros cb e -> ->. reflexivity.
  - intros cb v e -> -> ->. reflexivity.
Qed.

(** In [unbound_loop_body] the count [n] is bound nowhere: the error is the
    unknown variable of the header, not the one of the call before it. *)
Lemma parse_commands_header_errors_witness :
  re_search loop_re unbound_loop_body = Some unbound_loop_match
  /\ parse_commands py_parse unbound_loop_body (Some ∅)
     = inl (UnknownVariable "n").
Proof.
  assert (Hm : re_search loop_re unbound_loop_body = Some unbound_loop_match)
    by (vm_compute; reflexivity).
  split; [exact Hm|].
  refine (proj1 (proj2 (parse_commands_header_errors py_parse ∅
                          unbound_loop_body unbound_loop_match Hm)) 55 _ _ _).
  - vm_compute. reflexivity.
  - vm_compute. reflexivity.
Defined.

(** ** Deduplication and the scan of the corpus *)

Lemma dict_set_fresh {K V : Type} `{EqDecision K} (k : K) (v : V)
    (d : list (K * V)) :
  k ∉ d.*1 -> dict_set k v d = d ++ [(k, v)].
Proof.
  induction d as [|[k0 v0] d IH]; simpl; intros Hk; [reflexivity|].
  apply not_elem_of_cons in Hk as [Hne Hk].
  destruct (decide (k = k0)); [contradiction|]. rewrite IH by assumption.
  reflexivity.
Qed.

Lemma dict_set_keys_order {K V : Type} `{EqDecision K} (k : K) (v : V)
    (d : list (K * V)) :
  (dict_set k v d).*1 = if decide (k ∈ d.*1) then d.*1 else d.*1 ++ [k].
Proof.
  induction d as [|[k0 v0] d IH].
  - destruct (decide (k ∈ ([] : list (K * V)).*1)) as [H|_];
      [inversion H | reflexivity].
  - change (((k0, v0) :: d).*1) with (k0 :: d.*1).
    cbn [dict_set].
    destruct (decide (k = k0)) as [->|Hne].
    + destruct (decide (k0 ∈ k0 :: d.*1)) as [_|H]; [reflexivity|].
      exfalso. apply H. left.
    + change (((k0, v0) :: dict_set k v d).*1)
        with (k0 :: (dict_set k v d).*1).
      rewrite IH.
      destruct (decide (k ∈ d.*1)) as [Hin|Hnin];
        destruct (decide (k ∈ k0 :: d.*1)) as [H|H]; try reflexivity.
      * exfalso. apply H. right. assumption.
      * apply elem_of_cons in H as [?|?]; contradiction.
Qed.

Lemma unique_keys_order (scs : list Scenario) :
  forall d : list (scenario_key * Scenario),
    (foldl (fun d s => dict_set (key_of s) s d) d scs).*1
    = foldl (fun acc k => if decide (k ∈ acc) then acc else acc ++ [k])
            d.*1 (map key_of scs).
Proof.
  induction scs as [|s scs IH]; intros d; simpl; [reflexivity|].
  rewrite IH, dict_set_keys_order. reflexivity.
Qed.

Lemma unique_distinct (scs : list Scenario) :
  forall d : list (scenario_key * Scenario),
    NoDup (d.*1 ++ map key_of scs) ->
    foldl (fun d s => dict_set (key_of s) s d) d scs
    = d ++ map (fun s => (key_of s, s)) scs.
Proof.
  induction scs as [|s scs IH]; intros d Hnd; simpl.
  - rewrite app_nil_r. reflexivity.
  - assert (Hk : key_of s ∉ d.*1).
    { apply NoDup_app in Hnd as (_ & Hdis & _). intros Hin.
      apply (Hdis _ Hin). left. }
    rewrite dict_set_fresh by assumption. rewrite IH.
    + rewrite <- app_assoc. reflexivity.
    + rewrite fmap_app. simpl. rewrite <- app_assoc. simpl. exact Hnd.
Qed.

Lemma dedup_keys_NoDup (scs : list Scenario) : NoDup (map key_of (dedup scs)).
Proof.
  unfold dedup. destruct (unique_invariant scs) as [Hnd Hinv]. simpl in *.
  set (d := foldl _ _ scs) in *.
  assert (Hmap : map key_of (map snd d) = d.*1).
  { rewrite <- list_fmap_compose. apply list_fmap_ext.
    intros i [k v] Hkv. simpl. symmetry. apply Hinv.
    apply list_elem_of_lookup. exists i. assumption. }
  rewrite Hmap. assumption.
Qed.

(** X7. Deduplication leaves a list whose keys are pairwise distinct as it
    is, order included; hence deduplicating twice is deduplicating once. *)
Theorem dedup_fixes_distinct_keys :
  (forall scs, NoDup (map key_of scs) -> dedup scs = scs)
  /\ (forall scs, dedup (dedup scs) = dedup scs).
Proof.
  assert (H : forall scs, NoDup (map key_of scs) -> dedup scs = scs).
  { intros scs Hnd. unfold dedup. rewrite (unique_distinct scs []) by exact Hnd.
    simpl. rewrite <- list_fmap_compose. apply list_fmap_id. }
  split; [exact H|]. intros scs. apply H, dedup_keys_NoDup.
Qed.

(** X8. The scenarios kept by the deduplication stand in the order in which
    their keys first occur in the scan (while the scenario kept for a key is
    the last one scanned with it). *)
Theorem dedup_keys_in_first_occurrence_order (scs : list Scenario) :
  map key_of (dedup scs) = first_occurrences (map key_of scs).
Proof.
  unfold dedup, first_occurrences.
  destruct (unique_invariant scs) as [_ Hinv]. simpl in Hinv.
  transitivity
    ((foldl (fun d s => dict_set (key_of s) s d)
            ([] : list (scenario_key * Scenario)) scs).*1);
    [|exact (unique_keys_order scs [])].
  set (d := foldl _ _ scs) in *.
  cbv zeta. rewrite <- list_fmap_compose. apply list_fmap_ext.
  intros i [k v] Hkv. simpl. symmetry. apply Hinv.
  apply list_elem_of_lookup. exists i. assumption.
Qed.

(** X9. [extract_scenarios] is all or nothing: it returns scenarios only
    when every test function found was scanned without an exception, and the
    list is then the deduplication of the scenarios of the tests that were
    not skipped, in scan order; otherwise the result is the exception of the
    first test whose scan raised, and no scenario at all. *)
Theorem extract_scenarios_all_or_nothing (ast_parse : text -> result py_expr)
    (text_ : text) :
  (forall scs,
      extract_scenarios ast_parse text_ = inr scs ->
      Forall (fun m => exists o, scan_test ast_parse text_ m = inr o)
             (re_finditer fn_re text_)
      /\ scs = dedup (omap (fun m => match scan_test ast_parse text_ m with
                                     | inr o => o
                                     | inl _ => None
                                     end) (re_finditer fn_re text_)))
  /\ (forall e,
         extract_scenarios ast_parse text_ = inl e ->
         exists ms1 m ms2,
           re_finditer fn_re text_ = ms1 ++ m :: ms2
           /\ Forall (fun m => exists o, scan_test ast_parse text_ m = inr o) ms1
           /\ scan_test ast_parse text_ m = inl e).
Proof.
  unfold extract_scenarios.
  pose proof (collect_scenarios_outcome ast_parse text_ (re_finditer fn_re text_))
    as H.
  destruct (collect_scenarios ast_parse text_ (re_finditer fn_re text_))
    as [e|scs0]; simpl; split.
  - intros scs. discriminate.
  - intros e' [= <-]. exact H.
  - intros scs [= <-]. destruct H as [Hok ->]. split; [exact Hok | reflexivity].
  - intros e. discriminate.
Qed.

(** ** What the groups of a match hold *)

Lemma rmatch_captures (r : regex) :
  forall st k res,
    rmatch r st k = Some res ->
    exists w st' new,
      m_rest st = w ++ m_rest st'
      /\ m_pos st' = m_pos st + length w
      /\ lang r w
      /\ m_groups st' = new ++ m_groups st
      /\ Forall (fun p => captures r p.1 p.2) new
      /\ (forall n, always_captures r n = true -> n ∈ new.*1)
      /\ k st' = Some res.
Proof.
  induction r as [|cl|s|r1 IH1 r2 IH2|r1 IH1 r2 IH2|cl one greedy|r IH|n r IH| |];
    intros st k res; simpl.
  - intros H. exists [], st, []. rewrite Nat.add_0_r.
    repeat split; auto. discriminate.
  - destruct (m_rest st) as [|x rest'] eqn:Hrest; [discriminate|].
    destruct (class_mem cl x) eqn:Hx; [|discriminate]. intros H.
    exists [x], (MState (Some x) rest' (S (m_pos st)) (m_groups st)), [].
    simpl. repeat split; [lia | exists x; auto | constructor | discriminate
                          | assumption].
  - destruct (lit_go (T s) (m_prev st) (m_rest st) (m_pos st))
      as [[[prev' rest'] pos']|] eqn:Hlit; [|discriminate].
    apply lit_go_sound in Hlit as [Hrest ->]. intros H.
    exists (T s), (MState prev' rest' (m_pos st + length (T s)) (m_groups st)), [].
    simpl. repeat split; auto. discriminate.
  - intros H.
    apply IH1 in H as (w1 & st1 & n1 & Hr1 & Hp1 & Hl1 & Hg1 & Hc1 & Ha1 & H).
    apply IH2 in H as (w2 & st2 & n2 & Hr2 & Hp2 & Hl2 & Hg2 & Hc2 & Ha2 & H).
    exists (w1 ++ w2), st2, (n2 ++ n1).
    rewrite Hr1, Hr2, Hp2, Hp1, Hg2, Hg1, length_app, <- !app_assoc.
    repeat split; [lia | exists w1, w2; auto | | | assumption].
    + apply Forall_app. split; (eapply Forall_impl; [eassumption|]);
        intros p Hp; simpl; auto.
    + intros n Hn. apply orb_true_iff in Hn. rewrite fmap_app, elem_of_app.
      destruct Hn; auto.
  - assert (Hboth : forall ri, (ri = r1 \/ ri = r2) ->
              (exists w st' new,
                  m_rest st = w ++ m_rest st'
                  /\ m_pos st' = m_pos st + length w
                  /\ lang ri w
                  /\ m_groups st' = new ++ m_groups st
                  /\ Forall (fun p => captures ri p.1 p.2) new
                  /\ (forall n, always_captures ri n = true -> n ∈ new.*1)
                  /\ k st' = Some res) ->
              exists w st' new,
                m_rest st = w ++ m_rest st'
                /\ m_pos st' = m_pos st + length w
                /\ (lang r1 w \/ lang r2 w)
                /\ m_groups st' = new ++ m_groups st
                /\ Forall (fun p => captures r1 p.1 p.2 \/ captures r2 p.1 p.2) new
                /\ (forall n, always_captures r1 n && always_captures r2 n = true
                              -> n ∈ new.*1)
                /\ k st' = Some res).
    { intros ri Hri (w & st' & new & ? & ? & Hl & ? & Hc & Ha & ?).
      exists w, st', new. repeat split; auto.
      - destruct Hri; subst ri; auto.
      - eapply Forall_impl; [exact Hc|]. intros p Hp.
        destruct Hri; subst ri; auto.
      - intros n Hn. apply andb_true_iff in Hn as [? ?]. apply Ha.
        destruct Hri; subst ri; assumption. }
    destruct (rmatch r1 st k) as [res'|] eqn:H1.
    + intros [= <-]. apply (Hboth r1); [auto|]. apply IH1. assumption.
    + intros H2. apply (Hboth r2); [auto|]. apply IH2. assumption.
  - intros H. apply rep_go_sound in H as (w & prev' & rest' & Hr & Hall & Hne & Hk).
    exists w, (MState prev' rest' (m_pos st + length w) (m_groups st)), [].
    simpl. repeat split; auto. discriminate.
  - destruct (rmatch r st k) as [res'|] eqn:H1.
    + intros [= <-]. apply IH in H1 as (w & st' & new & ? & ? & ? & ? & ? & ? & ?).
      exists w, st', new. repeat split; auto. discriminate.
    + intros H. exists [], st, []. rewrite Nat.add_0_r.
      repeat split; auto. discriminate.
  - intros H. apply IH in H as (w & st' & new & Hr & Hp & Hl & Hg & Hc & Ha & Hk).
    exists w, (MState (m_prev st') (m_rest st') (m_pos st')
                 ((n, take (m_pos st' - m_pos st) (m_rest st)) :: m_groups st')),
      ((n, w) :: new).
    simpl. repeat split; [exact Hr | exact Hp | exact Hl | | | | ].
    + rewrite Hg, Hp, Hr.
      replace (m_pos st + length w - m_pos st) with (length w) by lia.
      rewrite take_app_length. reflexivity.
    + constructor; [left; split; [reflexivity | exact Hl]|].
      eapply Forall_impl; [exact Hc|]. intros p Hp'. right. exact Hp'.
    + intros n' Hn. apply orb_true_iff in Hn as [Hn|Hn].
      * apply Nat.eqb_eq in Hn. subst n'. left.
      * right. apply Ha. exact Hn.
    + rewrite Hp, Hr in Hk.
      replace (m_pos st + length w - m_pos st) with (length w) in Hk by lia.
      rewrite take_app_length in Hk. rewrite Hp, Hr.
      replace (m_pos st + length w - m_pos st) with (length w) by lia.
      rewrite take_app_length. exact Hk.
  - destruct (at_boundary st); [|discriminate]. intros H.
    exists [], st, []. rewrite Nat.add_0_r. repeat split; auto. discriminate.
  - destruct (m_rest st) eqn:Hrest; [|discriminate]. intros H.
    exists [], st, []. rewrite Nat.add_0_r, Hrest.
    repeat split; auto. discriminate.
Qed.

Lemma assoc_group_captures (r : regex) (n : nat) (gs : list (nat * text)) :
  Forall (fun p => captures r p.1 p.2) gs ->
  n ∈ gs.*1 ->
  captures r n (assoc_group n gs).
Proof.
  induction gs as [|[i t] gs IH]; simpl; intros Hall Hin; [inversion Hin|].
  apply Forall_cons in Hall as [Hit Hall].
  destruct (i =? n) eqn:Hi.
  - apply Nat.eqb_eq in Hi. subst i. exact Hit.
  - apply Nat.eqb_neq in Hi. apply elem_of_cons in Hin as [->|Hin];
      [contradiction|]. apply IH; assumption.
Qed.

(** A group that takes part in every match of [r] holds, in a match object
    of [r], a word of the sub-pattern it encloses. *)
Lemma match_of_group (r : regex) (m : re_match) (n : nat) :
  match_of r m -> always_captures r n = true -> captures r n (group m n).
Proof.
  intros (prev & rest & pos & Hm) Hn. unfold match_at in Hm.
  destruct (rmatch r (MState prev rest pos []) Some) as [st'|] eqn:H;
    [|discriminate].
  injection Hm as <-. unfold group. simpl.
  apply rmatch_captures in H
    as (w & st'' & new & _ & _ & _ & Hg & Hc & Ha & [= ->]).
  simpl in Hg. rewrite app_nil_r in Hg. rewrite Hg.
  apply assoc_group_captures; [exact Hc | apply Ha; exact Hn].
Qed.

Lemma search_from_match_of (r : regex) (rest : text) :
  forall prev pos m, search_from r prev rest pos = Some m -> match_of r m.
Proof.
  induction rest as [|x rest IH]; intros prev pos m; simpl.
  - destruct (match_at r prev [] pos) as [m'|] eqn:Hm; [|discriminate].
    intros [= <-]. exists prev, [], pos. exact Hm.
  - destruct (match_at r prev (x :: rest) pos) as [m'|] eqn:Hm.
    + intros [= <-]. exists prev, (x :: rest), pos. exact Hm.
    + apply IH.
Qed.

Lemma re_search_match_of (r : regex) (t : text) (m : re_match) :
  re_search r t = Some m -> match_of r m.
Proof. apply search_from_match_of. Qed.

Lemma finditer_from_match_of (r : regex) (rest : text) :
  forall prev pos skip, Forall (match_of r) (finditer_from r prev rest pos skip).
Proof.
  induction rest as [|x rest IH]; intros prev pos skip.
  - destruct skip; simpl; [|constructor].
    destruct (match_at r prev [] pos) as [m|] eqn:Hm; [|constructor].
    constructor; [|constructor]. exists prev, [], pos. exact Hm.
  - destruct skip as [|skip]; simpl; [|apply IH].
    destruct (match_at r prev (x :: rest) pos) as [m|] eqn:Hm; [|apply IH].
    constructor; [|apply IH]. exists prev, (x :: rest), pos. exact Hm.
Qed.

Lemma re_finditer_match_of (r : regex) (t : text) (m : re_match) :
  m ∈ re_finditer r t -> match_of r m.
Proof.
  intros Hm. pose proof (finditer_from_match_of r t None 0 0) as H.
  rewrite Forall_forall in H. apply H. exact Hm.
Qed.

Lemma lang_quoted_word (t : text) : lang quoted t -> quoted_word (S_ t).
Proof.
  intros [Hall Hne]. exists t. split; [reflexivity|].
  split; [apply Hne; reflexivity|].
  intros Hin. rewrite Forall_forall in Hall. apply Hall in Hin.
  vm_compute in Hin. discriminate.
Qed.

Lemma path_call_group (name_ : string) (m : re_match) :
  match_of (re_path_call name_) m -> quoted_word (S_ (group m 1)).
Proof.
  intros Hm. apply lang_quoted_word.
  apply (match_of_group _ _ 1) in Hm; [|reflexivity].
  cbn -[lang] in Hm. intuition.
Qed.

(** ** The fields of a scenario *)

Lemma dedup_subset (scs : list Scenario) (s : Scenario) :
  s ∈ dedup scs -> s ∈ scs.
Proof.
  unfold dedup. destruct (unique_invariant scs) as [_ Hinv]. simpl in Hinv.
  intros Hs. apply list_elem_of_fmap in Hs as ([k v] & -> & Hkv).
  apply Hinv in Hkv as [_ (pre & post & -> & _)]. simpl.
  apply elem_of_app. right. left.
Qed.

Lemma collect_scenarios_elem (ast_parse : text -> result py_expr)
    (text_ : text) (ms : list re_match) :
  forall scs s,
    collect_scenarios ast_parse text_ ms = inr scs -> s ∈ scs ->
    exists m, m ∈ ms /\ scan_test ast_parse text_ m = inr (Some s).
Proof.
  induction ms as [|m ms IH]; simpl; intros scs s.
  - intros [= <-] Hs. inversion Hs.
  - destruct (scan_test ast_parse text_ m) as [e|o] eqn:Hscan; simpl;
      [discriminate|].
    destruct (collect_scenarios ast_parse text_ ms) as [e|rest]; simpl;
      [discriminate|].
    intros [= <-] Hs.
    assert (Hrest : s ∈ rest ->
                    exists m0, m0 ∈ m :: ms
                               /\ scan_test ast_parse text_ m0 = inr (Some s)).
    { intros Hin. destruct (IH rest s eq_refl Hin) as (m0 & Hm0 & Hs0).
      exists m0. split; [right; assumption | assumption]. }
    destruct o as [s0|]; [|auto].
    apply elem_of_cons in Hs as [->|Hs]; [|auto].
    exists m. split; [left | assumption].
Qed.

Lemma fn_re_group (m : re_match) :
  match_of fn_re m ->
  exists w, group m 1 = T "oracle_" ++ w /\ w <> [] /\ all_in is_idc w.
Proof.
  intros Hm. apply (match_of_group _ _ 1) in Hm; [|reflexivity].
  assert (H : lang (Seq (Lit "oracle_") (Rep ident_char true true)) (group m 1))
    by (cbn -[lang] in Hm; intuition congruence).
  destruct H as (w1 & w & -> & -> & Hall & Hne).
  exists w. split; [reflexivity|]. split; [apply Hne; reflexivity | exact Hall].
Qed.

Lemma dump_pose_group (m : re_match) :
  match_of re_dump_pose m -> quoted_word (S_ (group m 1)).
Proof.
  intros Hm. apply lang_quoted_word.
  apply (match_of_group _ _ 1) in Hm; [|reflexivity].
  cbn -[lang] in Hm. intuition.
Qed.

Lemma quoted_word_cons (s : string) :
  quoted_word s -> exists c s', s = String c s'.
Proof.
  intros (t & -> & Hne & _). destruct t as [|c t]; [contradiction|].
  exists c, (S_ t). reflexivity.
Qed.

Lemma scan_test_fields (ast_parse : text -> result py_expr)
    (text_ : text) (m : re_match) (s : Scenario) :
  match_of fn_re m ->
  scan_test ast_parse text_ m = inr (Some s) ->
  (exists w, name s = S_ (T "oracle_" ++ w) /\ w <> [] /\ all_in is_idc w)
  /\ quoted_word (skeleton_rel s)
  /\ quoted_word (golden_file s)
  /\ forall slot,
       debug_slot s = Some slot ->
       quoted_word slot
       /\ exists cmds, commands s = cmds ++ ["--dump-slot-vertices"; slot].
Proof.
  intros Hm. unfold scan_test.
  destruct (str_find text_ lbrace (m_end m)) as [bo|]; [|discriminate].
  destruct (find_matching_brace_slow text_ bo) as [e|bc]; simpl; [discriminate|].
  set (body := slice text_ (bo + 1) bc).
  set (skel := match re_search (re_path_call "example_json_path") body with
               | Some sm => Some sm
               | None => re_search (re_path_call "example_json_path")
                                   (slice text_ (m_start m) bc)
               end).
  assert (Hskel : forall sm, skel = Some sm ->
                             match_of (re_path_call "example_json_path") sm).
  { subst skel. intros sm.
    destruct (re_search (re_path_call "example_json_path") body) eqn:E.
    - intros [= <-]. eapply re_search_match_of. exact E.
    - apply re_search_match_of. }
  destruct skel as [sm|]; [|discriminate].
  specialize (Hskel sm eq_refl).
  set (gold := match re_search (re_path_call "golden_path") body with
               | Some gm => (Some gm, false)
               | None =>
                   match re_search (re_path_call "golden_skel_path") body with
                   | Some gm => (Some gm, true)
                   | None => (None, false)
                   end
               end).
  assert (Hgold : forall gm b, gold = (Some gm, b) ->
                               exists name_, match_of (re_path_call name_) gm).
  { subst gold. intros gm b.
    destruct (re_search (re_path_call "golden_path") body) eqn:E1.
    - intros [= <- _]. eexists. eapply re_search_match_of. exact E1.
    - destruct (re_search (re_path_call "golden_skel_path") body) eqn:E2;
        [|discriminate].
      intros [= <- _]. eexists. eapply re_search_match_of. exact E2. }
  destruct gold as [[gm|] b]; [|discriminate].
  destruct (Hgold gm b eq_refl) as (gname & Hgm).
  set (dbgm := re_search re_dump_pose body).
  assert (Hdbg : forall dbg, dbgm = Some dbg -> match_of re_dump_pose dbg)
    by (intros dbg; apply re_search_match_of).
  destruct (parse_commands ast_parse body None) as [e|cmds]; simpl;
    [discriminate|].
  intros [= <-]. simpl.
  split.
  { destruct (fn_re_group m Hm) as (w & -> & Hw). exists w. auto. }
  split; [eapply path_call_group; exact Hskel|].
  split; [eapply path_call_group; exact Hgm|].
  intros slot. destruct dbgm as [dbg|]; [|discriminate].
  intros [= <-]. pose proof (dump_pose_group dbg (Hdbg dbg eq_refl)) as Hq.
  split; [exact Hq|].
  destruct (quoted_word_cons _ Hq) as (c & s' & ->). exists cmds. reflexivity.
Qed.

(** X10. Every scenario that [extract_scenarios] returns has a name made of
    [oracle_] and a non-empty run of identifier characters, a skeleton path
    and a golden file name that are not empty and hold no double quote, and,
    when it names a debug slot, a slot name of that kind too and a command
    list that ends with the dump-slot-vertices flag and the slot. *)
Theorem extract_scenarios_fields (ast_parse : text -> result py_expr)
    (text_ : text) (scs : list Scenario) (s : Scenario) :
  extract_scenarios ast_parse text_ = inr scs ->
  s ∈ scs ->
  (exists w, name s = S_ (T "oracle_" ++ w) /\ w <> [] /\ all_in is_idc w)
  /\ quoted_word (skeleton_rel s)
  /\ quoted_word (golden_file s)
  /\ forall slot,
       debug_slot s = Some slot ->
       quoted_word slot
       /\ exists cmds, commands s = cmds ++ ["--dump-slot-vertices"; slot].
Proof.
  unfold extract_scenarios.
  destruct (collect_scenarios ast_parse text_ (re_finditer fn_re text_))
    as [e|scs0] eqn:Hc; simpl; [discriminate|].
  intros [= <-] Hs. apply dedup_subset in Hs.
  destruct (collect_scenarios_elem _ _ _ _ _ Hc Hs) as (m & Hm & Hscan).
  apply re_finditer_match_of in Hm.
  exact (scan_test_fields ast_parse text_ m s Hm Hscan).
Qed.

Lemma extract_scenarios_fields_witness :
  extract_scenarios py_parse slot_corpus = inr [slot_scenario]
  /\ (exists w, name slot_scenario = S_ (T "oracle_" ++ w)
                /\ w <> [] /\ all_in is_idc w)
  /\ quoted_word (skeleton_rel slot_scenario)
  /\ quoted_word (golden_file slot_scenario)
  /\ forall slot,
       debug_slot slot_scenario = Some slot ->
       quoted_word slot
       /\ exists cmds,
            commands slot_scenario = cmds ++ ["--dump-slot-vertices"; slot].
Proof.
  assert (H : extract_scenarios py_parse slot_corpus = inr [slot_scenario])
    by (vm_compute; reflexivity).
  split; [exact H|].
  apply (extract_scenarios_fields py_parse slot_corpus [slot_scenario]
           slot_scenario H).
  left.
Defined.

(** ** Names of the constant environment *)

Lemma rep_go_all (cl : cclass) (gs : list (nat * text))
    (k : mstate -> option mstate) (w : text) :
  Forall (fun x => class_mem cl x = true) w ->
  (forall prev pos, is_Some (k (MState prev [] pos gs))) ->
  forall must prev pos,
    (must = true -> w <> []) ->
    is_Some (rep_go cl true gs k must prev w pos).
Proof.
  intros Hall Hk. induction Hall as [|x w Hx Hall IH]; intros must prev pos Hm.
  - simpl. destruct must; [exfalso; apply Hm; reflexivity | apply Hk].
  - simpl. rewrite Hx.
    destruct (IH false (Some x) (S pos)) as [res Hres]; [discriminate|].
    rewrite Hres. eexists. reflexivity.
Qed.

Lemma identifier_fullmatch (t : text) :
  lang identifier t -> re_fullmatch identifier t = true.
Proof.
  intros (w1 & w2 & -> & (x & -> & Hx) & Hall & _).
  unfold re_fullmatch. apply bool_decide_eq_true.
  unfold match_at, identifier.
  cbn [rmatch m_rest m_prev m_pos m_groups app]. rewrite Hx.
  cbn [m_rest m_prev m_pos m_groups].
  destruct (rep_go_all ident_char []
              (fun st' => match m_rest st' with [] => Some st' | _ => None end)
              w2 Hall) with (must := false) (prev := Some x) (pos := 1)
    as [res Hres].
  - intros prev pos. simpl. eexists. reflexivity.
  - discriminate.
  - rewrite Hres. eexists. reflexivity.
Qed.

Lemma py_strip_padded (pre t post : text) :
  all_in py_isspace pre -> all_in py_isspace post ->
  t <> [] -> stops py_isspace t -> stops py_isspace (rev t) ->
  py_strip (pre ++ t ++ post) = t.
Proof.
  intros Hpre Hpost Hne Hhead Hlast. unfold py_strip.
  rewrite lstrip_all_in; [|exact Hpre|].
  - rewrite rev_app_distr, lstrip_all_in; [apply rev_involutive| |exact Hlast].
    apply Forall_rev. exact Hpost.
  - destruct t as [|c t]; [contradiction|]. exact Hhead.
Qed.

Lemma stops_idc (t : text) : all_in is_idc t -> stops py_isspace t.
Proof.
  intros [|x t' Hx _]; simpl; [exact I|]. apply idc_not_space. exact Hx.
Qed.

Lemma lang_identifier_idc (t : text) :
  lang identifier t -> t <> [] /\ all_in is_idc t.
Proof.
  intros (w1 & w2 & -> & (x & -> & Hx) & Hall & _). split; [discriminate|].
  constructor; [apply ident_start_idc; exact Hx | exact Hall].
Qed.

Lemma let_group (m : re_match) :
  match_of re_let m -> lang identifier (group m 1).
Proof.
  intros Hm. apply (match_of_group _ _ 1) in Hm; [|reflexivity].
  cbn -[lang] in Hm. intuition congruence.
Qed.

(** X11. Every name of the environment that [extract_const_env] builds is
    an identifier, and [parse_value] resolves it, with or without blanks
    around it, to the value the environment holds: a constant bound in a
    body can be used as an argument in that body. *)
Theorem extract_const_env_names_resolve (ast_parse : text -> result py_expr)
    (body : text) (name_ : string) (v : float) :
  extract_const_env ast_parse body !! name_ = Some v ->
  re_fullmatch identifier (T name_) = true
  /\ forall pre post,
       all_in py_isspace pre -> all_in py_isspace post ->
       parse_value ast_parse (pre ++ T name_ ++ post)
                   (extract_const_env ast_parse body) = inr v.
Proof.
  intros Hlook.
  assert (Hid : lang identifier (T name_)).
  { unfold extract_const_env in Hlook.
    apply (env_fold_lookup ast_parse) in Hlook
      as [(ms1 & m & ms2 & Heq & [Hname _] & _)|[Hempty _]].
    - assert (Hm : m ∈ re_finditer re_let body)
        by (rewrite Heq; apply elem_of_app; right; left).
      apply re_finditer_match_of, let_group in Hm.
      rewrite <- Hname. unfold T, S_.
      rewrite list_ascii_of_string_of_list_ascii. exact Hm.
    - rewrite lookup_empty in Hempty. discriminate. }
  split; [apply identifier_fullmatch; exact Hid|].
  intros pre post Hpre Hpost. unfold parse_value.
  destruct (lang_identifier_idc _ Hid) as [Hne Hall].
  rewrite py_strip_padded;
    [|assumption|assumption|assumption|apply stops_idc; assumption
     |apply stops_idc, Forall_rev; assumption].
  rewrite identifier_fullmatch by exact Hid.
  rewrite S_T, Hlook. reflexivity.
Qed.

Lemma extract_const_env_names_resolve_witness :
  extract_const_env py_parse sample_body !! "dt" = Some (1 / 60)%float
  /\ re_fullmatch identifier (T "dt") = true
  /\ forall pre post,
       all_in py_isspace pre -> all_in py_isspace post ->
       parse_value py_parse (pre ++ T "dt" ++ post)
                   (extract_const_env py_parse sample_body) = inr (1 / 60)%float.
Proof.
  assert (H : extract_const_env py_parse sample_body !! "dt"
              = Some (1 / 60)%float) by (vm_compute; reflexivity).
  split; [exact H|].
  exact (extract_const_env_names_resolve py_parse sample_body "dt" _ H).
Defined.

(** ** The causes of a compilation error *)







(** ** The provenance files *)

(** *** Lines *)

Lemma splitlines_go_line (l : text) :
  single_line l ->
  forall s cur, splitlines_go (l ++ s) cur = splitlines_go s (rev l ++ cur).
Proof.
  induction 1 as [|c l Hc _ IH]; intros s cur; simpl; [reflexivity|].
  rewrite Hc, IH, <- app_assoc. reflexivity.
Qed.

Lemma newline_break : is_linebreak newline = true.
Proof. reflexivity. Qed.

Lemma splitlines_go_newline (s cur : text) :
  splitlines_go (newline :: s) cur = rev cur :: splitlines_go s [].
Proof. simpl. destruct s; reflexivity. Qed.

(** What [write_text] is given reads back line for line. *)
Lemma splitlines_join (lines : list text) :
  lines <> [] ->
  Forall single_line lines ->
  splitlines (join [newline] lines ++ [newline]) = lines.
Proof.
  unfold splitlines. intros Hne Hall. induction Hall as [|l ls Hl Hls IH];
    [contradiction|].
  destruct ls as [|l2 ls].
  - simpl. rewrite splitlines_go_line by exact Hl.
    rewrite splitlines_go_newline, app_nil_r, rev_involutive. reflexivity.
  - change (join [newline] (l :: l2 :: ls))
      with (l ++ [newline] ++ join [newline] (l2 :: ls)).
    rewrite <- !app_assoc. rewrite splitlines_go_line by exact Hl. simpl app.
    rewrite splitlines_go_newline, app_nil_r, rev_involutive.
    f_equal. apply IH. discriminate.
Qed.

Lemma splitlines_go_single (n : nat) :
  forall s cur,
    length s <= n ->
    Forall (fun c => is_linebreak c = false) cur ->
    Forall single_line (splitlines_go s cur).
Proof.
  induction n as [|n IH]; intros s cur Hlen Hcur.
  - destruct s; [|simpl in Hlen; lia]. simpl.
    destruct cur; [constructor|]. constructor; [|constructor].
    apply Forall_rev. exact Hcur.
  - destruct s as [|c s]; simpl.
    + destruct cur; [constructor|]. constructor; [|constructor].
      apply Forall_rev. exact Hcur.
    + simpl in Hlen. destruct (is_linebreak c) eqn:Hc.
      * constructor; [apply Forall_rev; exact Hcur|].
        destruct s as [|c' s]; [constructor|].
        simpl in Hlen.
        destruct ((code c =? 13) && (code c' =? 10));
          apply IH; simpl; try lia; constructor.
      * apply IH; [lia|]. constructor; assumption.
Qed.

Lemma splitlines_single (s : text) : Forall single_line (splitlines s).
Proof. apply (splitlines_go_single (length s)); [lia | constructor]. Qed.

Lemma source_lines_single (file : option text) :
  Forall single_line (source_lines file).
Proof.
  destruct file as [content|]; simpl; [apply splitlines_single|].
  repeat constructor.
Qed.

(** *** Prefixes *)

Lemma startswith_app (p v : text) : startswith (p ++ v) p = true.
Proof.
  induction p as [|c p IH]; simpl; [reflexivity|].
  unfold chr_eqb. rewrite Ascii.eqb_refl. exact IH.
Qed.

Lemma startswith_inv (l p : text) :
  startswith l p = true -> l = p ++ drop (length p) l.
Proof.
  revert l. induction p as [|c p IH]; intros l; simpl; [reflexivity|].
  destruct l as [|x l]; [discriminate|]. intros H.
  apply andb_true_iff in H as [Hx H]. apply chr_eqb_eq in Hx. subst x.
  simpl. f_equal. apply IH. exact H.
Qed.

Lemma apart_heads (a b : ascii) (p q : text) :
  chr_eqb a b = false -> apart (a :: p) (b :: q).
Proof.
  intros Hab [|c l]; simpl; [discriminate|]. intros H.
  apply andb_true_iff in H as [Hc _]. apply chr_eqb_eq in Hc. subst c.
  rewrite Hab. reflexivity.
Qed.


(** *** The upsert *)

Lemma field_cons (p l : text) (ls : list text) :
  field p (l :: ls)
  = if startswith l p then Some (drop (length p) l) else field p ls.
Proof.
  unfold field. rewrite filter_cons.
  destruct (startswith l p) eqn:E.
  - rewrite decide_True by reflexivity. reflexivity.
  - rewrite decide_False by discriminate. reflexivity.
Qed.

Lemma field_upsert (p v : text) (ls : list text) :
  field p (upsert p v ls) = Some v.
Proof.
  assert (Hnew : forall ls', field p ((p ++ v) :: ls') = Some v).
  { intros ls'. rewrite field_cons, startswith_app, drop_app_length.
    reflexivity. }
  induction ls as [|l ls IH]; simpl; [apply Hnew|].
  destruct (startswith l p) eqn:E; [apply Hnew|].
  rewrite field_cons, E. exact IH.
Qed.

Lemma field_upsert_apart (p q v : text) (ls : list text) :
  apart p q -> field q (upsert p v ls) = field q ls.
Proof.
  intros Hpq.
  assert (Hnew : startswith (p ++ v) q = false)
    by (apply Hpq, startswith_app).
  induction ls as [|l ls IH]; simpl.
  - rewrite field_cons, Hnew. reflexivity.
  - destruct (startswith l p) eqn:E.
    + rewrite !field_cons, Hnew, (Hpq l E). reflexivity.
    + rewrite !field_cons, IH. reflexivity.
Qed.

Lemma foreign_line_prefix (l p : text) :
  p ∈ provenance_prefixes -> startswith l p = true -> foreign_line l = false.
Proof.
  intros Hp Hl. unfold foreign_line. apply not_true_iff_false. intros H.
  rewrite forallb_forall in H. specialize (H p).
  rewrite Hl in H. discriminate H. apply list_elem_of_In. exact Hp.
Qed.

Lemma filter_foreign_cons (l : text) (ls : list text) :
  filter (fun l => foreign_line l = true) (l :: ls)
  = if foreign_line l then l :: filter (fun l => foreign_line l = true) ls
    else filter (fun l => foreign_line l = true) ls.
Proof.
  rewrite filter_cons. destruct (foreign_line l).
  - rewrite decide_True by reflexivity. reflexivity.
  - rewrite decide_False by discriminate. reflexivity.
Qed.

Lemma foreign_upsert (p v : text) (ls : list text) :
  p ∈ provenance_prefixes ->
  filter (fun l => foreign_line l = true) (upsert p v ls)
  = filter (fun l => foreign_line l = true) ls.
Proof.
  intros Hp.
  assert (Hnew : foreign_line (p ++ v) = false)
    by (apply (foreign_line_prefix _ p Hp), startswith_app).
  induction ls as [|l ls IH]; simpl.
  - rewrite filter_foreign_cons, Hnew. reflexivity.
  - destruct (startswith l p) eqn:E.
    + rewrite !filter_foreign_cons, Hnew, (foreign_line_prefix l p Hp E).
      reflexivity.
    + rewrite !filter_foreign_cons, IH. reflexivity.
Qed.





Lemma upsert_single (p v : text) (ls : list text) :
  single_line (p ++ v) -> Forall single_line ls ->
  Forall single_line (upsert p v ls).
Proof.
  intros Hnew. induction 1 as [|l ls Hl Hls IH]; simpl.
  - constructor; [exact Hnew | constructor].
  - destruct (startswith l p); constructor; assumption.
Qed.

Lemma upsert_not_nil (p v : text) (ls : list text) : upsert p v ls <> [].
Proof. destruct ls as [|l ls]; simpl; [|destruct (startswith l p)]; discriminate. Qed.

Lemma single_line_prefix (p v : text) :
  p ∈ provenance_prefixes -> single_line v -> single_line (p ++ v).
Proof.
  intros Hp Hv. apply Forall_app. split; [|exact Hv].
  unfold provenance_prefixes in Hp.
  repeat (apply elem_of_cons in Hp as [->|Hp]); [..|inversion Hp];
    repeat constructor.
Qed.

Lemma prefix_target : T "TargetCommit: " ∈ provenance_prefixes.
Proof. left. Qed.
Lemma prefix_recorded : T "RecordedAtUTC: " ∈ provenance_prefixes.
Proof. right. left. Qed.
Lemma prefix_status : T "Status: " ∈ provenance_prefixes.
Proof. right. right. left. Qed.

Lemma updated_lines_single (now status : text) (commit : option text)
    (ls : list text) :
  single_line now -> single_line status ->
  (forall c, commit = Some c -> single_line c) ->
  Forall single_line ls ->
  Forall single_line (updated_lines now status commit ls).
Proof.
  intros Hnow Hstatus Hcommit Hls. unfold updated_lines.
  apply upsert_single; [apply single_line_prefix; [apply prefix_status | assumption]|].
  apply upsert_single; [apply single_line_prefix; [apply prefix_recorded | assumption]|].
  destruct commit as [[|c cs]|]; try assumption.
  apply upsert_single; [|assumption].
  apply single_line_prefix; [apply prefix_target|]. apply Hcommit. reflexivity.
Qed.

(** The text written reads back as the lines it was made of. *)
Lemma update_golden_source_lines (now status : text) (commit : option text)
    (file : option text) :
  single_line now -> single_line status ->
  (forall c, commit = Some c -> single_line c) ->
  splitlines (update_golden_source now status commit file)
  = updated_lines now status commit (source_lines file).
Proof.
  intros Hnow Hstatus Hcommit. unfold update_golden_source.
  apply splitlines_join.
  - unfold updated_lines. apply upsert_not_nil.
  - apply updated_lines_single; try assumption. apply source_lines_single.
Qed.

Lemma updated_lines_fields (now status : text) (commit : option text)
    (ls : list text) :
  let out := updated_lines now status commit ls in
  field (T "Status: ") out = Some status
  /\ field (T "RecordedAtUTC: ") out = Some now
  /\ field (T "TargetCommit: ") out
     = (if truthy commit then commit else field (T "TargetCommit: ") ls)
  /\ filter (fun l => foreign_line l = true) out
     = filter (fun l => foreign_line l = true) ls.
Proof.
  unfold updated_lines. simpl.
  assert (Hsr : apart (T "Status: ") (T "RecordedAtUTC: "))
    by (apply apart_heads; reflexivity).
  assert (Hst : apart (T "Status: ") (T "TargetCommit: "))
    by (apply apart_heads; reflexivity).
  assert (Hrt : apart (T "RecordedAtUTC: ") (T "TargetCommit: "))
    by (apply apart_heads; reflexivity).
  split; [apply field_upsert|].
  split; [rewrite field_upsert_apart by exact Hsr; apply field_upsert|].
  split.
  - rewrite field_upsert_apart by exact Hst.
    rewrite field_upsert_apart by exact Hrt.
    destruct commit as [[|c cs]|]; simpl; try reflexivity.
    apply field_upsert.
  - rewrite foreign_upsert by apply prefix_status.
    rewrite foreign_upsert by apply prefix_recorded.
    destruct commit as [[|c cs]|]; try reflexivity.
    apply foreign_upsert, prefix_target.
Qed.

(** X13. Read back line by line, the text that [update_golden_source]
    writes gives the new status and the new time stamp as the values of the
    first status line and of the first time stamp line, and the commit as the
    value of the first target commit line when a commit that is not empty is
    given (the old value stays otherwise); the lines that start with none of
    the three prefixes are those of the old file, or of the two default
    lines, in their order. *)
Theorem update_golden_source_fields (now status : text)
    (commit : option text) (file : option text) :
  single_line now -> single_line status ->
  (forall c, commit = Some c -> single_line c) ->
  let out := splitlines (update_golden_source now status commit file) in
  field (T "Status: ") out = Some status
  /\ field (T "RecordedAtUTC: ") out = Some now
  /\ field (T "TargetCommit: ") out
     = (if truthy commit then commit
        else field (T "TargetCommit: ") (source_lines file))
  /\ filter (fun l => foreign_line l = true) out
     = filter (fun l => foreign_line l = true) (source_lines file).
Proof.
  intros Hnow Hstatus Hcommit. simpl.
  rewrite update_golden_source_lines by assumption.
  apply updated_lines_fields.
Qed.

Lemma update_golden_source_fields_witness :
  field (T "Status: ") rerecorded_lines = Some (T "OK")
  /\ field (T "RecordedAtUTC: ") rerecorded_lines
     = Some (T "2026-01-02T03:04:05Z")
  /\ field (T "TargetCommit: ") rerecorded_lines
     = (if truthy (Some (T "0123abcd")) then Some (T "0123abcd")
        else field (T "TargetCommit: ") (source_lines (Some old_golden_source)))
  /\ filter (fun l => foreign_line l = true) rerecorded_lines
     = filter (fun l => foreign_line l = true)
              (source_lines (Some old_golden_source)).
Proof.
  apply (update_golden_source_fields (T "2026-01-02T03:04:05Z") (T "OK")
           (Some (T "0123abcd")) (Some old_golden_source)).
  - repeat constructor.
  - repeat constructor.
  - intros c [= <-]. repeat constructor.
Defined.




(** *** The upstream commit *)

Lemma lstrip_drop (s : text) : exists k, lstrip s = drop k s.
Proof.
  induction s as [|c s [k IH]]; simpl; [exists 0; reflexivity|].
  destruct (py_isspace c); [exists (S k); exact IH | exists 0; reflexivity].
Qed.

Lemma lstrip_stops (s : text) : stops py_isspace (lstrip s).
Proof.
  induction s as [|c s IH]; simpl; [exact I|].
  destruct (py_isspace c) eqn:E; [exact IH | exact E].
Qed.

Lemma lstrip_id (s : text) : stops py_isspace s -> lstrip s = s.
Proof. destruct s as [|c s]; simpl; [reflexivity|]. intros ->. reflexivity. Qed.

Lemma stops_rev_drop (s : text) (k : nat) :
  stops py_isspace s -> stops py_isspace (rev (drop k (rev s))).
Proof.
  intros Hs. rewrite skipn_rev, rev_involutive.
  destruct s as [|c s]; [rewrite take_nil; exact I|].
  destruct (length (c :: s) - k); [exact I | exact Hs].
Qed.

Lemma py_strip_stops (s : text) :
  stops py_isspace (py_strip s) /\ stops py_isspace (rev (py_strip s)).
Proof.
  unfold py_strip. split.
  - destruct (lstrip_drop (rev (lstrip s))) as [k ->].
    apply stops_rev_drop, lstrip_stops.
  - rewrite rev_involutive. apply lstrip_stops.
Qed.

Lemma py_strip_idem (s : text) : py_strip (py_strip s) = py_strip s.
Proof.
  destruct (py_strip_stops s) as [H1 H2]. unfold py_strip at 1.
  rewrite (lstrip_id _ H1), (lstrip_id _ H2). apply rev_involutive.
Qed.

Lemma lstrip_single (s : text) : single_line s -> single_line (lstrip s).
Proof.
  intros H. destruct (lstrip_drop s) as [k ->]. apply Forall_drop. exact H.
Qed.

Lemma py_strip_single (s : text) : single_line s -> single_line (py_strip s).
Proof.
  intros H. unfold py_strip. apply Forall_rev, lstrip_single, Forall_rev,
    lstrip_single. exact H.
Qed.

(** Index 1 of the split is in range on a line that holds the colon. *)
Lemma split_once_app (a b : text) (sep : ascii) :
  Forall (fun c => chr_eqb c sep = false) a ->
  split_once (a ++ sep :: b) sep = [a; b].
Proof.
  induction 1 as [|c a Hc _ IH]; simpl.
  - unfold chr_eqb. rewrite Ascii.eqb_refl. reflexivity.
  - rewrite Hc, IH. reflexivity.
Qed.

Lemma split_once_commit (line : text) :
  startswith line (T "Commit:") = true ->
  split_once line ":"%char = [T "Commit"; drop 7 line].
Proof.
  intros H. apply startswith_inv in H. rewrite H at 1.
  change (T "Commit:" ++ drop (length (T "Commit:")) line)
    with (T "Commit" ++ ":"%char :: drop 7 line).
  apply split_once_app. repeat constructor.
Qed.

Lemma first_commit_outcome (lines : list text) :
  match first_commit lines with
  | Some c =>
      exists pre line post,
        lines = pre ++ line :: post
        /\ Forall (fun l => startswith l (T "Commit:") = false) pre
        /\ startswith line (T "Commit:") = true
        /\ c = py_strip (drop 7 line)
  | None => Forall (fun l => startswith l (T "Commit:") = false) lines
  end.
Proof.
  induction lines as [|l ls IH]; cbn [first_commit]; [constructor|].
  destruct (startswith l (T "Commit:")) eqn:E.
  - exists [], l, ls. rewrite (split_once_commit l E).
    repeat split; auto.
  - destruct (first_commit ls) as [c|].
    + destruct IH as (pre & line & post & -> & Hpre & Hl & ->).
      exists (l :: pre), line, post. repeat split; auto.
    + constructor; assumption.
Qed.

(** X15. When [load_upstream_commit] returns a commit, it is what follows
    the colon on the first line of the file that starts with [Commit:],
    without the blanks around it; it holds no line boundary and stripping it
    again changes nothing, so [update_golden_source] writes it on one line.
    It returns nothing exactly when the file is missing or has no such
    line. *)
Theorem load_upstream_commit_value (file : option text) :
  (forall c,
      load_upstream_commit file = Some c ->
      single_line c /\ py_strip c = c
      /\ exists content pre line post,
           file = Some content
           /\ splitlines content = pre ++ line :: post
           /\ Forall (fun l => startswith l (T "Commit:") = false) pre
           /\ startswith line (T "Commit:") = true
           /\ c = py_strip (drop 7 line))
  /\ (load_upstream_commit file = None
      <-> forall content,
            file = Some content ->
            Forall (fun l => startswith l (T "Commit:") = false)
                   (splitlines content)).
Proof.
  destruct file as [content|]; cbn [load_upstream_commit].
  - pose proof (first_commit_outcome (splitlines content)) as H.
    pose proof (splitlines_single content) as Hs.
    destruct (first_commit (splitlines content)) as [c|]; split.
    + intros c' [= <-]. destruct H as (pre & line & post & Heq & Hpre & Hl & ->).
      split; [|split; [apply py_strip_idem|]].
      * apply py_strip_single, Forall_drop.
        rewrite Heq in Hs. apply Forall_app in Hs as [_ Hs].
        apply Forall_cons in Hs as [Hs _]. exact Hs.
      * exists content, pre, line, post. auto.
    + split; [discriminate|]. intros Hall. exfalso.
      destruct H as (pre & line & post & Heq & _ & Hl & _).
      specialize (Hall content eq_refl). rewrite Heq in Hall.
      apply Forall_app in Hall as [_ Hall].
      apply Forall_cons in Hall as [Hall _]. congruence.
    + intros c. discriminate.
    + split; [|reflexivity]. intros _ content' [= <-]. exact H.
  - split; [intros c; discriminate|]. split; [|reflexivity].
    intros _ content. discriminate.
Qed.

(** ** The order of the run *)

Lemma string_compare_trans (a b c : string) :
  String.compare a b = Lt -> String.compare b c = Lt -> String.compare a c = Lt.
Proof.
  intros H1 H2.
  apply OrderedTypeEx.String_as_OT.cmp_lt.
  apply OrderedTypeEx.String_as_OT.cmp_lt in H1, H2.
  eapply OrderedTypeEx.String_as_OT.lt_trans; eassumption.
Qed.

Lemma string_compare_refl (a : string) : String.compare a a = Eq.
Proof.
  pose proof (String.compare_antisym a a) as H.
  destruct (String.compare a a); [reflexivity|discriminate|discriminate].
Qed.

Lemma key_compare_eq (a b : bool * string * string) :
  key_compare a b = Eq -> a = b.
Proof.
  destruct a as [[a1 a2] a3], b as [[b1 b2] b3]. simpl.
  destruct a1, b1; simpl; try discriminate;
    destruct (String.compare a2 b2) eqn:E2; try discriminate;
    intros E3; apply String.compare_eq_iff in E2, E3; subst; reflexivity.
Qed.

Lemma key_compare_antisym (a b : bool * string * string) :
  key_compare a b = CompOpp (key_compare b a).
Proof.
  destruct a as [[a1 a2] a3], b as [[b1 b2] b3]. simpl.
  rewrite (String.compare_antisym b2 a2), (String.compare_antisym b3 a3).
  destruct a1, b1; simpl; try reflexivity;
    destruct (String.compare a2 b2); simpl; try reflexivity;
    destruct (String.compare a3 b3); reflexivity.
Qed.

Lemma key_compare_trans (a b c : bool * string * string) :
  key_compare a b = Lt -> key_compare b c = Lt -> key_compare a c = Lt.
Proof.
  destruct a as [[a1 a2] a3], b as [[b1 b2] b3], c as [[c1 c2] c3]. simpl.
  assert (Hstr : match String.compare a2 b2 with
                 | Eq => String.compare a3 b3
                 | c => c
                 end = Lt ->
                 match String.compare b2 c2 with
                 | Eq => String.compare b3 c3
                 | c => c
                 end = Lt ->
                 match String.compare a2 c2 with
                 | Eq => String.compare a3 c3
                 | c => c
                 end = Lt).
  { destruct (String.compare a2 b2) eqn:E1; try discriminate;
      destruct (String.compare b2 c2) eqn:E2; try discriminate;
      intros H1 H2.
    - apply String.compare_eq_iff in E1, E2. subst.
      rewrite string_compare_refl. eapply string_compare_trans; eassumption.
    - apply String.compare_eq_iff in E1. subst. rewrite E2. reflexivity.
    - apply String.compare_eq_iff in E2. subst. rewrite E1. reflexivity.
    - rewrite (string_compare_trans _ _ _ E1 E2). reflexivity. }
  destruct a1, b1, c1; simpl; try discriminate; try reflexivity; exact Hstr.
Qed.

Lemma key_lt_le (a b : Scenario) : key_lt a b -> key_le a b.
Proof.
  unfold key_lt, key_le. intros H. rewrite key_compare_antisym, H. discriminate.
Qed.

#[local] Instance key_le_trans : Transitive key_le.
Proof.
  intros a b c. unfold key_le. intros Hab Hbc Hca.
  destruct (key_compare (sort_key a) (sort_key b)) eqn:E.
  - apply key_compare_eq in E. rewrite E in Hca. contradiction.
  - apply Hbc. eapply key_compare_trans; eassumption.
  - apply Hab. rewrite key_compare_antisym, E. reflexivity.
Qed.

#[local] Instance key_lt_antisymm : AntiSymm (=) key_lt.
Proof.
  intros a b. unfold key_lt. intros H1 H2.
  rewrite key_compare_antisym, H2 in H1. discriminate.
Qed.

Lemma insert_by_key_perm (x : Scenario) (l : list Scenario) :
  insert_by_key x l ≡ₚ x :: l.
Proof.
  induction l as [|y l IH]; cbn [insert_by_key]; [reflexivity|].
  destruct (key_compare (sort_key y) (sort_key x)); try reflexivity.
  rewrite IH. apply perm_swap.
Qed.

Lemma sort_scenarios_perm (l : list Scenario) : sort_scenarios l ≡ₚ l.
Proof.
  induction l as [|x l IH]; simpl; [reflexivity|].
  rewrite insert_by_key_perm, IH. reflexivity.
Qed.

Lemma insert_by_key_sorted (x : Scenario) (l : list Scenario) :
  Sorted key_le l -> Sorted key_le (insert_by_key x l).
Proof.
  induction l as [|y l IH]; cbn [insert_by_key]; intros Hs.
  - repeat constructor.
  - destruct (key_compare (sort_key y) (sort_key x)) eqn:E.
    + constructor; [assumption|]. constructor. unfold key_le. rewrite E.
      discriminate.
    + apply Sorted_inv in Hs as [Hs Hhd]. constructor; [apply IH; assumption|].
      assert (Hyx : key_le y x) by (apply key_lt_le; exact E).
      destruct l as [|z l]; cbn [insert_by_key]; [constructor; exact Hyx|].
      destruct (key_compare (sort_key z) (sort_key x));
        constructor; try exact Hyx.
      apply HdRel_inv in Hhd. exact Hhd.
    + constructor; [assumption|]. constructor. unfold key_le. rewrite E.
      discriminate.
Qed.

Lemma sort_scenarios_sorted (l : list Scenario) : Sorted key_le (sort_scenarios l).
Proof.
  induction l as [|x l IH]; simpl; [constructor|].
  apply insert_by_key_sorted. assumption.
Qed.

Lemma sort_key_key_of (a b : Scenario) :
  sort_key a = sort_key b -> key_of a = key_of b.
Proof. unfold sort_key, key_of. intros [= -> -> ->]. reflexivity. Qed.

Lemma sort_scenarios_strict (l : list Scenario) :
  NoDup (map key_of l) -> StronglySorted key_lt (sort_scenarios l).
Proof.
  intros Hnd.
  assert (Hnd' : NoDup (map key_of (sort_scenarios l))).
  { rewrite sort_scenarios_perm. assumption. }
  pose proof (Sorted_StronglySorted _ _ (sort_scenarios_sorted l)) as Hs.
  induction Hs as [|x s Hs IH Hall]; [constructor|].
  simpl in Hnd'. apply NoDup_cons in Hnd' as [Hx Hnd'].
  constructor; [apply IH; assumption|].
  rewrite Forall_forall in Hall |- *. intros y Hy.
  specialize (Hall y Hy). unfold key_le in Hall. unfold key_lt.
  destruct (key_compare (sort_key x) (sort_key y)) eqn:E; [|reflexivity|].
  - exfalso. apply Hx. apply key_compare_eq, sort_key_key_of in E. rewrite E.
    apply list_elem_of_fmap. exists y. split; [reflexivity | assumption].
  - exfalso. apply Hall. rewrite key_compare_antisym, E. reflexivity.
Qed.

(** X16. The sort of [main] puts the scenarios in ascending order of the
    tuple (golden kind, golden file, skeleton path), JSON goldens first,
    and keeps them all.  On lists without a repeated key, such as
    [extract_scenarios] returns, the order does not depend on the order of
    the scan: two lists with the same scenarios sort to the same list. *)
Theorem sort_scenarios_canonical :
  (forall l, sort_scenarios l ≡ₚ l)
  /\ (forall l, StronglySorted key_le (sort_scenarios l))
  /\ (forall l1 l2,
         NoDup (map key_of l1) -> l1 ≡ₚ l2 ->
         sort_scenarios l1 = sort_scenarios l2).
Proof.
  split; [exact sort_scenarios_perm|]. split.
  - intros l. apply Sorted_StronglySorted; [exact key_le_trans|].
    apply sort_scenarios_sorted.
  - intros l1 l2 Hnd Hp. apply (StronglySorted_unique key_lt).
    + apply sort_scenarios_strict. assumption.
    + apply sort_scenarios_strict. rewrite <- Hp. assumption.
    + rewrite !sort_scenarios_perm. assumption.
Qed.

(** ** The selection *)

Lemma select_loop_step (args : arguments) (s : Scenario)
    (rest selected : list Scenario) :
  select_loop args (s :: rest) selected
  = if wanted args s then
      if negb (limit args =? 0)%Z
         && (limit args <=? Z.of_nat (length (selected ++ [s])))%Z
      then selected ++ [s]
      else select_loop args rest (selected ++ [s])
    else select_loop args rest selected.
Proof.
  unfold wanted. cbn [select_loop].
  destruct (formats args), (golden_is_skel s), (only args) as [search|];
    cbn [negb andb]; try reflexivity;
    destruct (search (golden_file s)); reflexivity.
Qed.

Lemma select_loop_unlimited (args : arguments) (scenarios : list Scenario) :
  limit args = 0%Z ->
  forall selected,
    select_loop args scenarios selected
    = selected ++ filter (fun s => wanted args s = true) scenarios.
Proof.
  intros Hl. induction scenarios as [|s rest IH]; intros selected.
  - cbn [select_loop]. rewrite filter_nil, app_nil_r. reflexivity.
  - rewrite select_loop_step, filter_cons, Hl. cbn [Z.eqb negb andb].
    destruct (wanted args s) eqn:E.
    + rewrite decide_True by reflexivity. rewrite IH, <- app_assoc. reflexivity.
    + rewrite decide_False by discriminate. apply IH.
Qed.

Lemma select_loop_limited (args : arguments) (scenarios : list Scenario) :
  limit args <> 0%Z ->
  forall selected,
    select_loop args scenarios selected
    = selected
      ++ take (Z.to_nat (Z.max 1 (limit args - Z.of_nat (length selected))))
              (filter (fun s => wanted args s = true) scenarios).
Proof.
  intros Hl. induction scenarios as [|s rest IH]; intros selected.
  - cbn [select_loop]. rewrite filter_nil, take_nil, app_nil_r. reflexivity.
  - rewrite select_loop_step, filter_cons.
    destruct (wanted args s) eqn:E.
    + rewrite decide_True by reflexivity.
      assert (Hne : negb (limit args =? 0)%Z = true)
        by (apply negb_true_iff, Z.eqb_neq; exact Hl).
      rewrite Hne. cbn [andb]. rewrite length_app. simpl length.
      destruct (Z.leb_spec (limit args) (Z.of_nat (length selected + 1)))
        as [Hle|Hgt].
      * replace (Z.to_nat (Z.max 1 (limit args - Z.of_nat (length selected))))
          with 1 by lia.
        simpl. rewrite take_0. reflexivity.
      * rewrite IH, length_app. simpl length.
        replace (Z.to_nat (Z.max 1 (limit args - Z.of_nat (length selected))))
          with (S (Z.to_nat (Z.max 1 (limit args
                                     - Z.of_nat (length selected + 1)))))
          by lia.
        simpl. rewrite <- app_assoc. reflexivity.
    + rewrite decide_False by discriminate. apply IH.
Qed.

(** X17. The scenarios that [main] selects are the scenarios that pass the
    format and the [--only] filters, in sorted order: all of them when the
    limit is 0, the first [limit] of them when it is positive, and the
    first one alone when the limit is negative. *)
Theorem select_scenarios_take_filter (args : arguments)
    (scenarios : list Scenario) :
  select_scenarios args scenarios
  = let passing :=
      filter (fun s => wanted args s = true) (sort_scenarios scenarios) in
    if (limit args =? 0)%Z then passing
    else if (limit args <? 0)%Z then take 1 passing
    else take (Z.to_nat (limit args)) passing.
Proof.
  unfold select_scenarios. cbv zeta.
  destruct (Z.eqb_spec (limit args) 0) as [Hl|Hl].
  - rewrite select_loop_unlimited by exact Hl. reflexivity.
  - rewrite select_loop_limited by exact Hl. cbn [length app].
    destruct (Z.ltb_spec (limit args) 0).
    + replace (Z.to_nat (Z.max 1 (limit args - Z.of_nat 0))) with 1 by lia.
      reflexivity.
    + replace (Z.to_nat (Z.max 1 (limit args - Z.of_nat 0)))
        with (Z.to_nat (limit args)) by lia.
      reflexivity.
Qed.

(** ** The recording loop *)

Section RunFacts.

Variable json_loads : text -> result unit.
Variable w : world.
Variable args : arguments.
Variable commit : option text.

Lemma run_oracle_validated (proc : completed_process) (payload : text) :
  run_oracle json_loads proc = inr payload -> validated json_loads payload.
Proof.
  unfold run_oracle.
  destruct (returncode proc =? 0)%Z eqn:Hrc; simpl; [|discriminate].
  destruct (json_loads (py_strip (stdout proc))) as [e|[]] eqn:Hj; simpl;
    [discriminate|].
  intros [= <-]. exists proc. apply Z.eqb_eq in Hrc. auto.
Qed.

Lemma try_atlases_inv (s : Scenario) (atlases : list string) :
  forall h last_err,
    exists acts tried rest,
      (try_atlases json_loads w s atlases h last_err).1.1 = h ++ acts
      /\ atlases = tried ++ rest
      /\ runs_of acts = tried
      /\ Forall (fun a => is_attempt a = true) acts
      /\ Forall (golden_write json_loads [s]) acts
      /\ ((try_atlases json_loads w s atlases h last_err).2 = true ->
          (try_atlases json_loads w s atlases h last_err).1.2 = None
          /\ exists acts0 payload,
               acts = acts0 ++ [WriteGolden (golden_is_skel s) (golden_file s)
                                            payload])
      /\ ((try_atlases json_loads w s atlases h last_err).2 = false ->
          rest = []
          /\ (atlases = [] ->
              (try_atlases json_loads w s atlases h last_err).1.2 = last_err)
          /\ (atlases <> [] ->
              (try_atlases json_loads w s atlases h last_err).1.2 <> None)).
Proof.
  induction atlases as [|atlas atlases IH]; intros h last_err.
  - exists [], [], []. simpl. rewrite app_nil_r.
    repeat split; auto; try constructor; try discriminate; try contradiction.
  - assert (Hfail : forall h1 acts1 e,
              h1 = h ++ RunOracle atlas (skeleton_rel s) (commands s) :: acts1 ->
              Forall (fun a => is_attempt a = true) acts1 ->
              Forall (golden_write json_loads [s]) acts1 ->
              runs_of acts1 = [] ->
              try_atlases json_loads w s (atlas :: atlases) h last_err
              = try_atlases json_loads w s atlases h1 (Some e) ->
              exists acts tried rest,
                (try_atlases json_loads w s (atlas :: atlases) h last_err).1.1
                = h ++ acts
                /\ atlas :: atlases = tried ++ rest
                /\ runs_of acts = tried
                /\ Forall (fun a => is_attempt a = true) acts
                /\ Forall (golden_write json_loads [s]) acts
                /\ ((try_atlases json_loads w s (atlas :: atlases) h last_err).2
                    = true ->
                    (try_atlases json_loads w s (atlas :: atlases) h
                                 last_err).1.2 = None
                    /\ exists acts0 payload,
                         acts = acts0
                                ++ [WriteGolden (golden_is_skel s)
                                                (golden_file s) payload])
                /\ ((try_atlases json_loads w s (atlas :: atlases) h last_err).2
                    = false ->
                    rest = []
                    /\ (atlas :: atlases = [] ->
                        (try_atlases json_loads w s (atlas :: atlases) h
                                     last_err).1.2 = last_err)
                    /\ (atlas :: atlases <> [] ->
                        (try_atlases json_loads w s (atlas :: atlases) h
                                     last_err).1.2 <> None))).
    { intros h1 acts1 e Hh1 Hatt Hgw Hruns Heq. rewrite Heq.
      destruct (IH h1 (Some e))
        as (acts & tried & rest & Hh & Hsplit & Hr & Ha & Hg & Hw & Hf).
      exists (RunOracle atlas (skeleton_rel s) (commands s) :: acts1 ++ acts),
        (atlas :: tried), rest.
      split; [rewrite Hh, Hh1, <- app_assoc; reflexivity|].
      split; [rewrite Hsplit; reflexivity|].
      split.
      { unfold runs_of in *. cbn [omap list_omap]. rewrite omap_app, Hruns, Hr.
        reflexivity. }
      split; [constructor; [reflexivity | apply Forall_app; auto]|].
      split; [constructor; [exact I | apply Forall_app; auto]|].
      split.
      - intros Hwrote. destruct (Hw Hwrote) as [Hnone (acts0 & payload & ->)].
        split; [exact Hnone|].
        exists (RunOracle atlas (skeleton_rel s) (commands s) :: acts1 ++ acts0),
          payload.
        cbn [app]. rewrite <- app_assoc. reflexivity.
      - intros Hnot. destruct (Hf Hnot) as (Hrest & Hnil & Hne).
        split; [exact Hrest|]. split; [discriminate|]. intros _.
        destruct atlases as [|a2 atlases]; [rewrite Hnil by reflexivity|apply Hne];
          discriminate. }
    destruct (subprocess_run w h atlas (skeleton_rel s) (commands s))
      as [proc|] eqn:Hrun.
    + destruct (run_oracle json_loads proc) as [e|payload] eqn:Hor.
      * apply (Hfail (h ++ [RunOracle atlas (skeleton_rel s) (commands s)]) []
                 (OracleRaised e)); try constructor; try reflexivity.
        cbn [try_atlases]. rewrite Hrun, Hor. reflexivity.
      * destruct (write_text_returns w
                    (h ++ [RunOracle atlas (skeleton_rel s) (commands s)])
                    (golden_is_skel s) (golden_file s) payload) eqn:Hwr.
        -- assert (Heq : try_atlases json_loads w s (atlas :: atlases) h last_err
                         = ((h ++ [RunOracle atlas (skeleton_rel s) (commands s)])
                              ++ [WriteGolden (golden_is_skel s) (golden_file s)
                                              payload],
                            None, true))
             by (cbn [try_atlases]; rewrite Hrun, Hor, Hwr; reflexivity).
           rewrite Heq. cbn [fst snd].
           exists [RunOracle atlas (skeleton_rel s) (commands s);
                   WriteGolden (golden_is_skel s) (golden_file s) payload],
             [atlas], atlases.
           rewrite <- app_assoc.
           repeat split; auto; try discriminate.
           ++ constructor; [exact I|]. constructor; [|constructor].
              split; [eapply run_oracle_validated; exact Hor|].
              exists s. split; [left | auto].
           ++ exists [RunOracle atlas (skeleton_rel s) (commands s)], payload.
              reflexivity.
        -- apply (Hfail ((h ++ [RunOracle atlas (skeleton_rel s) (commands s)])
                           ++ [WriteGolden (golden_is_skel s) (golden_file s)
                                           payload])
                   [WriteGolden (golden_is_skel s) (golden_file s) payload]
                   WriteRaised).
           ++ rewrite <- app_assoc. reflexivity.
           ++ repeat constructor.
           ++ constructor; [|constructor].
              split; [eapply run_oracle_validated; exact Hor|].
              exists s. split; [left | auto].
           ++ reflexivity.
           ++ cbn [try_atlases]. rewrite Hrun, Hor, Hwr. reflexivity.
    + apply (Hfail (h ++ [RunOracle atlas (skeleton_rel s) (commands s)]) []
               RunRaised); try constructor; try reflexivity.
      cbn [try_atlases]. rewrite Hrun. reflexivity.
Qed.

Lemma golden_write_mono (l1 l2 : list Scenario) (acts : list action) :
  (forall s, s ∈ l1 -> s ∈ l2) ->
  Forall (golden_write json_loads l1) acts ->
  Forall (golden_write json_loads l2) acts.
Proof.
  intros Hsub Hall. eapply Forall_impl; [exact Hall|].
  intros [] H; try exact I.
  destruct H as [Hv (s & Hs & Hb & Hg)]. split; [exact Hv|].
  exists s. auto.
Qed.

Lemma attempt_not_update (acts : list action) :
  Forall (fun a => is_attempt a = true) acts ->
  Forall (fun a => is_update a = false) acts.
Proof.
  intros Hall. eapply Forall_impl; [exact Hall|].
  intros [] H; try reflexivity; discriminate.
Qed.

Lemma output_not_update (acts : list action) :
  Forall (fun a => is_output a = true) acts ->
  Forall (fun a => is_update a = false) acts.
Proof.
  intros Hall. eapply Forall_impl; [exact Hall|].
  intros [] H; try reflexivity; discriminate.
Qed.

Lemma output_golden_write (selected : list Scenario) (acts : list action) :
  Forall (fun a => is_output a = true) acts ->
  Forall (golden_write json_loads selected) acts.
Proof.
  intros Hall. eapply Forall_impl; [exact Hall|].
  intros [] H; try exact I; discriminate.
Qed.

(** One turn of the loop that goes on: the actions [pre] and the new
    counters, then the rest of the loop. *)
Lemma run_invariant_step (s : Scenario) (rest : list Scenario)
    (h pre : list action) (ok failed ok' failed' : nat) (r : run_end) :
  run_invariant json_loads args commit rest (h ++ pre) ok' failed' r ->
  Forall (golden_write json_loads [s]) pre ->
  Forall (fun a => is_update a = false) pre ->
  ok <= ok' -> failed <= failed' -> ok' + failed' <= ok + failed + 1 ->
  (dry_run args = true ->
   Forall (fun a => is_output a = true) pre /\ failed' = failed) ->
  (keep_going args = false -> failed' = failed) ->
  run_invariant json_loads args commit (s :: rest) h ok failed r.
Proof.
  intros (acts & Htr & Hgw & Hok & Hfl & Hsum & Hexit & Hdry & Hkeep & Hst)
    Hpre Hnu Hok' Hfl' Hsum' Hdry' Hkeep'.
  exists (pre ++ acts).
  split; [rewrite Htr, app_assoc; reflexivity|].
  split.
  { apply Forall_app. split.
    - eapply golden_write_mono; [|exact Hpre].
      intros s0 Hs0. apply list_elem_of_singleton in Hs0. subst. left.
    - eapply golden_write_mono; [|exact Hgw]. intros s0 Hs0. right. exact Hs0. }
  split; [lia|]. split; [lia|].
  split; [simpl; lia|].
  split; [exact Hexit|].
  split.
  { intros Hd. destruct (Hdry Hd) as [Ho Hf]. destruct (Hdry' Hd) as [Ho' Hf'].
    split; [apply Forall_app; auto | lia]. }
  split.
  { intros Hk. specialize (Hkeep Hk). specialize (Hkeep' Hk). lia. }
  intros Hd c Hc. destruct (Hst Hd c Hc) as (mid & tail & -> & Hmid & Htail).
  exists (pre ++ mid), tail. rewrite <- app_assoc.
  split; [reflexivity|]. split; [apply Forall_app; auto | exact Htail].
Qed.

Ltac run_facts :=
  repeat split; auto; try lia; try discriminate;
  try (intros; congruence);
  try (repeat constructor; fail);
  try (intros ? [= <-]; reflexivity).

Lemma finish_invariant (total : nat) (h : list action) (ok failed : nat) :
  run_invariant json_loads args commit [] h ok failed
    (finish w args commit total h ok failed).
Proof.
  unfold finish. destruct (dry_run args) eqn:Hd.
  - exists [Output (DoneLine ok failed total)]. simpl. run_facts.
  - destruct (update_golden_source_returns w h).
    + exists [UpdateSource (final_status failed) commit;
              Output (DoneLine ok failed total)]. simpl. run_facts.
      intros _ c _. exists [], [Output (DoneLine ok failed total)].
      repeat split; repeat constructor.
    + exists [UpdateSource (final_status failed) commit]. simpl. run_facts.
Qed.

Lemma record_loop_invariant (total : nat) (selected : list Scenario) :
  forall h ok failed,
    run_invariant json_loads args commit selected h ok failed
      (record_loop json_loads w args commit total selected h ok failed).
Proof.
  induction selected as [|s rest IH]; intros h ok failed;
    [apply finish_invariant|].
  cbn [record_loop].
  destruct (skeleton_is_file w h (skeleton_rel s)); cbn [negb].
  2:{ eapply run_invariant_step; [apply IH|..]; try lia; auto;
        repeat constructor. }
  destruct (atlas_candidates w h (skeleton_rel s)) as [|atlas atlases] eqn:Hat.
  { eapply run_invariant_step; [apply IH|..]; try lia; auto;
      repeat constructor. }
  destruct (dry_run args) eqn:Hd.
  - destruct (relative_to_root w (golden_is_skel s) (golden_file s)).
    + eapply run_invariant_step; [apply IH|..]; try lia; auto;
        repeat constructor.
    + exists []. simpl. rewrite app_nil_r. run_facts.
  - destruct (mkdir_returns w h (golden_is_skel s) (golden_file s)).
    2:{ exists [Mkdir (golden_is_skel s) (golden_file s)]. simpl. run_facts. }
    destruct (try_atlases_inv s (atlas :: atlases)
                (h ++ [Mkdir (golden_is_skel s) (golden_file s)]) None)
      as (acts & tried & rest' & Hh & Hsplit & Hruns & Hatt & Hgw & Hw & Hf).
    destruct (try_atlases json_loads w s (atlas :: atlases)
                (h ++ [Mkdir (golden_is_skel s) (golden_file s)]) None)
      as [[h2 last_err] wrote] eqn:Htry.
    cbn [fst snd] in Hh, Hw, Hf. subst h2.
    assert (Hpre : Forall (golden_write json_loads [s])
                     (Mkdir (golden_is_skel s) (golden_file s) :: acts))
      by (constructor; [exact I | exact Hgw]).
    assert (Hnu : Forall (fun a => is_update a = false)
                    (Mkdir (golden_is_skel s) (golden_file s) :: acts))
      by (constructor; [reflexivity | apply attempt_not_update; exact Hatt]).
    destruct last_err as [err|].
    + assert (Hwrote : wrote = false).
      { destruct wrote; [|reflexivity]. destruct (Hw eq_refl) as [Hn _].
        discriminate. }
      subst wrote.
      destruct (keep_going args) eqn:Hk.
      * eapply (run_invariant_step s rest h
                  (Mkdir (golden_is_skel s) (golden_file s)
                     :: acts ++ [Output (FailLine (golden_file s)
                                                  (skeleton_rel s) err)])).
        -- replace (h ++ Mkdir (golden_is_skel s) (golden_file s)
                      :: acts ++ [Output (FailLine (golden_file s)
                                                   (skeleton_rel s) err)])
             with (((h ++ [Mkdir (golden_is_skel s) (golden_file s)]) ++ acts)
                     ++ [Output (FailLine (golden_file s) (skeleton_rel s) err)])
             by (rewrite <- !app_assoc; reflexivity).
           apply IH.
        -- constructor; [exact I|]. apply Forall_app. split; [exact Hgw|].
           repeat constructor.
        -- constructor; [reflexivity|]. apply Forall_app.
           split; [apply attempt_not_update; exact Hatt | repeat constructor].
        -- lia.
        -- lia.
        -- lia.
        -- congruence.
        -- congruence.
      * exists (Mkdir (golden_is_skel s) (golden_file s)
                  :: acts ++ [Output (FailLine (golden_file s) (skeleton_rel s)
                                               err);
                              UpdateSource "STALE (recording failed)" commit]).
        cbn [trace ok_count failed_count ending].
        split; [rewrite <- !app_assoc; reflexivity|].
        split.
        { constructor; [exact I|]. apply Forall_app. split.
          - eapply golden_write_mono; [|exact Hgw].
            intros s0 Hs0. apply list_elem_of_singleton in Hs0. subst. left.
          - repeat constructor. }
        split; [lia|]. split; [lia|]. split; [simpl; lia|].
        split.
        { intros c. destruct (update_golden_source_returns w _);
            [intros [= <-]; reflexivity | discriminate]. }
        split; [congruence|]. split; [lia|].
        intros _ c _.
        exists (Mkdir (golden_is_skel s) (golden_file s)
                  :: acts ++ [Output (FailLine (golden_file s) (skeleton_rel s)
                                               err)]), [].
        split; [cbn [app]; rewrite <- app_assoc; reflexivity|].
        split; [|constructor].
        constructor; [reflexivity|]. apply Forall_app.
        split; [apply attempt_not_update; exact Hatt | repeat constructor].
    + eapply (run_invariant_step s rest h
                (Mkdir (golden_is_skel s) (golden_file s) :: acts)).
      * replace (h ++ Mkdir (golden_is_skel s) (golden_file s) :: acts)
          with ((h ++ [Mkdir (golden_is_skel s) (golden_file s)]) ++ acts)
          by (rewrite <- app_assoc; reflexivity).
        apply IH.
      * exact Hpre.
      * exact Hnu.
      * destruct wrote; lia.
      * lia.
      * destruct wrote; lia.
      * congruence.
      * reflexivity.
Qed.

Lemma record_selected_invariant (selected : list Scenario) :
  selected <> [] ->
  exists h0,
    run_invariant json_loads args commit selected h0 0 0
      (record_selected json_loads w args commit selected)
    /\ Forall (golden_write json_loads selected) h0
    /\ (dry_run args = true -> h0 = [])
    /\ (dry_run args = false ->
        forall c,
          ending (record_selected json_loads w args commit selected) = Exit c ->
          h0 = [UpdateSource "STALE (recording in progress)" commit]).
Proof.
  intros Hne. destruct selected as [|s rest]; [contradiction|].
  unfold record_selected. destruct (dry_run args) eqn:Hd.
  - exists []. split; [apply record_loop_invariant|].
    split; [constructor|]. split; congruence.
  - destruct (update_golden_source_returns w []).
    + exists [UpdateSource "STALE (recording in progress)" commit].
      split; [apply record_loop_invariant|].
      split; [repeat constructor|]. split; [congruence | reflexivity].
    + exists []. split; [|split; [constructor|split; [congruence | discriminate]]].
      exists [UpdateSource "STALE (recording in progress)" commit]. simpl.
      run_facts.
Qed.

(** X18. When [main] returns, the exit code is 0 if no scenario failed and
    2 otherwise; the scenarios counted as recorded and as failed are never
    more than the scenarios selected, and without [--keep-going] at most
    one scenario is counted as failed. *)
Theorem exit_code_reports_failures (selected : list Scenario) :
  let r := record_selected json_loads w args commit selected in
  (forall c, ending r = Exit c ->
             (c = 0%Z /\ failed_count r = 0) \/ (c = 2%Z /\ 0 < failed_count r))
  /\ ok_count r + failed_count r <= length selected
  /\ (keep_going args = false -> failed_count r <= 1).
Proof.
  destruct selected as [|s rest].
  - simpl. repeat split; auto. intros c [= <-]. left. auto.
  - destruct (record_selected_invariant (s :: rest)) as (h0 & Hinv & _);
      [discriminate|].
    destruct Hinv as (acts & _ & _ & _ & _ & Hsum & Hexit & _ & Hkeep & _).
    cbv zeta. split; [|split; [exact Hsum | exact Hkeep]].
    intros c Hc. rewrite (Hexit c Hc). unfold exit_code.
    destruct (failed_count _); simpl; [left | right]; split; auto; lia.
Qed.

(** X19. A dry run does nothing but print: no directory is made, the
    oracle is not run, no golden file and no [SOURCE.txt] is written; no
    scenario is counted as failed, and if [main] returns, it returns 0. *)
Theorem dry_run_only_prints (selected : list Scenario) :
  dry_run args = true ->
  let r := record_selected json_loads w args commit selected in
  Forall (fun a => is_output a = true) (trace r)
  /\ failed_count r = 0
  /\ (ending r = Exit 0 \/ ending r = Uncaught).
Proof.
  intros Hd. destruct selected as [|s rest].
  - simpl. run_facts.
  - destruct (record_selected_invariant (s :: rest)) as (h0 & Hinv & _ & Hh0 & _);
      [discriminate|].
    rewrite (Hh0 Hd) in Hinv.
    destruct Hinv as (acts & Htr & _ & _ & _ & _ & Hexit & Hdry & _).
    destruct (Hdry Hd) as [Hout Hf]. cbv zeta.
    split; [rewrite Htr; exact Hout|]. split; [exact Hf|].
    destruct (ending _) as [c|] eqn:Hc; [|right; reflexivity].
    left. rewrite (Hexit c eq_refl), Hf. reflexivity.
Qed.

(** X20. When a run that is not a dry run returns, on a selection that is
    not empty, its first action was to mark the golden [SOURCE.txt] as
    stale (recording in progress), and its last update of that file, after
    which it only prints, wrote the status OK if the exit code is 0 and
    stale (recording failed) if it is 2, with the same commit. *)
Theorem source_status_brackets_run (selected : list Scenario) (c : Z) :
  dry_run args = false ->
  selected <> [] ->
  ending (record_selected json_loads w args commit selected) = Exit c ->
  exists mid tail,
    trace (record_selected json_loads w args commit selected)
    = UpdateSource "STALE (recording in progress)" commit
        :: mid
        ++ UpdateSource (if (c =? 0)%Z then "OK" else "STALE (recording failed)")
                        commit
        :: tail
    /\ Forall (fun a => is_update a = false) mid
    /\ Forall (fun a => is_output a = true) tail.
Proof.
  intros Hd Hne Hc.
  destruct (record_selected_invariant selected Hne) as (h0 & Hinv & _ & _ & Hh0).
  rewrite (Hh0 Hd c Hc) in Hinv.
  destruct Hinv as (acts & Htr & _ & _ & _ & _ & Hexit & _ & _ & Hst).
  destruct (Hst Hd c Hc) as (mid & tail & -> & Hmid & Htail).
  exists mid, tail. split; [|auto]. rewrite Htr. cbn [app].
  rewrite (Hexit c Hc). unfold final_status, exit_code.
  destruct (failed_count _ =? 0); reflexivity.
Qed.

(** X21. Whatever the world answers, every text that [main] writes to a
    golden file is the output, stripped and ended by a newline, of an
    oracle process that returned 0 and whose stripped output [json.loads]
    accepted, and the file is the golden file of a selected scenario. *)
Theorem golden_payloads_validated (selected : list Scenario) :
  Forall (golden_write json_loads selected)
         (trace (record_selected json_loads w args commit selected)).
Proof.
  destruct selected as [|s rest]; [repeat constructor|].
  destruct (record_selected_invariant (s :: rest)) as (h0 & Hinv & Hh0 & _);
    [discriminate|].
  destruct Hinv as (acts & -> & Hgw & _).
  apply Forall_app. split; assumption.
Qed.

(** X22. For a scenario with at least one atlas candidate, the oracle is
    run on the candidates in their order until the output of one run has
    been written: the atlases run are a prefix of the candidates, the error
    kept at the end is empty exactly when a golden file was written, which
    is then the last action, and an error is kept only when every candidate
    has been tried. *)
Theorem try_atlases_until_one_works (s : Scenario) (atlas : string)
    (atlases : list string) (h : list action) :
  let '(h', last_err, wrote) :=
    try_atlases json_loads w s (atlas :: atlases) h None in
  exists acts tried rest,
    h' = h ++ acts
    /\ atlas :: atlases = tried ++ rest
    /\ runs_of acts = tried
    /\ (wrote = true <-> last_err = None)
    /\ (last_err <> None -> rest = [])
    /\ (last_err = None ->
        exists acts0 payload,
          acts = acts0 ++ [WriteGolden (golden_is_skel s) (golden_file s)
                                       payload]).
Proof.
  destruct (try_atlases_inv s (atlas :: atlases) h None)
    as (acts & tried & rest & Hh & Hsplit & Hruns & _ & _ & Hw & Hf).
  destruct (try_atlases json_loads w s (atlas :: atlases) h None)
    as [[h' last_err] wrote].
  cbn [fst snd] in Hh, Hw, Hf.
  exists acts, tried, rest. split; [exact Hh|]. split; [exact Hsplit|].
  split; [exact Hruns|].
  destruct wrote.
  - destruct (Hw eq_refl) as [-> Hlast].
    split; [split; reflexivity|]. split; [contradiction | intros _; exact Hlast].
  - destruct (Hf eq_refl) as (-> & _ & Hne).
    specialize (Hne ltac:(discriminate)).
    split; [split; [discriminate | contradiction]|].
    split; [reflexivity | contradiction].
Qed.

End RunFacts.

Lemma dry_run_only_prints_witness :
  Forall (fun a => is_output a = true) (trace dry_sample_run)
  /\ failed_count dry_sample_run = 0
  /\ (ending dry_sample_run = Exit 0 \/ ending dry_sample_run = Uncaught).
Proof.
  exact (dry_run_only_prints sample_json_loads failing_world
           (sample_args true false 0) (load_upstream_commit (Some upstream_source))
           (select_scenarios (sample_args true false 0) sample_scenarios)
           eq_refl).
Defined.

Lemma source_status_brackets_run_witness :
  exists mid tail,
    trace failed_sample_run
    = UpdateSource "STALE (recording in progress)" (Some (T "0123abcd"))
        :: mid
        ++ UpdateSource "STALE (recording failed)" (Some (T "0123abcd"))
        :: tail
    /\ Forall (fun a => is_update a = false) mid
    /\ Forall (fun a => is_output a = true) tail.
Proof.
  apply (source_status_brackets_run sample_json_loads failing_world
           (sample_args false false 0)
           (load_upstream_commit (Some upstream_source))
           (select_scenarios (sample_args false false 0) sample_scenarios) 2).
  - reflexivity.
  - vm_compute. discriminate.
  - vm_compute. reflexivity.
Defined.

(** ** The unrolling terminates *)

(** X23. The recursion of [parse_commands] ends on every body: each nested
    call is made on a text shorter than the one before, so a depth of one
    more than the length of the body is never exceeded, and the result does
    not depend on the bound given. *)
Theorem parse_commands_terminates (ast_parse : text -> result py_expr)
    (env : const_env) (body : text) (fuel : nat) :
  length body < fuel ->
  parse_commands_fuel ast_parse fuel body env
  = Some (parse_commands ast_parse body (Some env)).
Proof. apply parse_commands_fuel_any. Qed.

Lemma parse_commands_terminates_witness :
  parse_commands_fuel py_parse 100 loop_body dt_env
  = Some (parse_commands py_parse loop_body (Some dt_env)).
Proof.
  apply (parse_commands_terminates py_parse dt_env loop_body 100).
  vm_compute. lia.
Defined.

(** ** The shape of the command lists *)

Lemma option_groups_nil : option_groups [].
Proof. exists []. split; [reflexivity | constructor]. Qed.

Lemma option_groups_app (a b : list string) :
  option_groups a -> option_groups b -> option_groups (a ++ b).
Proof.
  intros (ga & -> & Ha) (gb & -> & Hb). exists (ga ++ gb).
  split; [rewrite concat_app; reflexivity | apply Forall_app; auto].
Qed.

Lemma option_groups_concat (ls : list (list string)) :
  Forall option_groups ls -> option_groups (concat ls).
Proof.
  induction 1 as [|l ls Hl _ IH]; simpl; [apply option_groups_nil|].
  apply option_groups_app; assumption.
Qed.

Lemma check_groups_sound (fuel : nat) :
  forall tokens, check_groups fuel tokens = true -> option_groups tokens.
Proof.
  induction fuel as [|fuel IH]; intros tokens; cbn [check_groups];
    [discriminate|].
  destruct tokens as [|flag rest]; [intros _; apply option_groups_nil|].
  destruct (option_arity flag option_arities) as [n|] eqn:Hn; [|discriminate].
  intros H. apply andb_true_iff in H as [Hlen H]. apply Nat.leb_le in Hlen.
  apply IH in H.
  replace (flag :: rest) with ((flag :: take n rest) ++ drop n rest)
    by (simpl; rewrite take_drop; reflexivity).
  apply option_groups_app; [|exact H].
  exists [flag :: take n rest]. split; [simpl; rewrite app_nil_r; reflexivity|].
  constructor; [|constructor]. exists flag, (take n rest).
  split; [reflexivity|]. rewrite Hn, length_take. f_equal. lia.
Qed.

Lemma row_option_groups (ast_parse : text -> result py_expr) (env : const_env)
    (pf : pattern) (m : re_match) (tokens : list string) :
  pf ∈ patterns ast_parse env ->
  snd pf m = inr tokens ->
  option_groups tokens.
Proof.
  intros Hin. unfold patterns in Hin.
  repeat (apply elem_of_cons in Hin as [->|Hin]);
    [..|inversion Hin];
    cbn [fst snd]; unfold value_tokens, flag_tokens;
    repeat match goal with
      | |- context [parse_value ast_parse ?t env] =>
          destruct (parse_value ast_parse t env); simpl; [discriminate|]
      | |- context [parse_bool ?t] =>
          destruct (parse_bool t); simpl; [discriminate|]
      | |- context [parse_mix_blend ?t] =>
          destruct (parse_mix_blend t); simpl; [discriminate|]
      | |- context [parse_physics_mode ?t] =>
          destruct (parse_physics_mode t); simpl; [discriminate|]
      end;
    intros [= <-]; apply (check_groups_sound 3); reflexivity.
Qed.

Lemma compile_all_tokens (fn : re_match -> result (list string))
    (ms : list re_match) :
  forall xs,
    compile_all fn ms = inr xs ->
    Forall (fun x => exists m, fn m = inr (snd x)) xs.
Proof.
  induction ms as [|m ms IH]; simpl; intros xs.
  - intros [= <-]. constructor.
  - unfold compile_match. destruct (fn m) as [e|ts] eqn:Hfn; simpl;
      [discriminate|].
    destruct (compile_all fn ms) as [e|xs']; simpl; [discriminate|].
    intros [= <-]. constructor; [exists m; exact Hfn | apply IH; reflexivity].
Qed.

Lemma pool_matches_tokens (pats : list pattern) (body : text) :
  forall xs,
    pool_matches pats body = inr xs ->
    Forall (fun x => exists pf m, pf ∈ pats /\ snd pf m = inr (snd x)) xs.
Proof.
  induction pats as [|[pat fn] pats IH]; simpl; intros xs.
  - intros [= <-]. constructor.
  - destruct (compile_all fn (re_finditer pat body)) as [e|xs1] eqn:Hc; simpl;
      [discriminate|].
    destruct (pool_matches pats body) as [e|xs2]; simpl; [discriminate|].
    intros [= <-]. apply Forall_app. split.
    + eapply Forall_impl; [apply (compile_all_tokens _ _ _ Hc)|].
      intros x (m & Hm). exists (pat, fn), m. split; [left | exact Hm].
    + eapply Forall_impl; [apply IH; reflexivity|].
      intros x (pf & m & Hpf & Hm). exists pf, m. split; [right|]; assumption.
Qed.

Lemma parse_commands_no_loops_groups (ast_parse : text -> result py_expr)
    (body : text) (env : const_env) (tokens : list string) :
  parse_commands_no_loops ast_parse body env = inr tokens ->
  option_groups tokens.
Proof.
  unfold parse_commands_no_loops, compile_with.
  destruct (pool_matches (patterns ast_parse env) body) as [e|xs] eqn:Hp; simpl;
    [discriminate|].
  intros [= <-]. apply option_groups_concat.
  apply Forall_fmap. rewrite sort_by_offset_perm.
  eapply Forall_impl; [apply (pool_matches_tokens _ _ _ Hp)|].
  intros x (pf & m & Hpf & Hm). simpl.
  exact (row_option_groups ast_parse env pf m _ Hpf Hm).
Qed.

Lemma parse_commands_fuel_groups (ast_parse : text -> result py_expr)
    (env : const_env) (fuel : nat) :
  forall body tokens,
    parse_commands_fuel ast_parse fuel body env = Some (inr tokens) ->
    option_groups tokens.
Proof.
  induction fuel as [|fuel IH]; intros body tokens; simpl; [discriminate|].
  destruct (re_search loop_re body) as [m|].
  2:{ intros [= H]. eapply parse_commands_no_loops_groups. exact H. }
  destruct (str_find body lbrace (m_end m - 1)) as [ob|]; [|discriminate].
  destruct (find_matching_brace_slow body ob) as [e|cb]; simpl; [discriminate|].
  destruct (parse_value ast_parse (group m 1) env) as [e|v]; simpl;
    [discriminate|].
  destruct (int_of_float v) as [e|n]; simpl; [discriminate|].
  destruct (n <? 0)%Z; [discriminate|].
  destruct (parse_commands_fuel ast_parse fuel (take (m_start m) body) env)
    as [[e|b]|] eqn:Hb; simpl; try discriminate.
  destruct (parse_commands_fuel ast_parse fuel (slice body (ob + 1) cb) env)
    as [[e|i]|] eqn:Hi; simpl; try discriminate.
  destruct (parse_commands_fuel ast_parse fuel (drop (cb + 1) body) env)
    as [[e|a]|] eqn:Ha; simpl; try discriminate.
  intros [= <-].
  apply option_groups_app; [eapply IH; exact Hb|].
  apply option_groups_app; [|eapply IH; exact Ha].
  apply option_groups_concat. apply Forall_replicate. eapply IH. exact Hi.
Qed.

Lemma parse_commands_groups (ast_parse : text -> result py_expr)
    (body : text) (env : option const_env) (tokens : list string) :
  parse_commands ast_parse body env = inr tokens -> option_groups tokens.
Proof.
  unfold parse_commands.
  destruct (parse_commands_fuel ast_parse (S (length body)) body _)
    as [r|] eqn:H; [|discriminate].
  intros ->. eapply parse_commands_fuel_groups. exact H.
Qed.

Lemma scan_test_groups (ast_parse : text -> result py_expr)
    (text_ : text) (m : re_match) (s : Scenario) :
  scan_test ast_parse text_ m = inr (Some s) -> option_groups (commands s).
Proof.
  unfold scan_test.
  destruct (str_find text_ lbrace (m_end m)) as [bo|]; [|discriminate].
  destruct (find_matching_brace_slow text_ bo) as [e|bc]; simpl; [discriminate|].
  destruct (match re_search (re_path_call "example_json_path") _ with
            | Some sm => Some sm
            | None => _
            end) as [sm|]; [|discriminate].
  destruct (match re_search (re_path_call "golden_path") _ with
            | Some gm => (Some gm, false)
            | None => _
            end) as [[gm|] b]; [|discriminate].
  destruct (parse_commands ast_parse _ None) as [e|cmds] eqn:Hc; simpl;
    [discriminate|].
  apply parse_commands_groups in Hc.
  intros [= <-]. simpl.
  destruct (re_search re_dump_pose _) as [dbg|]; [|exact Hc].
  destruct (S_ (group dbg 1)) as [|c slot]; [exact Hc|].
  apply option_groups_app; [exact Hc|].
  apply (check_groups_sound 2). reflexivity.
Qed.

(** X24. Every token list that [parse_commands] returns, and so the
    command list of every scenario that [extract_scenarios] returns, is a
    sequence of options of the oracle, each followed by its fixed number of
    arguments: loops repeat whole options, and the debug slot adds one more
    option at the end. *)
Theorem commands_are_option_groups (ast_parse : text -> result py_expr) :
  (forall body env tokens,
      parse_commands ast_parse body env = inr tokens -> option_groups tokens)
  /\ (forall text_ scs s,
         extract_scenarios ast_parse text_ = inr scs -> s ∈ scs ->
         option_groups (commands s)).
Proof.
  split; [intros body env tokens; apply parse_commands_groups|].
  intros text_ scs s. unfold extract_scenarios.
  destruct (collect_scenarios ast_parse text_ (re_finditer fn_re text_))
    as [e|scs0] eqn:Hc; simpl; [discriminate|].
  intros [= <-] Hs. apply dedup_subset in Hs.
  destruct (collect_scenarios_elem _ _ _ _ _ Hc Hs) as (m & _ & Hscan).
  eapply scan_test_groups. exact Hscan.
Qed.
